(** * Document ledger and organisational-unit resolver

    A shallow embedding of the conferencing front end's core:
    [lib/filiais.ts] (the compiled-in catalog of units, the CNPJ index and
    its lookup), [lib/store.ts] (the zustand store of processed notes and
    its lifecycle actions), the reject handler of [app/lancamento/page.tsx]
    and the progress figure of [app/page.tsx].

    Conventions.  A JavaScript [string | null | undefined] is an
    [option string] ([None] stands for both [null] and [undefined]); strings
    are byte strings in UTF-8, which leaves the ASCII digits and the
    whitespace code points recognisable; an optional object property is an
    [option] field; [number] holding a catalog code is a [Z]; the IEEE
    doubles of the progress figure are Rocq's primitive binary64 floats. *)

From Stdlib Require Import ZArith Ascii String Floats Uint63 Reals Lra.
From stdpp Require Import base option list list_monad gmap strings sorting.

Local Open Scope string_scope.
Local Open Scope Z_scope.

(** ** lib/filiais.ts: the catalog *)

Inductive FilialTipo :=
  | TipoMatriz | TipoFilial | TipoUpa | TipoAps
  | TipoHospital | TipoEscritorio | TipoClinica.

Record Filial := mkFilial {
  codigo : Z;
  nome : string;
  cnpj : string;
  cnpjFormatado : string;
  municipio : string;
  uf : string;
  tipo : FilialTipo;
}.

#[global] Instance FilialTipo_eq_dec : EqDecision FilialTipo.
Proof. solve_decision. Defined.

#[global] Instance Filial_eq_dec : EqDecision Filial.
Proof. solve_decision. Defined.

Definition CNPJ_MATRIZ : string := "11858570000133".

Definition FILIAIS : list Filial := [
  mkFilial 1 "IGH MATRIZ" "11858570000133" "11.858.570/0001-33" "Salvador" "BA" TipoMatriz;
  mkFilial 2 "Hospital de Capim Grosso" "11858570000303" "11.858.570/0003-03" "Capim Grosso" "BA" TipoHospital;
  mkFilial 3 "HMI - Hospital Materno-Infantil" "11858570000214" "11.858.570/0002-14" "Goiânia" "GO" TipoHospital;
  mkFilial 4 "HEAPA - Hospital Estadual de Aparecida de Goiânia" "11858570000486" "11.858.570/0004-86" "Aparecida de Goiânia" "GO" TipoHospital;
  mkFilial 5 "Unidade Goiânia 5" "11858570000567" "11.858.570/0005-67" "Goiânia" "GO" TipoFilial;
  mkFilial 6 "Hospital de Casimiro de Abreu" "11858570000648" "11.858.570/0006-48" "Casimiro de Abreu" "RJ" TipoHospital;
  mkFilial 7 "UPA Cabula" "11858570001024" "11.858.570/0010-24" "Salvador" "BA" TipoUpa;
  mkFilial 8 "UPA Camaçari" "11858570000729" "11.858.570/0007-29" "Camaçari" "BA" TipoUpa;
  mkFilial 9 "Hospital de Porto Seguro" "11858570000800" "11.858.570/0008-00" "Porto Seguro" "BA" TipoHospital;
  mkFilial 10 "HRJL - Hospital Regional Justino Luz" "11858570000990" "11.858.570/0009-90" "Picos" "PI" TipoHospital;
  mkFilial 11 "Cachoeiras de Macacu" "11858570000133" "11.858.570/0001-33" "Cachoeiras de Macacu" "RJ" TipoFilial;
  mkFilial 12 "UPA Caxias do Sul" "11858570001105" "11.858.570/0011-05" "Salvador" "BA" TipoUpa;
  mkFilial 13 "HIMABA" "11858570001296" "11.858.570/0012-96" "Vila Velha" "ES" TipoHospital;
  mkFilial 14 "MJMMN - Maternidade José Maria de Magalhães Neto" "11858570001377" "11.858.570/0013-77" "Salvador" "BA" TipoHospital;
  mkFilial 15 "Contagem" "11858570001458" "11.858.570/0014-58" "Contagem" "MG" TipoFilial;
  mkFilial 16 "Hospital de Mairi" "11858570001610" "11.858.570/0016-10" "Mairi" "BA" TipoHospital;
  mkFilial 17 "Barra" "11858570001539" "11.858.570/0015-39" "Barra" "BA" TipoFilial;
  mkFilial 18 "UPA Boca do Rio" "11858570000133" "11.858.570/0001-33" "Salvador" "BA" TipoUpa;
  mkFilial 19 "UPA Pernambués" "11858570001881" "11.858.570/0018-81" "Salvador" "BA" TipoUpa;
  mkFilial 20 "Hospital Pituba" "11858570002268" "11.858.570/0022-68" "Salvador" "BA" TipoHospital;
  mkFilial 22 "UPA São Cristóvão" "11858570002853" "11.858.570/0028-53" "Salvador" "BA" TipoUpa;
  mkFilial 23 "APS Camaçari" "11858570000133" "11.858.570/0001-33" "Camaçari" "BA" TipoAps;
  mkFilial 24 "Hospital Santa Maria" "11858570001962" "11.858.570/0019-62" "Goiânia" "GO" TipoHospital;
  mkFilial 25 "APS Vitória da Conquista" "11858570000133" "11.858.570/0001-33" "Vitória da Conquista" "BA" TipoAps;
  mkFilial 26 "Escritório Regional de Goiás" "11858570001709" "11.858.570/0017-09" "Goiânia" "GO" TipoEscritorio;
  mkFilial 28 "APS Natal" "11858570000133" "11.858.570/0001-33" "Natal" "RN" TipoAps;
  mkFilial 32 "UPA Paripe" "11858570002772" "11.858.570/0027-72" "Salvador" "BA" TipoUpa;
  mkFilial 33 "UPA Pirajá" "11858570000133" "11.858.570/0001-33" "Salvador" "BA" TipoUpa;
  mkFilial 34 "APS Aracaju" "11858570000133" "11.858.570/0001-33" "Aracaju" "SE" TipoAps;
  mkFilial 35 "Hospital de Anápolis" "11858570000133" "11.858.570/0001-33" "Anápolis" "GO" TipoHospital;
  mkFilial 36 "Hospital Regional de Eunápolis" "11858570002187" "11.858.570/0021-87" "Eunápolis" "BA" TipoHospital;
  mkFilial 37 "Nefrologia" "11858570002004" "11.858.570/0020-04" "Salvador" "BA" TipoClinica;
  mkFilial 38 "Maternidade Maria de Lourdes Santana Nogueira" "11858570002349" "11.858.570/0023-49" "Aracaju" "SE" TipoHospital;
  mkFilial 39 "IGH ADM" "11858570002691" "11.858.570/0026-91" "Salvador" "BA" TipoEscritorio;
  mkFilial 40 "Clínica IGH Healthcare" "11858570002500" "11.858.570/0025-00" "Salvador" "BA" TipoClinica
].

(** ** Outcomes of running a piece of the program

    A JavaScript call either returns or throws.  [Error] names the failure
    kinds the specification speaks of; [Completion] is the outcome of a
    call.  None of the modelled functions contains a [throw]. *)

Inductive Error :=
  | NotFound
  | InvalidArgument
  | ConfigurationInvariantViolation.

Inductive Completion (A : Type) :=
  | Normal (a : A)
  | Throw (e : Error).
Arguments Normal {A} a.
Arguments Throw {A} e.

(** ** lib/filiais.ts: the CNPJ index *)

Section Registry.
Variable catalog : list Filial.

(** The test of the [forEach] callback that fills [cnpjToFilialMap]. *)
Definition admitted (f : Filial) : Prop :=
  cnpj f ≠ CNPJ_MATRIZ ∨ codigo f = 1.

#[global] Instance admitted_dec f : Decision (admitted f).
Proof. unfold admitted. apply _. Defined.

Definition indexStep (m : gmap string Filial) (f : Filial) : gmap string Filial :=
  if decide (admitted f) then <[cnpj f := f]> m else m.

(** [FILIAIS.forEach(...)] over an initially empty [Map]; [Map.set]
    replaces the value of a key that is already present. *)
Definition buildIndex : gmap string Filial := foldl indexStep ∅ catalog.

(** The module's top-level statements, run when it is first imported. *)
Definition loadFiliais : Completion (gmap string Filial) := Normal buildIndex.

(** [FILIAIS.find((f) => f.codigo === 1)!]: the [!] is erased by the
    compiler, so the result is [undefined] when no unit has code 1. *)
Definition findMatriz : option Filial :=
  List.find (λ f, bool_decide (codigo f = 1)) catalog.
End Registry.

Definition cnpjToFilialMap : gmap string Filial := buildIndex FILIAIS.

Definition is_digit (c : ascii) : bool :=
  let n := nat_of_ascii c in ((48 <=? n) && (n <=? 57))%nat.

(** [s.replace(/\D/g, "")] *)
Fixpoint strip_non_digits (s : string) : string :=
  match s with
  | EmptyString => EmptyString
  | String c rest =>
      if is_digit c then String c (strip_non_digits rest) else strip_non_digits rest
  end.

Definition normalizeCnpj (cnpj : option string) : string :=
  match cnpj with
  | None => EmptyString
  | Some s => if decide (s = EmptyString) then EmptyString else strip_non_digits s
  end.

Definition lookupCnpj (index : gmap string Filial) (cnpjDest : option string) : option Filial :=
  let cnpjNormalizado := normalizeCnpj cnpjDest in
  if decide (cnpjNormalizado = EmptyString) then None
  else index !! cnpjNormalizado.

Definition getFilialByCnpj (cnpjDest : option string) : option Filial :=
  lookupCnpj cnpjToFilialMap cnpjDest.

Definition getMatriz : option Filial := findMatriz FILIAIS.

(** ** types/nfe.ts

    [NFeExtractResponse] is the payload extracted upstream.  The store reads
    only [dest.doc]; the members kept here identify the payload, the others
    are carried along in the same way. *)

Record NFeParty := mkNFeParty {
  doc : option string;
  party_nome : option string;
  party_uf : option string;
  party_municipio : option string;
}.

Record NFeExtractResponse := mkNFeExtractResponse {
  received : bool;
  response_filename : string;
  sha256 : string;
  emit : option NFeParty;
  dest : option NFeParty;
}.

(** A [Date] is its time value, in milliseconds since the epoch. *)
Definition Date := Z.

Inductive NoteLaunchStatus := pending | launched | rejected.

(** [NoteLaunchInfo]; its member [notes] is [operatorNotes] here. *)
Record NoteLaunchInfo := mkNoteLaunchInfo {
  status : NoteLaunchStatus;
  launchedAt : option Date;
  launchedBy : option string;
  rejectedAt : option Date;
  rejectedBy : option string;
  rejectionReason : option string;
  operatorNotes : option string;
}.

Record NoteFilialInfo := mkNoteFilialInfo {
  info_codigo : Z;
  info_nome : string;
  info_cnpj : string;
  info_cnpjFormatado : string;
  info_municipio : string;
  info_uf : string;
  info_tipo : FilialTipo;
}.

(** [ProcessedNote]; its member [id] is [note_id] here.  [launchInfo] is
    optional because the projections of the store test for its absence. *)
Record ProcessedNote := mkProcessedNote {
  note_id : string;
  filename : string;
  data : NFeExtractResponse;
  processedAt : Date;
  launchInfo : option NoteLaunchInfo;
  filial : option NoteFilialInfo;
}.

#[global] Instance NoteLaunchStatus_eq_dec : EqDecision NoteLaunchStatus.
Proof. solve_decision. Defined.
#[global] Instance NoteLaunchInfo_eq_dec : EqDecision NoteLaunchInfo.
Proof. solve_decision. Defined.
#[global] Instance NoteFilialInfo_eq_dec : EqDecision NoteFilialInfo.
Proof. solve_decision. Defined.
#[global] Instance NFeParty_eq_dec : EqDecision NFeParty.
Proof. solve_decision. Defined.
#[global] Instance NFeExtractResponse_eq_dec : EqDecision NFeExtractResponse.
Proof. solve_decision. Defined.
#[global] Instance ProcessedNote_eq_dec : EqDecision ProcessedNote.
Proof. solve_decision. Defined.

(** ** lib/store.ts *)

Definition identifyFilial (destCnpj : option string) : option NoteFilialInfo :=
  match getFilialByCnpj destCnpj with
  | None => None
  | Some filial =>
      Some {| info_codigo := codigo filial;
              info_nome := nome filial;
              info_cnpj := cnpj filial;
              info_cnpjFormatado := cnpjFormatado filial;
              info_municipio := municipio filial;
              info_uf := uf filial;
              info_tipo := tipo filial |}
  end.

Record NotesStore := mkNotesStore {
  notes : list ProcessedNote;
  selectedNoteId : option string;
}.

(** What a store action runs against: the zustand state, and how many
    times the clock and the random generator have been consulted. *)
Record World := mkWorld {
  zustand : NotesStore;
  clockReads : nat;
  idDraws : nat;
}.

Definition Action (A : Type) : Type := World → Completion (A * World).

#[global] Instance Action_ret : MRet Action :=
  λ A a w, Normal (a, w).

#[global] Instance Action_bind : MBind Action :=
  λ A B k m w,
    match m w with
    | Normal (a, w') => k a w'
    | Throw e => Throw e
    end.

Definition get : Action NotesStore := λ w, Normal (zustand w, w).

(** [set((state) => ...)]: the updater runs on the current state and its
    result replaces the members it names. *)
Definition set (updater : NotesStore → Action NotesStore) : Action unit :=
  λ w,
    match updater (zustand w) w with
    | Normal (s', w') =>
        Normal (tt, {| zustand := s'; clockReads := clockReads w'; idDraws := idDraws w' |})
    | Throw e => Throw e
    end.

Definition initialStore : NotesStore := {| notes := []; selectedNoteId := None |}.
Definition initialWorld : World := {| zustand := initialStore; clockReads := 0; idDraws := 0 |}.

Definition pendingInfo : NoteLaunchInfo :=
  {| status := pending; launchedAt := None; launchedBy := None; rejectedAt := None;
     rejectedBy := None; rejectionReason := None; operatorNotes := None |}.

(** [{...n.launchInfo}]: the members of the record when there is one. *)
Definition spreadLaunchInfo (li : option NoteLaunchInfo) : NoteLaunchInfo :=
  default pendingInfo li.

(** [{...n, launchInfo: li}] *)
Definition withLaunchInfo (n : ProcessedNote) (li : NoteLaunchInfo) : ProcessedNote :=
  {| note_id := note_id n; filename := filename n; data := data n;
     processedAt := processedAt n; launchInfo := Some li; filial := filial n |}.

(** The record a launch writes over the spread of the old one: the launch
    members are overwritten, also by an absent operator or note, and the
    rejection members of the old record stay. *)
Definition launchedInfo (old : option NoteLaunchInfo) (now : Date)
    (operatorName notes : option string) : NoteLaunchInfo :=
  let old := spreadLaunchInfo old in
  {| status := launched; launchedAt := Some now; launchedBy := operatorName;
     rejectedAt := rejectedAt old; rejectedBy := rejectedBy old;
     rejectionReason := rejectionReason old; operatorNotes := notes |}.

(** The record a rejection writes over the spread of the old one. *)
Definition rejectedInfo (old : option NoteLaunchInfo) (now : Date)
    (reason : string) (operatorName : option string) : NoteLaunchInfo :=
  let old := spreadLaunchInfo old in
  {| status := rejected; launchedAt := launchedAt old; launchedBy := launchedBy old;
     rejectedAt := Some now; rejectedBy := operatorName;
     rejectionReason := Some reason; operatorNotes := operatorNotes old |}.

Section Store.
(** The environment: the time value of the k-th [new Date()] and the
    string of the k-th [generateId()]. *)
Variable wallClock : nat → Date.
Variable randomId : nat → string.

Definition newDate : Action Date :=
  λ w, Normal (wallClock (clockReads w),
               {| zustand := zustand w; clockReads := S (clockReads w); idDraws := idDraws w |}).

Definition generateId : Action string :=
  λ w, Normal (randomId (idDraws w),
               {| zustand := zustand w; clockReads := clockReads w; idDraws := S (idDraws w) |}).

Definition newNote (filename : string) (data : NFeExtractResponse) : Action ProcessedNote :=
  let filial := identifyFilial (dest data ≫= doc) in
  id ← generateId;
  now ← newDate;
  mret {| note_id := id; filename := filename; data := data; processedAt := now;
          launchInfo := Some pendingInfo; filial := filial |}.

Definition addNote (filename : string) (data : NFeExtractResponse) : Action unit :=
  note ← newNote filename data;
  set (λ state, mret {| notes := notes state ++ [note];
                        selectedNoteId := selectedNoteId state |}).

Definition addNotes (notesToAdd : list (string * NFeExtractResponse)) : Action unit :=
  newNotes ← mapM (λ e, newNote e.1 e.2) notesToAdd;
  set (λ state, mret {| notes := notes state ++ newNotes;
                        selectedNoteId := selectedNoteId state |}).

Definition removeNote (id : string) : Action unit :=
  set (λ state,
    mret {| notes := filter (λ n, note_id n ≠ id) (notes state);
            selectedNoteId := if decide (selectedNoteId state = Some id) then None
                              else selectedNoteId state |}).

Definition clearNotes : Action unit :=
  set (λ _, mret {| notes := []; selectedNoteId := None |}).

Definition selectNote (id : option string) : Action unit :=
  set (λ state, mret {| notes := notes state; selectedNoteId := id |}).

Definition getSelectedNote : Action (option ProcessedNote) :=
  state ← get;
  mret (List.find (λ n, bool_decide (Some (note_id n) = selectedNoteId state)) (notes state)).

(** [{...n.launchInfo, status: "launched", launchedAt: new Date(),
      launchedBy: operatorName, notes}] *)
Definition launchNote (operatorName notes : option string) (n : ProcessedNote) : Action ProcessedNote :=
  now ← newDate;
  mret (withLaunchInfo n (launchedInfo (launchInfo n) now operatorName notes)).

(** [{...n.launchInfo, status: "rejected", rejectedAt: new Date(),
      rejectedBy: operatorName, rejectionReason: reason}] *)
Definition rejectNote (reason : string) (operatorName : option string) (n : ProcessedNote) : Action ProcessedNote :=
  now ← newDate;
  mret (withLaunchInfo n (rejectedInfo (launchInfo n) now reason operatorName)).

(** [{...n, launchInfo: {status: "pending"}}] *)
Definition resetNote (n : ProcessedNote) : Action ProcessedNote :=
  mret (withLaunchInfo n pendingInfo).

(** [state.notes.map((n) => n.id === id ? ... : n)] *)
Definition mapMatching (id : string) (f : ProcessedNote → Action ProcessedNote) : Action unit :=
  set (λ state,
    notes' ← mapM (λ n, if decide (note_id n = id) then f n else mret n) (notes state);
    mret {| notes := notes'; selectedNoteId := selectedNoteId state |}).

Definition markAsLaunched (id : string) (operatorName notes : option string) : Action unit :=
  mapMatching id (launchNote operatorName notes).

Definition markAsRejected (id : string) (reason : string) (operatorName : option string) : Action unit :=
  mapMatching id (rejectNote reason operatorName).

Definition resetLaunchStatus (id : string) : Action unit :=
  mapMatching id resetNote.

(** *** Calls of the store's actions, and sequences of them *)

Inductive StoreOp :=
  | AddNote (filename : string) (data : NFeExtractResponse)
  | AddNotes (notesToAdd : list (string * NFeExtractResponse))
  | RemoveNote (id : string)
  | ClearNotes
  | SelectNote (id : option string)
  | MarkAsLaunched (id : string) (operatorName notes : option string)
  | MarkAsRejected (id : string) (reason : string) (operatorName : option string)
  | ResetLaunchStatus (id : string).

Definition runOp (op : StoreOp) : Action unit :=
  match op with
  | AddNote filename data => addNote filename data
  | AddNotes notesToAdd => addNotes notesToAdd
  | RemoveNote id => removeNote id
  | ClearNotes => clearNotes
  | SelectNote id => selectNote id
  | MarkAsLaunched id operatorName notes => markAsLaunched id operatorName notes
  | MarkAsRejected id reason operatorName => markAsRejected id reason operatorName
  | ResetLaunchStatus id => resetLaunchStatus id
  end.

Fixpoint runOps (ops : list StoreOp) : Action unit :=
  match ops with
  | [] => mret tt
  | op :: rest => runOp op;; runOps rest
  end.
End Store.

(** *** The filtered getters of the store, as readers of its state *)

Definition hasStatus (st : NoteLaunchStatus) (n : ProcessedNote) : Prop :=
  status <$> launchInfo n = Some st.

(** [n.launchInfo?.status === "pending" || !n.launchInfo] *)
Definition countsAsPending (n : ProcessedNote) : Prop :=
  hasStatus pending n ∨ launchInfo n = None.

#[global] Instance hasStatus_dec st n : Decision (hasStatus st n).
Proof. unfold hasStatus. apply _. Defined.
#[global] Instance countsAsPending_dec n : Decision (countsAsPending n).
Proof. unfold countsAsPending. apply _. Defined.

Definition getPendingNotes (state : NotesStore) : list ProcessedNote :=
  filter countsAsPending (notes state).

Definition getLaunchedNotes (state : NotesStore) : list ProcessedNote :=
  filter (hasStatus launched) (notes state).

Definition getRejectedNotes (state : NotesStore) : list ProcessedNote :=
  filter (hasStatus rejected) (notes state).

(** ** app/lancamento/page.tsx: the reject handler *)

(** Byte length of the ECMAScript WhiteSpace or LineTerminator code point
    at the head of a UTF-8 string, [0] when there is none: U+0009..U+000D,
    U+0020, U+00A0, U+1680, U+2000..U+200A, U+2028, U+2029, U+202F, U+205F,
    U+3000 and U+FEFF. *)
Definition whiteSpaceLength (s : string) : nat :=
  match s with
  | String a rest =>
      let a := nat_of_ascii a in
      if ((9 <=? a) && (a <=? 13) || (a =? 32))%nat then 1%nat
      else
        match rest with
        | String b rest' =>
            let b := nat_of_ascii b in
            if ((a =? 194) && (b =? 160))%nat then 2%nat
            else
              match rest' with
              | String c _ =>
                  let c := nat_of_ascii c in
                  if ((a =? 225) && (b =? 154) && (c =? 128)
                      || (a =? 226) && (b =? 128)
                         && ((128 <=? c) && (c <=? 138) || (c =? 168) || (c =? 169) || (c =? 175))
                      || (a =? 226) && (b =? 129) && (c =? 159)
                      || (a =? 227) && (b =? 128) && (c =? 128)
                      || (a =? 239) && (b =? 187) && (c =? 191))%nat
                  then 3%nat else 0%nat
              | EmptyString => 0%nat
              end
        | EmptyString => 0%nat
        end
  | EmptyString => 0%nat
  end.

(** Whether the string, after [skip] more bytes of the code point being
    crossed, holds white space only. *)
Fixpoint blankAfter (skip : nat) (s : string) : bool :=
  match s with
  | EmptyString => true
  | String _ rest =>
      match skip with
      | S k => blankAfter k rest
      | O =>
          match whiteSpaceLength s with
          | O => false
          | S k => blankAfter k rest
          end
      end
  end.

Definition blank (s : string) : bool := blankAfter 0 s.

Fixpoint trimStartAfter (skip : nat) (s : string) : string :=
  match s with
  | EmptyString => EmptyString
  | String _ rest =>
      match skip with
      | S k => trimStartAfter k rest
      | O =>
          match whiteSpaceLength s with
          | O => s
          | S k => trimStartAfter k rest
          end
      end
  end.

Fixpoint trimEnd (s : string) : string :=
  match s with
  | EmptyString => EmptyString
  | String c rest => if blank s then EmptyString else String c (trimEnd rest)
  end.

(** [String.prototype.trim] *)
Definition trim (s : string) : string := trimEnd (trimStartAfter 0 s).

(** The React state of the page that the handler reads and writes. *)
Record LancamentoPage := mkLancamentoPage {
  rejectReason : string;
  showRejectModal : bool;
  launchNotes : string;
}.

Section Lancamento.
Variable wallClock : nat → Date.

Definition handleMarkAsRejected (page : LancamentoPage) : Action LancamentoPage :=
  state ← get;
  let selectedNote :=
    List.find (λ n, bool_decide (Some (note_id n) = selectedNoteId state)) (notes state) in
  match selectedNote with
  | Some selected =>
      if decide (trim (rejectReason page) ≠ EmptyString) then
        markAsRejected wallClock (note_id selected) (rejectReason page) None;;
        state' ← get;
        let pending := filter (λ n, note_id n ≠ note_id selected) (getPendingNotes state') in
        match pending with
        | next :: _ => selectNote (Some (note_id next))
        | [] => mret tt
        end;;
        mret {| rejectReason := EmptyString; showRejectModal := false;
                launchNotes := launchNotes page |}
      else mret page
  | None => mret page
  end.
End Lancamento.

(** ** app/page.tsx: the progress figure *)

(** An array length as a [number]. *)
Definition toNumber (n : nat) : float := PrimFloat.of_uint63 (Uint63.of_Z (Z.of_nat n)).

(** [Math.round]: the integer nearest to the double, a tie going towards
    +∞, computed exactly on the double's value; zeros, infinities and NaN
    are returned as they are. *)
Definition Math_round (x : float) : float :=
  match Prim2SF x with
  | S754_finite s m e =>
      if (0 <=? e)%Z then x
      else
        let q := Z.shiftr ((if s then Z.neg m else Z.pos m) + 2 ^ (- e - 1)) (- e) in
        let r := PrimFloat.of_uint63 (Uint63.of_Z (Z.abs q)) in
        if s then PrimFloat.opp r else r
  | _ => x
  end.

Definition progressPercentage (state : NotesStore) : float :=
  let launchedNotes := getLaunchedNotes state in
  if (0 <? length (notes state))%nat
  then Math_round (toNumber (length launchedNotes) / toNumber (length (notes state)) * 100)%float
  else 0%float.

(** ** Vocabulary of the statements *)

(** The ten decimal digits. *)
Definition decimalDigits : list ascii :=
  ["0"; "1"; "2"; "3"; "4"; "5"; "6"; "7"; "8"; "9"]%char.

(** The normalized form of a tax id as the specification words it: the raw
    string with every character that is not a digit stripped, the empty
    string for a missing one.  It is written without the code's
    [normalizeCnpj], by which the code is measured against it. *)
Definition digitsOf (raw : option string) : string :=
  string_of_list_ascii
    (filter (λ c, c ∈ decimalDigits) (list_ascii_of_string (default EmptyString raw))).

(** The first entry of [FILIAIS]. *)
Definition IGH_MATRIZ : Filial :=
  mkFilial 1 "IGH MATRIZ" "11858570000133" "11.858.570/0001-33" "Salvador" "BA" TipoMatriz.

(** Admitted units of a catalog that carry the key [k], in catalog order. *)
Definition claimants (catalog : list Filial) (k : string) : list Filial :=
  filter (λ f, admitted f ∧ cnpj f = k) catalog.

(** How many units of a catalog are of type [matriz]. *)
Definition headquartersCount (catalog : list Filial) : nat :=
  length (filter (λ f, tipo f = TipoMatriz) catalog).

(** What a note carries besides its launch record. *)
Definition frame (n : ProcessedNote)
    : string * string * NFeExtractResponse * Date * option NoteFilialInfo :=
  (note_id n, filename n, data n, processedAt n, filial n).

(** The three lifecycle transitions, as calls of the store. *)
Inductive LifecycleOp :=
  | Launch (id : string) (operatorName notes : option string)
  | Reject (id : string) (reason : string) (operatorName : option string)
  | Reset (id : string).

Definition lifecycleCall (op : LifecycleOp) : StoreOp :=
  match op with
  | Launch id operatorName notes => MarkAsLaunched id operatorName notes
  | Reject id reason operatorName => MarkAsRejected id reason operatorName
  | Reset id => ResetLaunchStatus id
  end.

(** The members of a launch record that go with its status: a pending
    record has none of the launch and rejection members; a launched one has
    its time of launch and no rejection member; a rejected one has its time
    and reason of rejection and no launch member.  The operator and the
    launch note are optional arguments of the actions, so their presence is
    not asked for. *)
Definition fieldsMatchStatus (li : NoteLaunchInfo) : Prop :=
  match status li with
  | pending =>
      launchedAt li = None ∧ launchedBy li = None ∧ operatorNotes li = None
      ∧ rejectedAt li = None ∧ rejectedBy li = None ∧ rejectionReason li = None
  | launched =>
      is_Some (launchedAt li)
      ∧ rejectedAt li = None ∧ rejectedBy li = None ∧ rejectionReason li = None
  | rejected =>
      is_Some (rejectedAt li) ∧ is_Some (rejectionReason li)
      ∧ launchedAt li = None ∧ launchedBy li = None ∧ operatorNotes li = None
  end.

Definition lifecycleConsistent (n : ProcessedNote) : Prop :=
  ∃ li, launchInfo n = Some li ∧ fieldsMatchStatus li.

(** The part of [fieldsMatchStatus] that concerns the members of the
    record's own status: a pending record has none of the launch and
    rejection members, a launched one has its time of launch, a rejected
    one its time and reason of rejection.  Nothing is asked about the
    members of the other status. *)
Definition ownMembersSet (li : NoteLaunchInfo) : Prop :=
  match status li with
  | pending =>
      launchedAt li = None ∧ launchedBy li = None ∧ operatorNotes li = None
      ∧ rejectedAt li = None ∧ rejectedBy li = None ∧ rejectionReason li = None
  | launched => is_Some (launchedAt li)
  | rejected => is_Some (rejectedAt li) ∧ is_Some (rejectionReason li)
  end.

Definition statusMembersSet (n : ProcessedNote) : Prop :=
  ∃ li, launchInfo n = Some li ∧ ownMembersSet li.

(** A call that follows the edges of the state machine: no launch of a
    rejected note and no rejection of a launched one. *)
Definition followsEdges (state : NotesStore) (op : StoreOp) : Prop :=
  match op with
  | MarkAsLaunched id _ _ =>
      ∀ n, n ∈ notes state → note_id n = id → ¬ hasStatus rejected n
  | MarkAsRejected id _ _ =>
      ∀ n, n ∈ notes state → note_id n = id → ¬ hasStatus launched n
  | _ => True
  end.

(** The worlds reached from the empty store by calls that follow the
    edges. *)
Inductive reachable (wallClock : nat → Date) (randomId : nat → string) : World → Prop :=
  | reachable_initial : reachable wallClock randomId initialWorld
  | reachable_step w op w' :
      reachable wallClock randomId w →
      followsEdges (zustand w) op →
      runOp wallClock randomId op w = Normal (tt, w') →
      reachable wallClock randomId w'.

(** The note [newNote] builds at given draws of the generator and reads of
    the clock. *)
Definition ingested (wallClock : nat → Date) (randomId : nat → string)
    (draws reads : nat) (i : nat) (e : string * NFeExtractResponse) : ProcessedNote :=
  {| note_id := randomId (draws + i)%nat; filename := e.1; data := e.2;
     processedAt := wallClock (reads + i)%nat;
     launchInfo := Some pendingInfo;
     filial := identifyFilial (dest (e.2) ≫= doc) |}.

(** A function on notes that leaves the store and the generator alone and
    relates its argument to its result by [R]. *)
Definition noteStep (f : ProcessedNote → Action ProcessedNote)
    (R : ProcessedNote → ProcessedNote → Prop) : Prop :=
  ∀ n w, ∃ n' w',
    f n w = Normal (n', w') ∧ zustand w' = zustand w ∧ idDraws w' = idDraws w ∧ R n n'.

(** A non-negative integer as a [number]. *)
Definition ofZ (z : Z) : float := PrimFloat.of_uint63 (Uint63.of_Z z).

(** The progress figure for given counts. *)
Definition percentFigure (launchedCount total : nat) : float :=
  Math_round (toNumber launchedCount / toNumber total * 100)%float.

(** The percentage of the specification, [round(launched / total * 100)],
    on the exact quotient: the integer nearest to [100 * launched / total],
    one half rounding up. *)
Definition roundedPercent (launchedCount total : Z) : Z :=
  (200 * launchedCount + total) / (2 * total).

(** The real number that a finite positive double of mantissa [m] and
    exponent [e] stands for. *)
Definition doubleValue (m : positive) (e : Z) : R := (IZR (Z.pos m) * powerRZ 2 e)%R.

(** *** Sample environment and payloads *)

Definition sampleClock (k : nat) : Date := 1700000000000 + Z.of_nat k.

Definition sampleId (k : nat) : string := String (ascii_of_nat (97 + k)) EmptyString.

Definition payloadFor (cnpjDest : string) : NFeExtractResponse :=
  {| received := true; response_filename := "nfe.xml"; sha256 := "0f";
     emit := Some (mkNFeParty (Some "04252011000110") None None None);
     dest := Some (mkNFeParty (Some cnpjDest) None None None) |}.

Definition sampleNote (id : string) (li : option NoteLaunchInfo) : ProcessedNote :=
  {| note_id := id; filename := "nfe.xml"; data := payloadFor "11.858.570/0003-03";
     processedAt := 1700000000000; launchInfo := li; filial := None |}.

(** A collection of [total] notes of which the first [launchedCount] are
    launched and the others pending. *)
Definition progressSample (launchedCount total : nat) : NotesStore :=
  {| notes :=
       (replicate launchedCount
          (sampleNote "a" (Some (launchedInfo (Some pendingInfo) 1700000000001 None None)))
        ++ replicate (total - launchedCount) (sampleNote "b" (Some pendingInfo)))%list;
     selectedNoteId := None |}.

(** * Further code of the same files *)

(** ** lib/filiais.ts: formatting, group test and queries by state *)

(** [s.slice(a, b)] for [a <= b] within the string. *)
Definition slice (a b : nat) (s : string) : string := substring a (b - a) s.

Definition formatCnpj (cnpj : option string) : string :=
  let digits := normalizeCnpj cnpj in
  if decide (String.length digits ≠ 14%nat) then default EmptyString cnpj
  else slice 0 2 digits +:+ "." +:+ slice 2 5 digits +:+ "." +:+ slice 5 8 digits
       +:+ "/" +:+ slice 8 12 digits +:+ "-" +:+ slice 12 14 digits.

Definition isIghCnpj (cnpj : option string) : bool :=
  let normalizado := normalizeCnpj cnpj in
  if decide (normalizado = EmptyString) then false
  else String.prefix "11858570" normalizado.

(** [Set.prototype.add] on a set kept in insertion order. *)
Definition setAdd (x : string) (s : list string) : list string :=
  if decide (x ∈ s) then s else (s ++ [x])%list.

(** The value of a continuation byte of UTF-8, [10xxxxxx]. *)
Definition continuation (b : ascii) : option N :=
  let n := N_of_ascii b in
  if ((128 <=? n) && (n <? 192))%N then Some (n - 128)%N else None.

(** The UTF-16 code units of a string, which is kept here as its bytes in
    UTF-8: a code point of one, two or three bytes is one code unit, a code
    point of four bytes is a pair of surrogates.  A byte that does not
    begin a well-formed code point, which the bytes of a JavaScript string
    never hold, counts as a code unit by itself. *)
Fixpoint codeUnits (s : string) : list N :=
  match s with
  | EmptyString => []
  | String a rest =>
      let a0 := N_of_ascii a in
      let single := a0 :: codeUnits rest in
      if (a0 <? 192)%N then single
      else if (a0 <? 224)%N then
        match rest with
        | String b rest1 =>
            match continuation b with
            | Some b0 => ((a0 - 192) * 64 + b0)%N :: codeUnits rest1
            | None => single
            end
        | _ => single
        end
      else if (a0 <? 240)%N then
        match rest with
        | String b (String c rest2) =>
            match continuation b, continuation c with
            | Some b0, Some c0 =>
                ((a0 - 224) * 4096 + b0 * 64 + c0)%N :: codeUnits rest2
            | _, _ => single
            end
        | _ => single
        end
      else
        match rest with
        | String b (String c (String d rest3)) =>
            match continuation b, continuation c, continuation d with
            | Some b0, Some c0, Some d0 =>
                let v := ((a0 - 240) * 262144 + b0 * 4096 + c0 * 64 + d0 - 65536)%N in
                (55296 + v / 1024)%N :: (56320 + v mod 1024)%N :: codeUnits rest3
            | _, _, _ => single
            end
        | _ => single
        end
  end.

(** The comparison of two strings by [<]: code unit by code unit, a proper
    prefix being smaller. *)
Fixpoint unitsLe (a b : list N) : bool :=
  match a, b with
  | [], _ => true
  | _ :: _, [] => false
  | x :: a', y :: b' =>
      if (x <? y)%N then true else if (y <? x)%N then false else unitsLe a' b'
  end.

(** The order of [Array.prototype.sort] without comparator on strings:
    [x] goes before [y] unless [y < x]. *)
Definition codeUnitLe (a b : string) : Prop := unitsLe (codeUnits a) (codeUnits b) = true.

#[global] Instance codeUnitLe_dec a b : Decision (codeUnitLe a b).
Proof. unfold codeUnitLe. apply _. Defined.

Section RegistryQueries.
Variable catalog : list Filial.

(** [FILIAIS.forEach((f) => ufs.add(f.uf))] then [Array.from(ufs).sort()] *)
Definition ufsComUnidades : list string :=
  merge_sort codeUnitLe (foldl (λ ufs f, setAdd (uf f) ufs) [] catalog).

(** [FILIAIS.filter((f) => f.uf === uf)] *)
Definition filialPorUf (estado : string) : list Filial :=
  filter (λ f, uf f = estado) catalog.
End RegistryQueries.

Definition getUfsComUnidades : list string := ufsComUnidades FILIAIS.

Definition getFilialPorUf (estado : string) : list Filial := filialPorUf FILIAIS estado.

(** The punctuated form of fourteen digits. *)
Definition punctuated (digits : string) : string :=
  slice 0 2 digits +:+ "." +:+ slice 2 5 digits +:+ "." +:+ slice 5 8 digits
  +:+ "/" +:+ slice 8 12 digits +:+ "-" +:+ slice 12 14 digits.

(** Two state codes outside ASCII, to tell the order of code units from
    the order of bytes: the fullwidth letter A, U+FF21 (bytes EF BC A1, one
    code unit FF21), and the mathematical bold capital A, U+1D400 (bytes
    F0 9D 90 80, the surrogates D835 DC00). *)
Definition fullwidthA : string :=
  String "239" (String "188" (String "161" EmptyString)).

Definition mathBoldA : string :=
  String "240" (String "157" (String "144" (String "128" EmptyString))).

(** A unit like the headquarters, in another state. *)
Definition unitIn (estado : string) : Filial :=
  mkFilial 1 "IGH" CNPJ_MATRIZ "11.858.570/0001-33" "Salvador" estado TipoMatriz.

(** ** lib/store.ts: vocabulary of the further statements *)

(** A generator that never repeats: k letters x. *)
Fixpoint unaryId (k : nat) : string :=
  match k with
  | O => EmptyString
  | S k => String "x" (unaryId k)
  end.

(** The selected note as [getSelectedNote] finds it. *)
Definition selectedIn (state : NotesStore) : option ProcessedNote :=
  List.find (λ n, bool_decide (Some (note_id n) = selectedNoteId state)) (notes state).

(** The ids of the notes are distinct and were all drawn before. *)
Definition idsFresh (randomId : nat → string) (w : World) : Prop :=
  NoDup (note_id <$> notes (zustand w))
  ∧ Forall (λ x, ∃ k, (k < idDraws w)%nat ∧ x = randomId k) (note_id <$> notes (zustand w)).

(** ** lib/store.ts: notes and statistics by unit *)

(** [notes.filter((n) => n.filial?.codigo === codigoFilial)] *)
Definition getNotesByFilial (codigoFilial : Z) (state : NotesStore) : list ProcessedNote :=
  filter (λ n, info_codigo <$> filial n = Some codigoFilial) (notes state).

(** A [Map] with number keys, its entries in insertion order. *)
Fixpoint mapGet {V} (k : Z) (m : list (Z * V)) : option V :=
  match m with
  | [] => None
  | (k', v) :: rest => if decide (k' = k) then Some v else mapGet k rest
  end.

(** [if (m.has(k)) { change m.get(k) in place } else { m.set(k, fresh) }] *)
Fixpoint upsert {V} (k : Z) (change : V → V) (fresh : V) (m : list (Z * V)) : list (Z * V) :=
  match m with
  | [] => [(k, fresh)]
  | (k', v) :: rest =>
      if decide (k' = k) then (k', change v) :: rest
      else (k', v) :: upsert k change fresh rest
  end.

Record FilialStat := mkFilialStat {
  stat_filial : NoteFilialInfo;
  stat_count : nat;
  stat_valor : float;
}.

(** [x || 0] on a number that may be missing: zero, NaN and a missing
    value give 0. *)
Definition orZero (x : option float) : float :=
  match x with
  | Some v => if PrimFloat.is_nan v || PrimFloat.is_zero v then 0%float else v
  | None => 0%float
  end.

Section Totals.
(** [data.totals?.vNF], a member of the payload that [NFeExtractResponse]
    does not keep, read through this accessor. *)
Variable vNF : NFeExtractResponse → option float.

Definition statsStep (stats : list (Z * FilialStat)) (note : ProcessedNote)
    : list (Z * FilialStat) :=
  match filial note with
  | None => stats
  | Some info =>
      let codigo := info_codigo info in
      let valor := orZero (vNF (data note)) in
      upsert codigo
        (λ current, {| stat_filial := stat_filial current;
                       stat_count := stat_count current + 1;
                       stat_valor := (stat_valor current + valor)%float |})
        {| stat_filial := info; stat_count := 1; stat_valor := valor |}
        stats
  end.

Definition getFilialStats (state : NotesStore) : list (Z * FilialStat) :=
  foldl statsStep [] (notes state).

(** The sum, from left to right, of the values of the notes after the
    first, onto the value of the first. *)
Definition valorOf (first : ProcessedNote) (rest : list ProcessedNote) : float :=
  foldl (λ acc n, (acc + orZero (vNF (data n)))%float) (orZero (vNF (data first))) rest.
End Totals.

(** ** app/page.tsx: statistics of the launched notes by unit *)

Record FilialLaunchedStat := mkFilialLaunchedStat {
  dash_filial : NoteFilialInfo;
  dash_count : nat;
  dash_valor : float;
  dash_fornecedores : list string;
}.

(** [if (fornecedor) set.add(fornecedor)] *)
Definition addFornecedor (fornecedor : string) (s : list string) : list string :=
  if decide (fornecedor ≠ EmptyString) then setAdd fornecedor s else s.

Section Dashboard.
Variable vNF : NFeExtractResponse → option float.

(** [note.data.emit?.doc || ""] *)
Definition fornecedorOf (note : ProcessedNote) : string :=
  default EmptyString (emit (data note) ≫= doc).

Definition launchedStep (m : list (Z * FilialLaunchedStat)) (note : ProcessedNote)
    : list (Z * FilialLaunchedStat) :=
  match filial note with
  | None => m
  | Some info =>
      let codigo := info_codigo info in
      let valor := orZero (vNF (data note)) in
      let fornecedor := fornecedorOf note in
      upsert codigo
        (λ current, {| dash_filial := dash_filial current;
                       dash_count := dash_count current + 1;
                       dash_valor := (dash_valor current + valor)%float;
                       dash_fornecedores := addFornecedor fornecedor (dash_fornecedores current) |})
        {| dash_filial := info; dash_count := 1; dash_valor := valor;
           dash_fornecedores := addFornecedor fornecedor [] |}
        m
  end.

(** [launchedNotes.forEach(...)] over the launched notes of the store. *)
Definition filialStatsMap (state : NotesStore) : list (Z * FilialLaunchedStat) :=
  foldl launchedStep [] (getLaunchedNotes state).

(** [new Set(filialStats.flatMap(s => Array.from(s.fornecedores))).size] *)
Definition totalFornecedores (state : NotesStore) : nat :=
  length (foldl (λ s x, setAdd x s) []
            (concat ((λ e, dash_fornecedores e.2) <$> filialStatsMap state))).
End Dashboard.

(** The fold that [statsStep] and [launchedStep] are instances of: a note
    either has no entry, or names a key, the change of the value found
    there and the fresh value put there. *)
Definition groupStep {N V} (entry : N → option (Z * (V → V) * V))
    (m : list (Z * V)) (n : N) : list (Z * V) :=
  match entry n with
  | None => m
  | Some (k, change, fresh) => upsert k change fresh m
  end.

Definition keyOf {N V} (entry : N → option (Z * (V → V) * V)) (n : N) : option Z :=
  (λ e, e.1.1) <$> entry n.

Definition afterAll {N V} (entry : N → option (Z * (V → V) * V))
    (first : N) (rest : list N) : option V :=
  foldl (λ ov n, match entry n with
                 | Some (_, change, _) => change <$> ov
                 | None => ov
                 end)
        ((λ e, e.2) <$> entry first) rest.

(** [statsStep] and [launchedStep] as instances of [groupStep]. *)
Definition statsEntry (vNF : NFeExtractResponse → option float) (note : ProcessedNote)
    : option (Z * (FilialStat → FilialStat) * FilialStat) :=
  match filial note with
  | None => None
  | Some info =>
      let valor := orZero (vNF (data note)) in
      Some (info_codigo info,
            λ current, {| stat_filial := stat_filial current;
                          stat_count := stat_count current + 1;
                          stat_valor := (stat_valor current + valor)%float |},
            {| stat_filial := info; stat_count := 1; stat_valor := valor |})
  end.

Definition launchedEntry (vNF : NFeExtractResponse → option float) (note : ProcessedNote)
    : option (Z * (FilialLaunchedStat → FilialLaunchedStat) * FilialLaunchedStat) :=
  match filial note with
  | None => None
  | Some info =>
      let valor := orZero (vNF (data note)) in
      let fornecedor := fornecedorOf note in
      Some (info_codigo info,
            λ current, {| dash_filial := dash_filial current;
                          dash_count := dash_count current + 1;
                          dash_valor := (dash_valor current + valor)%float;
                          dash_fornecedores :=
                            addFornecedor fornecedor (dash_fornecedores current) |},
            {| dash_filial := info; dash_count := 1; dash_valor := valor;
               dash_fornecedores := addFornecedor fornecedor [] |})
  end.

(** The suppliers of a list of notes, each once, in order of first
    appearance, a note without supplier adding none. *)
Definition fornecedoresOf (l : list ProcessedNote) : list string :=
  foldl (λ s n, addFornecedor (fornecedorOf n) s) [] l.

(** ** app/lancamento/page.tsx: the other handlers *)

(** [x || undefined] on a string. *)
Definition orUndefined (x : string) : option string :=
  if decide (x ≠ EmptyString) then Some x else None.

(** The tail of the launch and reject handlers: select the first pending
    note that has another id, if there is one. *)
Definition selectNextPending (processed : string) : Action unit :=
  state ← get;
  let pending := filter (λ n, note_id n ≠ processed) (getPendingNotes state) in
  match pending with
  | next :: _ => selectNote (Some (note_id next))
  | [] => mret tt
  end.

Section LancamentoHandlers.
Variable wallClock : nat → Date.

Definition handleMarkAsLaunched (page : LancamentoPage) : Action LancamentoPage :=
  state ← get;
  let selectedNote :=
    List.find (λ n, bool_decide (Some (note_id n) = selectedNoteId state)) (notes state) in
  match selectedNote with
  | Some selected =>
      markAsLaunched wallClock (note_id selected) None (orUndefined (launchNotes page));;
      selectNextPending (note_id selected);;
      mret {| rejectReason := rejectReason page; showRejectModal := showRejectModal page;
              launchNotes := EmptyString |}
  | None => mret page
  end.

Definition handleResetStatus : Action unit :=
  state ← get;
  let selectedNote :=
    List.find (λ n, bool_decide (Some (note_id n) = selectedNoteId state)) (notes state) in
  match selectedNote with
  | Some selected => resetLaunchStatus (note_id selected)
  | None => mret tt
  end.
End LancamentoHandlers.

(** The selection the launch and reject handlers leave. *)
Definition nextSelection (processed : string) (state : NotesStore) : option string :=
  match filter (λ n, note_id n ≠ processed) (getPendingNotes state) with
  | next :: _ => Some (note_id next)
  | [] => selectedNoteId state
  end.

(** ** lib/store.ts: the store of NFS-e

    The second store holds notes of another kind, with no launch record
    and no unit.  Its actions neither read the payload nor throw, so the
    payload is any type and an action is a function on the world of this
    store: its state and the counts of clock reads and id draws. *)

Record ProcessedNfse (Payload : Type) := mkProcessedNfse {
  nfse_id : string;
  nfse_filename : string;
  nfse_data : Payload;
  nfse_processedAt : Date;
}.
Arguments mkProcessedNfse {Payload} _ _ _ _.
Arguments nfse_id {Payload} _.
Arguments nfse_filename {Payload} _.
Arguments nfse_data {Payload} _.
Arguments nfse_processedAt {Payload} _.

Record NfseStore (Payload : Type) := mkNfseStore {
  nfseNotes : list (ProcessedNfse Payload);
  selectedNfseId : option string;
}.
Arguments mkNfseStore {Payload} _ _.
Arguments nfseNotes {Payload} _.
Arguments selectedNfseId {Payload} _.

Record NfseWorld (Payload : Type) := mkNfseWorld {
  nfseZustand : NfseStore Payload;
  nfseClockReads : nat;
  nfseIdDraws : nat;
}.
Arguments mkNfseWorld {Payload} _ _ _.
Arguments nfseZustand {Payload} _.
Arguments nfseClockReads {Payload} _.
Arguments nfseIdDraws {Payload} _.

Section NfseStoreActions.
Context {Payload : Type}.
Variable wallClock : nat → Date.
Variable randomId : nat → string.

(** The notes the [map] of [addNfseNotes] builds, an id drawn and the
    clock read for each entry in turn. *)
Fixpoint newNfseNotes (notesToAdd : list (string * Payload)) (draws reads : nat)
    : list (ProcessedNfse Payload) :=
  match notesToAdd with
  | [] => []
  | (filename, data) :: rest =>
      {| nfse_id := randomId draws; nfse_filename := filename; nfse_data := data;
         nfse_processedAt := wallClock reads |}
      :: newNfseNotes rest (S draws) (S reads)
  end.

Definition addNfse (filename : string) (data : Payload) (w : NfseWorld Payload)
    : NfseWorld Payload :=
  let note := {| nfse_id := randomId (nfseIdDraws w); nfse_filename := filename;
                 nfse_data := data; nfse_processedAt := wallClock (nfseClockReads w) |} in
  {| nfseZustand := {| nfseNotes := nfseNotes (nfseZustand w) ++ [note];
                       selectedNfseId := selectedNfseId (nfseZustand w) |};
     nfseClockReads := S (nfseClockReads w);
     nfseIdDraws := S (nfseIdDraws w) |}.

Definition addNfseNotes (notesToAdd : list (string * Payload)) (w : NfseWorld Payload)
    : NfseWorld Payload :=
  let newNotes := newNfseNotes notesToAdd (nfseIdDraws w) (nfseClockReads w) in
  {| nfseZustand := {| nfseNotes := nfseNotes (nfseZustand w) ++ newNotes;
                       selectedNfseId := selectedNfseId (nfseZustand w) |};
     nfseClockReads := nfseClockReads w + length notesToAdd;
     nfseIdDraws := nfseIdDraws w + length notesToAdd |}.
End NfseStoreActions.

Section NfseStoreReaders.
Context {Payload : Type}.

Definition removeNfse (id : string) (w : NfseWorld Payload) : NfseWorld Payload :=
  {| nfseZustand :=
       {| nfseNotes := filter (λ n, nfse_id n ≠ id) (nfseNotes (nfseZustand w));
          selectedNfseId := if decide (selectedNfseId (nfseZustand w) = Some id) then None
                            else selectedNfseId (nfseZustand w) |};
     nfseClockReads := nfseClockReads w;
     nfseIdDraws := nfseIdDraws w |}.

Definition clearNfseNotes (w : NfseWorld Payload) : NfseWorld Payload :=
  {| nfseZustand := {| nfseNotes := []; selectedNfseId := None |};
     nfseClockReads := nfseClockReads w;
     nfseIdDraws := nfseIdDraws w |}.

Definition selectNfse (id : option string) (w : NfseWorld Payload) : NfseWorld Payload :=
  {| nfseZustand := {| nfseNotes := nfseNotes (nfseZustand w); selectedNfseId := id |};
     nfseClockReads := nfseClockReads w;
     nfseIdDraws := nfseIdDraws w |}.

Definition getSelectedNfse (w : NfseWorld Payload) : option (ProcessedNfse Payload) :=
  List.find (λ n, bool_decide (Some (nfse_id n) = selectedNfseId (nfseZustand w)))
    (nfseNotes (nfseZustand w)).
End NfseStoreReaders.

(** ** app/lancamento/page.tsx: the filtered list and the automatic selection *)

Inductive StatusFilter := FilterAll | FilterPending | FilterLaunched | FilterRejected.

Definition filteredNotes (statusFilter : StatusFilter) (state : NotesStore)
    : list ProcessedNote :=
  match statusFilter with
  | FilterPending => getPendingNotes state
  | FilterLaunched => getLaunchedNotes state
  | FilterRejected => getRejectedNotes state
  | FilterAll => notes state
  end.

(** [if (!selectedNote && filteredNotes.length > 0) {
       selectNote(filteredNotes[0].id); return null; }]:
    the result tells whether the page selected a note and gave up this
    rendering. *)
Definition autoSelect (statusFilter : StatusFilter) : Action bool :=
  state ← get;
  let selectedNote :=
    List.find (λ n, bool_decide (Some (note_id n) = selectedNoteId state)) (notes state) in
  match selectedNote, filteredNotes statusFilter state with
  | None, next :: _ => selectNote (Some (note_id next));; mret true
  | _, _ => mret false
  end.

(** * Properties *)

(** ** The CNPJ index *)

Section IndexFacts.
Variable catalog : list Filial.

Lemma lookup_indexStep m f k :
  indexStep m f !! k = if decide (admitted f ∧ cnpj f = k) then Some f else m !! k.
Proof.
  unfold indexStep.
  destruct (decide (admitted f)) as [Ha|Ha].
  - destruct (decide (cnpj f = k)) as [->|Hk].
    + rewrite lookup_insert_eq. rewrite decide_True; auto.
    + rewrite lookup_insert_ne by done. rewrite decide_False; [done|tauto].
  - rewrite decide_False; [done|tauto].
Qed.

(** The index answers with the last admitted unit carrying the key. *)
Lemma lookup_buildIndex k : buildIndex catalog !! k = last (claimants catalog k).
Proof.
  unfold buildIndex, claimants.
  induction catalog as [|f l IH] using rev_ind; [done|].
  rewrite foldl_app, filter_app. simpl.
  rewrite lookup_indexStep, IH, filter_cons, filter_nil.
  destruct (decide (admitted f ∧ cnpj f = k)).
  - by rewrite last_snoc.
  - by rewrite app_nil_r.
Qed.

Lemma buildIndex_Some k f :
  buildIndex catalog !! k = Some f → f ∈ catalog ∧ admitted f ∧ cnpj f = k.
Proof.
  rewrite lookup_buildIndex. intros Hl.
  apply last_Some_elem_of in Hl.
  apply list_elem_of_filter in Hl. tauto.
Qed.

Lemma buildIndex_None k :
  (∀ f, f ∈ catalog → cnpj f ≠ k) → buildIndex catalog !! k = None.
Proof.
  intros Hno. destruct (buildIndex catalog !! k) as [f|] eqn:E; [|done].
  apply buildIndex_Some in E as (Hin & _ & Hk). by destruct (Hno f Hin).
Qed.

Lemma buildIndex_is_Some k f :
  f ∈ catalog → admitted f → cnpj f = k → is_Some (buildIndex catalog !! k).
Proof.
  intros Hin Ha Hk. rewrite lookup_buildIndex.
  destruct (claimants catalog k) as [|g l] eqn:E using rev_ind.
  - assert (f ∈ claimants catalog k) as Hf by (apply list_elem_of_filter; auto).
    rewrite E in Hf. by apply elem_of_nil in Hf.
  - rewrite last_snoc. eauto.
Qed.

(** Whatever the order of the catalog, the headquarters' key leads to a
    unit of code 1 as soon as one carries it. *)
Lemma buildIndex_matriz hq :
  hq ∈ catalog → codigo hq = 1 → cnpj hq = CNPJ_MATRIZ →
  ∃ f, buildIndex catalog !! CNPJ_MATRIZ = Some f ∧ f ∈ catalog ∧ codigo f = 1.
Proof.
  intros Hin Hc Hk.
  destruct (buildIndex_is_Some CNPJ_MATRIZ hq) as [f Hf]; auto.
  { by right. }
  exists f. split; [done|].
  apply buildIndex_Some in Hf as (Hfin & [Hne|Hone] & Hfk); [done|auto].
Qed.

(** A key carried by one unit only leads to that unit, provided the unit
    is admitted. *)
Lemma buildIndex_unique f :
  f ∈ catalog → admitted f →
  (∀ g, g ∈ catalog → cnpj g = cnpj f → g = f) →
  buildIndex catalog !! cnpj f = Some f.
Proof.
  intros Hin Ha Huniq.
  destruct (buildIndex_is_Some (cnpj f) f) as [g Hg]; auto.
  rewrite Hg. f_equal.
  apply buildIndex_Some in Hg as (Hgin & _ & Hgk). auto.
Qed.

Lemma findMatriz_Some f :
  findMatriz catalog = Some f → f ∈ catalog ∧ codigo f = 1.
Proof.
  unfold findMatriz. intros Hf. apply find_some in Hf as [Hin Hc].
  apply bool_decide_eq_true in Hc. split; [by apply list_elem_of_In|done].
Qed.

Lemma findMatriz_None :
  findMatriz catalog = None ↔ ∀ f, f ∈ catalog → codigo f ≠ 1.
Proof.
  unfold findMatriz. split.
  - intros Hnone f Hin Hc.
    apply list_elem_of_In in Hin.
    pose proof (find_none _ _ Hnone f Hin) as Hb. simpl in Hb.
    apply bool_decide_eq_false in Hb. done.
  - intros Hno. destruct (find _ catalog) as [f|] eqn:E; [|done].
    apply find_some in E as [Hin Hc]. apply bool_decide_eq_true in Hc.
    apply list_elem_of_In in Hin. by destruct (Hno f Hin).
Qed.

(** [find] returns the first unit of code 1: the units before it in the
    catalog have other codes. *)
Lemma findMatriz_first f :
  findMatriz catalog = Some f ↔
  ∃ before after,
    catalog = (before ++ f :: after)%list
    ∧ codigo f = 1 ∧ Forall (λ g, codigo g ≠ 1) before.
Proof.
  unfold findMatriz. induction catalog as [|g l IH]; simpl.
  - split; [done|]. intros (before & after & Heq & _). by destruct before.
  - case_bool_decide as Hg.
    + split.
      * intros [= ->]. exists [], l. by repeat split.
      * intros (before & after & Heq & Hf & Hb).
        destruct before as [|g' before]; simpl in Heq; injection Heq as -> ->; [done|].
        by apply Forall_cons in Hb as [? _].
    + rewrite IH. split.
      * intros (before & after & -> & Hf & Hb).
        exists (g :: before), after. repeat split; [done|by constructor].
      * intros (before & after & Heq & Hf & Hb).
        destruct before as [|g' before]; simpl in Heq; injection Heq as -> ->; [done|].
        apply Forall_cons in Hb as [_ Hb]. by exists before, after.
Qed.
End IndexFacts.

Lemma FILIAIS_matriz_elem : IGH_MATRIZ ∈ FILIAIS.
Proof. apply list_elem_of_here. Qed.

Lemma FILIAIS_code_1 f : f ∈ FILIAIS → codigo f = 1 → f = IGH_MATRIZ.
Proof.
  assert (Forall (λ f, codigo f = 1 → f = IGH_MATRIZ) FILIAIS) as H.
  { apply (bool_decide_unpack _). vm_compute. exact I. }
  rewrite Forall_forall in H. apply H.
Qed.

Lemma FILIAIS_cnpj_nonempty f : f ∈ FILIAIS → cnpj f ≠ EmptyString.
Proof.
  assert (Forall (λ f, cnpj f ≠ EmptyString) FILIAIS) as H.
  { apply (bool_decide_unpack _). vm_compute. exact I. }
  rewrite Forall_forall in H. apply H.
Qed.

Lemma getMatriz_eq : getMatriz = Some IGH_MATRIZ.
Proof. reflexivity. Qed.

Lemma lookupCnpj_nonempty index t :
  normalizeCnpj t ≠ EmptyString → lookupCnpj index t = index !! normalizeCnpj t.
Proof. intros H. unfold lookupCnpj. by rewrite decide_False. Qed.

(** The code's test for a digit picks the ten decimal digits. *)
Lemma is_digit_decimal c : is_digit c = bool_decide (c ∈ decimalDigits).
Proof. by destruct c as [[] [] [] [] [] [] [] []]. Qed.

(** The code's normalization computes the normalized form of the
    specification. *)
Lemma normalizeCnpj_digitsOf t : normalizeCnpj t = digitsOf t.
Proof.
  unfold digitsOf. destruct t as [s|]; simpl; [|done].
  case_decide as Hs; [by subst|]. clear Hs.
  induction s as [|c s IH]; [done|].
  simpl. rewrite filter_cons, is_digit_decimal.
  destruct (decide (c ∈ decimalDigits)) as [Hc|Hc].
  - rewrite bool_decide_eq_true_2 by done. simpl. by rewrite IH.
  - by rewrite bool_decide_eq_false_2.
Qed.

(** Each unit of the catalog is reached by its own tax id, written raw or
    punctuated, unless it shares the headquarters' id, which leads to the
    headquarters. *)
Lemma FILIAIS_resolve_own :
  Forall (λ f, getFilialByCnpj (Some (cnpj f))
               = Some (if decide (cnpj f = CNPJ_MATRIZ) then IGH_MATRIZ else f)
               ∧ getFilialByCnpj (Some (cnpjFormatado f)) = getFilialByCnpj (Some (cnpj f)))
    FILIAIS.
Proof. apply (bool_decide_unpack _). vm_compute. exact I. Qed.

(** C1: for every tax id string, with its normalized form taken as the
    specification defines it (the digits of the string): a normalized form
    equal to the headquarters' tax id resolves to the headquarters unit
    (code 1, the unit [getMatriz] returns) and to no other unit sharing
    that id; a normalized form that is the tax id of exactly one unit
    resolves to that unit; a normalized form that no cataloged unit carries
    resolves to null.  In particular every unit of the catalog is reached
    by its own id, raw or punctuated, unless it shares the headquarters'
    id, which reaches the headquarters. *)
Theorem getFilialByCnpj_precedence (t : option string) :
  (digitsOf t = CNPJ_MATRIZ →
     getFilialByCnpj t = Some IGH_MATRIZ ∧ getMatriz = Some IGH_MATRIZ
     ∧ codigo IGH_MATRIZ = 1 ∧ tipo IGH_MATRIZ = TipoMatriz)
  ∧ (∀ f, f ∈ FILIAIS → cnpj f = digitsOf t →
       (∀ g, g ∈ FILIAIS → cnpj g = digitsOf t → g = f) →
       getFilialByCnpj t = Some f)
  ∧ ((∀ f, f ∈ FILIAIS → cnpj f ≠ digitsOf t) → getFilialByCnpj t = None)
  ∧ Forall (λ f, getFilialByCnpj (Some (cnpj f))
                 = Some (if decide (cnpj f = CNPJ_MATRIZ) then IGH_MATRIZ else f)
                 ∧ getFilialByCnpj (Some (cnpjFormatado f)) = getFilialByCnpj (Some (cnpj f)))
      FILIAIS.
Proof.
  rewrite <- normalizeCnpj_digitsOf.
  unfold getFilialByCnpj, cnpjToFilialMap. repeat split.
  - rewrite lookupCnpj_nonempty by (rewrite H; discriminate).
    rewrite H.
    destruct (buildIndex_matriz FILIAIS IGH_MATRIZ) as (f & Hf & Hin & Hc);
      [apply FILIAIS_matriz_elem|done|done|].
    rewrite Hf. f_equal. by apply FILIAIS_code_1.
  - intros f Hin Hk Huniq.
    rewrite lookupCnpj_nonempty by (rewrite <- Hk; by apply FILIAIS_cnpj_nonempty).
    rewrite <- Hk. apply buildIndex_unique; [done| |].
    + destruct (decide (cnpj f = CNPJ_MATRIZ)) as [Hm|Hm]; [|by left].
      right. rewrite <- (Huniq IGH_MATRIZ); [done|apply FILIAIS_matriz_elem|].
      by rewrite <- Hk, Hm.
    + intros g Hg Hgk. apply Huniq; [done|]. by rewrite Hgk.
  - intros Hno. unfold lookupCnpj. case_decide; [done|].
    by apply buildIndex_None.
  - apply FILIAIS_resolve_own.
Qed.

(** The scenario of three units, two of them sharing the headquarters'
    id: the headquarters wins wherever it stands in the catalog. *)
Example shared_id_goes_to_headquarters :
  let A := mkFilial 1 "A" CNPJ_MATRIZ "11.858.570/0001-33" "Salvador" "BA" TipoMatriz in
  let B := mkFilial 11 "B" CNPJ_MATRIZ "11.858.570/0001-33" "Macacu" "RJ" TipoFilial in
  let C := mkFilial 2 "C" "11858570000303" "11.858.570/0003-03" "Capim Grosso" "BA" TipoHospital in
  Forall (λ catalog,
            lookupCnpj (buildIndex catalog) (Some "11.858.570/0001-33") = Some A
            ∧ lookupCnpj (buildIndex catalog) (Some "11858570000303") = Some C
            ∧ lookupCnpj (buildIndex catalog) (Some "00000000000000") = None)
    [[A; B; C]; [B; A; C]; [C; B; A]; [B; C; A]].
Proof. repeat constructor; vm_compute; reflexivity. Qed.

Example normalizeCnpj_samples :
  normalizeCnpj (Some "11.858.570/0001-33") = "11858570000133"
  ∧ normalizeCnpj None = EmptyString
  ∧ normalizeCnpj (Some "sem cnpj") = EmptyString.
Proof. by repeat split. Qed.

(** C5, as the code has it: the compiled-in catalog has exactly one unit of
    type matriz, the unit of code 1, and [getMatriz] returns it.  Nothing
    checks this when the module is loaded: for every catalog the index is
    built and the load returns normally, and the headquarters lookup
    returns the first unit of code 1 (the units that precede it in the
    catalog have other codes), or undefined when there is none. *)
Theorem headquarters_unique_but_unchecked :
  headquartersCount FILIAIS = 1%nat
  ∧ getMatriz = Some IGH_MATRIZ
  ∧ codigo IGH_MATRIZ = 1 ∧ tipo IGH_MATRIZ = TipoMatriz
  ∧ (∀ f, f ∈ FILIAIS → tipo f = TipoMatriz ∨ codigo f = 1 → f = IGH_MATRIZ)
  ∧ (∀ catalog,
       loadFiliais catalog = Normal (buildIndex catalog)
       ∧ (∀ f, findMatriz catalog = Some f ↔
               ∃ before after,
                 catalog = (before ++ f :: after)%list
                 ∧ codigo f = 1 ∧ Forall (λ g, codigo g ≠ 1) before)
       ∧ (findMatriz catalog = None ↔ ∀ f, f ∈ catalog → codigo f ≠ 1)).
Proof.
  split; [reflexivity|]. split; [reflexivity|]. split; [reflexivity|].
  split; [reflexivity|]. split.
  - assert (Forall (λ f, tipo f = TipoMatriz ∨ codigo f = 1 → f = IGH_MATRIZ) FILIAIS) as H.
    { apply (bool_decide_unpack _). vm_compute. exact I. }
    rewrite Forall_forall in H. exact H.
  - intros catalog. split; [reflexivity|]. split.
    + apply findMatriz_first.
    + apply findMatriz_None.
Qed.

(** Counterexample to C5 as written: a catalog without headquarters unit
    (the compiled-in one less its first entry) and catalogs with two
    different headquarters units of code 1 all load normally; the first has
    no headquarters to return, the others return whichever of the two
    units stands first. *)
Lemma load_accepts_any_headquarters_count :
  let none := tail FILIAIS in
  let second :=
    mkFilial 1 "IGH - SEGUNDA MATRIZ" "11858570009999" "11.858.570/0099-99"
      "Salvador" "BA" TipoMatriz in
  let two := (FILIAIS ++ [second])%list in
  let two' := second :: FILIAIS in
  headquartersCount none = 0%nat
  ∧ loadFiliais none = Normal (buildIndex none)
  ∧ loadFiliais none ≠ Throw ConfigurationInvariantViolation
  ∧ findMatriz none = None
  ∧ second ≠ IGH_MATRIZ
  ∧ headquartersCount two = 2%nat
  ∧ loadFiliais two = Normal (buildIndex two)
  ∧ loadFiliais two ≠ Throw ConfigurationInvariantViolation
  ∧ findMatriz two = Some IGH_MATRIZ
  ∧ headquartersCount two' = 2%nat
  ∧ loadFiliais two' = Normal (buildIndex two')
  ∧ loadFiliais two' ≠ Throw ConfigurationInvariantViolation
  ∧ findMatriz two' = Some second.
Proof. by repeat split. Qed.

(** ** The store *)

Lemma Forall2_transfer {A B} (R : A → B → Prop) (Q : B → Prop) l l' :
  Forall2 R l l' → (∀ x y, x ∈ l → R x y → Q y) → Forall Q l'.
Proof.
  induction 1 as [|x y l l' HR _ IH]; intros HQ; constructor.
  - apply (HQ x y); [apply list_elem_of_here|done].
  - apply IH. intros x' y' Hin. apply HQ. by apply list_elem_of_further.
Qed.

Section StoreFacts.
Variable wallClock : nat → Date.
Variable randomId : nat → string.

Lemma launchNote_step operatorName notes :
  noteStep (launchNote wallClock operatorName notes)
    (λ n n', ∃ now, n' = withLaunchInfo n (launchedInfo (launchInfo n) now operatorName notes)).
Proof. intros n w. eexists _, _. repeat split; eauto. Qed.

Lemma rejectNote_step reason operatorName :
  noteStep (rejectNote wallClock reason operatorName)
    (λ n n', ∃ now, n' = withLaunchInfo n (rejectedInfo (launchInfo n) now reason operatorName)).
Proof. intros n w. eexists _, _. repeat split; eauto. Qed.

Lemma resetNote_step :
  noteStep resetNote (λ n n', n' = withLaunchInfo n pendingInfo).
Proof. intros n w. eexists _, _. repeat split; eauto. Qed.

Lemma bind_run {A B} (m : Action A) (k : A → Action B) w :
  (m ≫= k) w = match m w with Normal (a, w') => k a w' | Throw e => Throw e end.
Proof. reflexivity. Qed.

Lemma mapM_cons_Action {A B} (f : A → Action B) x l w :
  mapM (M:=Action) f (x :: l) w =
    match f x w with
    | Normal (y, w1) =>
        match mapM (M:=Action) f l w1 with
        | Normal (k, w2) => Normal (y :: k, w2)
        | Throw e => Throw e
        end
    | Throw e => Throw e
    end.
Proof.
  simpl. unfold mbind, Action_bind. destruct (f x w) as [[y w1]|e]; [|done].
  destruct (mapM f l w1) as [[k w2]|e]; done.
Qed.

(** Mapping over notes none of which has the id changes nothing, not
    even the count of clock reads. *)
Lemma mapM_unmatched id f l w :
  (∀ n, n ∈ l → note_id n ≠ id) →
  mapM (M:=Action) (λ n, if decide (note_id n = id) then f n else mret n) l w = Normal (l, w).
Proof.
  revert w. induction l as [|n l IH]; intros w Hno; [done|].
  rewrite mapM_cons_Action.
  rewrite decide_False by (apply Hno, list_elem_of_here).
  change (mret (M:=Action) n w) with (Normal (n, w)). cbv beta iota.
  rewrite IH; [done|]. intros n' Hn'. apply Hno. by apply list_elem_of_further.
Qed.

Lemma mapM_matching id f R l w :
  noteStep f R →
  ∃ l' w',
    mapM (M:=Action) (λ n, if decide (note_id n = id) then f n else mret n) l w = Normal (l', w')
    ∧ zustand w' = zustand w ∧ idDraws w' = idDraws w
    ∧ Forall2 (λ n n', if decide (note_id n = id) then R n n' else n' = n) l l'.
Proof.
  intros Hf. revert w. induction l as [|n l IH]; intros w.
  - exists [], w. repeat split. constructor.
  - rewrite mapM_cons_Action.
    destruct (decide (note_id n = id)) as [Hid|Hid].
    + destruct (Hf n w) as (n' & w1 & -> & Hz & Hd & HR). cbv beta iota.
      destruct (IH w1) as (l' & w2 & -> & Hz2 & Hd2 & HF).
      exists (n' :: l'), w2. repeat split; [congruence..|].
      constructor; [by rewrite decide_True|done].
    + change (mret (M:=Action) n w) with (Normal (n, w)). cbv beta iota.
      destruct (IH w) as (l' & w2 & -> & Hz2 & Hd2 & HF).
      exists (n :: l'), w2. repeat split; [done..|].
      constructor; [by rewrite decide_False|done].
Qed.

Lemma mapMatching_spec id f R w :
  noteStep f R →
  ∃ w',
    mapMatching id f w = Normal (tt, w')
    ∧ selectedNoteId (zustand w') = selectedNoteId (zustand w)
    ∧ idDraws w' = idDraws w
    ∧ Forall2 (λ n n', if decide (note_id n = id) then R n n' else n' = n)
        (notes (zustand w)) (notes (zustand w')).
Proof.
  intros Hf. unfold mapMatching, set.
  destruct (mapM_matching id f R (notes (zustand w)) w Hf) as (l' & w1 & Hm & Hz & Hd & HF).
  rewrite bind_run, Hm. simpl.
  eexists. repeat split; simpl; done.
Qed.

Lemma mapMatching_unmatched id f w :
  (∀ n, n ∈ notes (zustand w) → note_id n ≠ id) →
  mapMatching id f w = Normal (tt, w).
Proof.
  intros Hno. unfold mapMatching, set.
  rewrite bind_run, mapM_unmatched by done. simpl.
  by destruct w as [[??] ??].
Qed.

(** *** Ingestion *)

Lemma newNote_run fname payload w :
  newNote wallClock randomId fname payload w =
    Normal (ingested wallClock randomId (idDraws w) (clockReads w) 0 (fname, payload),
            {| zustand := zustand w; clockReads := S (clockReads w); idDraws := S (idDraws w) |}).
Proof.
  unfold newNote, ingested. rewrite !bind_run. simpl.
  by rewrite !Nat.add_0_r.
Qed.

Lemma mapM_newNote entries w :
  mapM (M:=Action) (λ e, newNote wallClock randomId e.1 e.2) entries w =
    Normal (imap (ingested wallClock randomId (idDraws w) (clockReads w)) entries,
            {| zustand := zustand w;
               clockReads := clockReads w + length entries;
               idDraws := idDraws w + length entries |}).
Proof.
  revert w. induction entries as [|e entries IH]; intros w.
  - simpl. rewrite !Nat.add_0_r. by destruct w.
  - rewrite mapM_cons_Action, newNote_run, IH. simpl.
    rewrite <- !Nat.add_succ_comm. do 2 f_equal.
    destruct e as [fname payload]. f_equal.
    apply imap_ext. intros i e' _. unfold ingested. simpl.
    by rewrite <- !Nat.add_succ_comm.
Qed.

Lemma addNote_run fname payload w :
  addNote wallClock randomId fname payload w =
    Normal (tt,
      {| zustand :=
           {| notes := notes (zustand w)
                       ++ [ingested wallClock randomId (idDraws w) (clockReads w) 0 (fname, payload)];
              selectedNoteId := selectedNoteId (zustand w) |};
         clockReads := S (clockReads w);
         idDraws := S (idDraws w) |}).
Proof. unfold addNote. by rewrite bind_run, newNote_run. Qed.

Lemma addNotes_run entries w :
  addNotes wallClock randomId entries w =
    Normal (tt,
      {| zustand :=
           {| notes := notes (zustand w)
                       ++ imap (ingested wallClock randomId (idDraws w) (clockReads w)) entries;
              selectedNoteId := selectedNoteId (zustand w) |};
         clockReads := clockReads w + length entries;
         idDraws := idDraws w + length entries |}).
Proof. unfold addNotes. by rewrite bind_run, mapM_newNote. Qed.

Lemma ingested_consistent draws reads i e :
  lifecycleConsistent (ingested wallClock randomId draws reads i e).
Proof. exists pendingInfo. split; [done|]. by repeat split. Qed.

(** *** Transitions keep what is not the launch record *)

Lemma frame_withLaunchInfo n li : frame (withLaunchInfo n li) = frame n.
Proof. reflexivity. Qed.

Lemma mapMatching_frame id f R w :
  noteStep f R → (∀ n n', R n n' → frame n' = frame n) →
  ∃ w', mapMatching id f w = Normal (tt, w')
        ∧ frame <$> notes (zustand w') = frame <$> notes (zustand w).
Proof.
  intros Hf HR.
  destruct (mapMatching_spec id f R w Hf) as (w' & Hrun & _ & _ & HF).
  exists w'. split; [done|].
  induction HF as [|n n' l l' Hn _ IH]; [done|].
  simpl. f_equal; [|done].
  destruct (decide (note_id n = id)); [by apply HR|by subst].
Qed.

Lemma lifecycleCall_frame op w :
  ∃ w', runOp wallClock randomId (lifecycleCall op) w = Normal (tt, w')
        ∧ frame <$> notes (zustand w') = frame <$> notes (zustand w).
Proof.
  destruct op as [id who obs|id reason who|id]; simpl.
  - eapply mapMatching_frame; [apply launchNote_step|]. by intros n n' [now ->].
  - eapply mapMatching_frame; [apply rejectNote_step|]. by intros n n' [now ->].
  - eapply mapMatching_frame; [apply resetNote_step|]. by intros n n' ->.
Qed.

(** *** Transitions along the edges keep the launch record consistent *)

Lemma launchedInfo_consistent n now who obs :
  lifecycleConsistent n → ¬ hasStatus rejected n →
  lifecycleConsistent (withLaunchInfo n (launchedInfo (launchInfo n) now who obs)).
Proof.
  intros (li & Hli & Hok) Hnr. eexists. split; [done|].
  unfold hasStatus in Hnr. rewrite Hli in *. simpl in *.
  unfold fieldsMatchStatus in *. simpl.
  destruct (status li); [| |done]; destruct_and!; repeat split; eauto.
Qed.

Lemma rejectedInfo_consistent n now reason who :
  lifecycleConsistent n → ¬ hasStatus launched n →
  lifecycleConsistent (withLaunchInfo n (rejectedInfo (launchInfo n) now reason who)).
Proof.
  intros (li & Hli & Hok) Hnl. eexists. split; [done|].
  unfold hasStatus in Hnl. rewrite Hli in *. simpl in *.
  unfold fieldsMatchStatus in *. simpl.
  destruct (status li); [|done|]; destruct_and!; repeat split; eauto.
Qed.

Lemma pendingInfo_consistent n : lifecycleConsistent (withLaunchInfo n pendingInfo).
Proof. exists pendingInfo. split; [done|]. by repeat split. Qed.

Lemma mapMatching_consistent id f R w w' :
  noteStep f R →
  (∀ n n', n ∈ notes (zustand w) → note_id n = id → lifecycleConsistent n →
           R n n' → lifecycleConsistent n') →
  Forall lifecycleConsistent (notes (zustand w)) →
  mapMatching id f w = Normal (tt, w') →
  Forall lifecycleConsistent (notes (zustand w')).
Proof.
  intros Hf HR Hall Hrun.
  destruct (mapMatching_spec id f R w Hf) as (w'' & Hrun' & _ & _ & HF).
  rewrite Hrun in Hrun'. injection Hrun' as <-.
  eapply Forall2_transfer; [exact HF|]. simpl.
  intros n n' Hin Hn.
  assert (lifecycleConsistent n) as Hc by (rewrite Forall_forall in Hall; auto).
  destruct (decide (note_id n = id)); [by eapply HR|by subst].
Qed.

Lemma runOp_consistent op w w' :
  followsEdges (zustand w) op →
  Forall lifecycleConsistent (notes (zustand w)) →
  runOp wallClock randomId op w = Normal (tt, w') →
  Forall lifecycleConsistent (notes (zustand w')).
Proof.
  intros Hedge Hall.
  destruct op as [fname payload|entries|id| |sel|id who obs|id reason who|id]; simpl.
  - rewrite addNote_run. intros [= <-]. simpl.
    apply Forall_app. split; [done|]. repeat constructor. apply ingested_consistent.
  - rewrite addNotes_run. intros [= <-]. simpl.
    apply Forall_app. split; [done|].
    apply Forall_forall. intros n Hn.
    apply list_elem_of_lookup in Hn as [i Hn].
    apply list_lookup_imap_Some in Hn as (e & _ & ->). apply ingested_consistent.
  - intros [= <-]. simpl. rewrite Forall_forall in Hall. apply Forall_forall.
    intros n [_ Hn]%list_elem_of_filter. auto.
  - intros [= <-]. simpl. constructor.
  - intros [= <-]. simpl. done.
  - apply mapMatching_consistent with (R := λ n n', ∃ now,
      n' = withLaunchInfo n (launchedInfo (launchInfo n) now who obs));
      [apply launchNote_step| |done].
    intros n n' Hin Hid Hc [now ->]. apply launchedInfo_consistent; [done|].
    by apply (Hedge n).
  - apply mapMatching_consistent with (R := λ n n', ∃ now,
      n' = withLaunchInfo n (rejectedInfo (launchInfo n) now reason who));
      [apply rejectNote_step| |done].
    intros n n' Hin Hid Hc [now ->]. apply rejectedInfo_consistent; [done|].
    by apply (Hedge n).
  - apply mapMatching_consistent with (R := λ n n', n' = withLaunchInfo n pendingInfo);
      [apply resetNote_step| |done].
    intros n n' _ _ _ ->. apply pendingInfo_consistent.
Qed.

(** *** Whatever the calls, a record has the members of its own status *)

Lemma mapMatching_Forall (P : ProcessedNote → Prop) id f R w :
  noteStep f R → (∀ n n', P n → R n n' → P n') →
  Forall P (notes (zustand w)) →
  ∃ w', mapMatching id f w = Normal (tt, w') ∧ Forall P (notes (zustand w')).
Proof.
  intros Hf HR Hall.
  destruct (mapMatching_spec id f R w Hf) as (w' & Hrun & _ & _ & HF).
  exists w'. split; [done|].
  eapply Forall2_transfer; [exact HF|]. simpl. intros n n' Hin Hn.
  assert (P n) as HP by (rewrite Forall_forall in Hall; auto).
  destruct (decide (note_id n = id)); [by eapply HR|by subst].
Qed.

Lemma runOp_statusMembers op w :
  Forall statusMembersSet (notes (zustand w)) →
  ∃ w', runOp wallClock randomId op w = Normal (tt, w')
        ∧ Forall statusMembersSet (notes (zustand w')).
Proof.
  intros Hall.
  assert (∀ d r i e, statusMembersSet (ingested wallClock randomId d r i e)) as Hnew.
  { intros. exists pendingInfo. split; [done|]. by repeat split. }
  destruct op as [fname payload|entries|id| |sel|id who obs|id reason who|id]; simpl.
  - rewrite addNote_run. eexists. split; [done|]. simpl.
    apply Forall_app. split; [done|]. by repeat constructor.
  - rewrite addNotes_run. eexists. split; [done|]. simpl.
    apply Forall_app. split; [done|]. apply Forall_forall. intros n Hn.
    apply list_elem_of_lookup in Hn as [i Hn].
    by apply list_lookup_imap_Some in Hn as (e & _ & ->).
  - eexists. split; [done|]. simpl. rewrite Forall_forall in Hall.
    apply Forall_forall. intros n [_ Hn]%list_elem_of_filter. auto.
  - eexists. split; [done|]. constructor.
  - eexists. split; [done|]. done.
  - eapply mapMatching_Forall; [apply launchNote_step| |done].
    intros n n' _ [now ->]. eexists. split; [done|].
    unfold ownMembersSet. simpl. eauto.
  - eapply mapMatching_Forall; [apply rejectNote_step| |done].
    intros n n' _ [now ->]. eexists. split; [done|].
    unfold ownMembersSet. simpl. eauto.
  - eapply mapMatching_Forall; [apply resetNote_step| |done].
    intros n n' _ ->. exists pendingInfo. split; [done|]. by repeat split.
Qed.

Lemma runOps_statusMembers ops w :
  Forall statusMembersSet (notes (zustand w)) →
  ∃ w', runOps wallClock randomId ops w = Normal (tt, w')
        ∧ Forall statusMembersSet (notes (zustand w')).
Proof.
  revert w. induction ops as [|op ops IH]; intros w Hall.
  - by exists w.
  - destruct (runOp_statusMembers op w Hall) as (w1 & Hrun & Hall1).
    destruct (IH w1 Hall1) as (w2 & Hrun2 & Hall2).
    exists w2. split; [|done]. simpl. by rewrite bind_run, Hrun.
Qed.
End StoreFacts.

(** ** White space *)

#[local] Arguments whiteSpaceLength : simpl never.

Lemma trimStartAfter_blank k s : blankAfter k s = true → trimStartAfter k s = EmptyString.
Proof.
  revert k. induction s as [|c s IH]; intros k; [done|].
  simpl. destruct k as [|k]; [|apply IH].
  destruct (whiteSpaceLength (String c s)); [done|apply IH].
Qed.

Lemma blank_trimStartAfter k s : trimStartAfter k s = EmptyString → blankAfter k s = true.
Proof.
  revert k. induction s as [|c s IH]; intros k; [done|].
  simpl. destruct k as [|k]; [|apply IH].
  destruct (whiteSpaceLength (String c s)); [done|apply IH].
Qed.

Lemma trim_blank s : blank s = true → trim s = EmptyString.
Proof. intros H. unfold trim. by rewrite trimStartAfter_blank. Qed.

Lemma trimEnd_empty s : trimEnd s = EmptyString → blank s = true.
Proof. destruct s as [|c s]; [done|]. simpl. by destruct (blank (String c s)). Qed.

Lemma trimStartAfter_head s :
  trimStartAfter 0 s = EmptyString ∨ whiteSpaceLength (trimStartAfter 0 s) = 0%nat.
Proof.
  assert (∀ k, trimStartAfter k s = EmptyString
               ∨ whiteSpaceLength (trimStartAfter k s) = 0%nat) as H; [|apply H].
  induction s as [|c s IH]; intros k; [by left|].
  simpl. destruct k as [|k]; [|apply IH].
  destruct (whiteSpaceLength (String c s)) eqn:E; [by right|apply IH].
Qed.

(** [trim] leaves nothing exactly of the strings made of white space. *)
Lemma trim_empty_iff s : trim s = EmptyString ↔ blank s = true.
Proof.
  split; [|apply trim_blank].
  unfold trim. intros H. apply blank_trimStartAfter.
  destruct (trimStartAfter_head s) as [E|E]; [done|].
  apply trimEnd_empty in H.
  destruct (trimStartAfter 0 s) as [|c r] eqn:Et; [done|].
  unfold blank in H. simpl in H. simpl in E. by rewrite E in H.
Qed.

(** ** The claims about the ledger *)

(** C2, as the code has it.  After every sequence of calls of the store's
    actions, from the empty store, every note has a launch record with the
    members of its own status: a pending note has none of the launch and
    rejection members, a launched note has its time of launch, a rejected
    note its time and reason of rejection (the operator and the launch note
    are optional arguments and may be absent).  That the members of the
    other status are absent holds in the worlds reached by calls that
    follow the edges of the state machine (no launch of a rejected note, no
    rejection of a launched one): there every note carries exactly the
    members of its status. *)
Theorem reachable_notes_consistent wallClock randomId :
  (∀ ops, ∃ w,
     runOps wallClock randomId ops initialWorld = Normal (tt, w)
     ∧ Forall statusMembersSet (notes (zustand w)))
  ∧ (∀ w n, reachable wallClock randomId w →
            n ∈ notes (zustand w) → lifecycleConsistent n).
Proof.
  split.
  - intros ops. apply runOps_statusMembers. constructor.
  - intros w n Hreach.
    assert (Forall lifecycleConsistent (notes (zustand w))) as Hall.
    { induction Hreach as [|w op w' _ IH Hedge Hrun]; [constructor|].
      by eapply runOp_consistent. }
    rewrite Forall_forall in Hall. apply Hall.
Qed.

(** Counterexample to C2 as written.  Rejecting a note and then launching
    it, with no reset in between, leaves a launched note that still carries
    the three rejection members; and a launch without operator and note,
    the only one the page makes, leaves a launched note without
    [launchedBy] and [notes]. *)
Lemma launch_after_reject_keeps_rejection :
  (∃ w n,
     runOps sampleClock sampleId
       [AddNote "nfe.xml" (payloadFor "11.858.570/0003-03");
        MarkAsRejected "a" "nota duplicada" (Some "ana");
        MarkAsLaunched "a" None None] initialWorld = Normal (tt, w)
     ∧ notes (zustand w) = [n]
     ∧ launchInfo n = Some {| status := launched;
                              launchedAt := Some 1700000000002;
                              launchedBy := None;
                              rejectedAt := Some 1700000000001;
                              rejectedBy := Some "ana";
                              rejectionReason := Some "nota duplicada";
                              operatorNotes := None |}
     ∧ ¬ lifecycleConsistent n)
  ∧ (∃ w n,
       runOps sampleClock sampleId
         [AddNote "nfe.xml" (payloadFor "11.858.570/0003-03");
          MarkAsLaunched "a" None None] initialWorld = Normal (tt, w)
       ∧ notes (zustand w) = [n]
       ∧ launchInfo n = Some {| status := launched;
                                launchedAt := Some 1700000000001;
                                launchedBy := None;
                                rejectedAt := None;
                                rejectedBy := None;
                                rejectionReason := None;
                                operatorNotes := None |}).
Proof.
  split.
  - eexists _, _. split; [vm_compute; reflexivity|].
    split; [reflexivity|]. split; [reflexivity|].
    intros (li & [= <-] & Hli). unfold fieldsMatchStatus in Hli. simpl in Hli.
    destruct Hli as (_ & Hli & _). discriminate.
  - eexists _, _. split; [vm_compute; reflexivity|]. by split.
Qed.

(** The invariant on a note that was ingested and then launched by an
    operator. *)
Lemma reachable_notes_consistent_witness :
  lifecycleConsistent
    (withLaunchInfo
       (ingested sampleClock sampleId 0 0 0 ("nfe.xml", payloadFor "11.858.570/0003-03"))
       (launchedInfo (Some pendingInfo) 1700000000001 (Some "ana") None)).
Proof.
  apply (proj2 (reachable_notes_consistent sampleClock sampleId)
           {| zustand :=
                {| notes :=
                     [withLaunchInfo
                        (ingested sampleClock sampleId 0 0 0
                           ("nfe.xml", payloadFor "11.858.570/0003-03"))
                        (launchedInfo (Some pendingInfo) 1700000000001 (Some "ana") None)];
                   selectedNoteId := None |};
              clockReads := 2; idDraws := 1 |}).
  - eapply reachable_step with
      (op := MarkAsLaunched "a" (Some "ana") None);
      [eapply reachable_step with
         (op := AddNote "nfe.xml" (payloadFor "11.858.570/0003-03"));
         [apply reachable_initial|exact I|vm_compute; reflexivity]
      | |vm_compute; reflexivity].
    intros n Hn _. apply list_elem_of_singleton in Hn as ->. discriminate.
  - apply list_elem_of_here.
Defined.

(** C3, as the code has it: the store's reject action checks nothing about
    the reason.  For every id, reason (the empty one too) and operator it
    returns normally, and every note with that id becomes rejected with
    that reason, that operator and a time of rejection, the other notes,
    the selection and the rest of each note staying as they were.  The
    test for a reason that is empty or white space is made by the page's
    handler, which then returns without calling the store and without
    reporting anything. *)
Theorem markAsRejected_takes_any_reason wallClock id reason operatorName w :
  (∃ w',
     markAsRejected wallClock id reason operatorName w = Normal (tt, w')
     ∧ selectedNoteId (zustand w') = selectedNoteId (zustand w)
     ∧ Forall2
         (λ n n',
            if decide (note_id n = id)
            then hasStatus rejected n'
                 ∧ launchInfo n' ≫= rejectionReason = Some reason
                 ∧ launchInfo n' ≫= rejectedBy = operatorName
                 ∧ is_Some (launchInfo n' ≫= rejectedAt)
                 ∧ frame n' = frame n
            else n' = n)
         (notes (zustand w)) (notes (zustand w')))
  ∧ (∀ page,
       blank (rejectReason page) = true →
       handleMarkAsRejected wallClock page w = Normal (page, w)).
Proof.
  split.
  - destruct (mapMatching_spec id _ _ w (rejectNote_step wallClock reason operatorName))
      as (w' & Hrun & Hsel & _ & HF).
    exists w'. split; [done|]. split; [done|].
    eapply Forall2_impl; [exact HF|]. simpl. intros n n' Hn.
    destruct (decide (note_id n = id)); [|done].
    destruct Hn as [now ->]. by repeat split.
  - intros page Hblank. unfold handleMarkAsRejected.
    rewrite bind_run. simpl.
    destruct (find _ _); [|done].
    rewrite decide_False; [done|].
    intros Hne. apply Hne. by apply trim_blank.
Qed.

(** Counterexample to C3 as written: rejecting an existing pending note
    with the empty reason is not refused, and the note ends rejected. *)
Lemma empty_reason_is_accepted :
  let w := {| zustand := {| notes := [sampleNote "n1" (Some pendingInfo)];
                            selectedNoteId := Some "n1" |};
              clockReads := 0; idDraws := 0 |} in
  ∃ w',
    markAsRejected sampleClock "n1" EmptyString None w = Normal (tt, w')
    ∧ markAsRejected sampleClock "n1" EmptyString None w ≠ Throw InvalidArgument
    ∧ notes (zustand w') =
        [sampleNote "n1"
           (Some {| status := rejected; launchedAt := None; launchedBy := None;
                    rejectedAt := Some 1700000000000; rejectedBy := None;
                    rejectionReason := Some EmptyString; operatorNotes := None |})]
    ∧ notes (zustand w') ≠ notes (zustand w).
Proof.
  eexists. split; [vm_compute; reflexivity|].
  split; [discriminate|]. split; [reflexivity|]. discriminate.
Qed.

(** The handler at work: a reason of white space only (a space, a tab and a
    no-break space) changes nothing, a proper reason rejects the selected
    note. *)
Example handler_samples :
  let w := {| zustand := {| notes := [sampleNote "n1" (Some pendingInfo)];
                            selectedNoteId := Some "n1" |};
              clockReads := 0; idDraws := 0 |} in
  let spaces :=
    String " " (String (ascii_of_nat 9)
      (String (ascii_of_nat 194) (String (ascii_of_nat 160) EmptyString))) in
  handleMarkAsRejected sampleClock (mkLancamentoPage spaces true EmptyString) w
    = Normal (mkLancamentoPage spaces true EmptyString, w)
  ∧ ∃ w', handleMarkAsRejected sampleClock (mkLancamentoPage "duplicada" true EmptyString) w
          = Normal (mkLancamentoPage EmptyString false EmptyString, w')
          ∧ (status <$> (head (notes (zustand w')) ≫= launchInfo)) = Some rejected.
Proof. split; [vm_compute; reflexivity|]. eexists. split; vm_compute; reflexivity. Qed.

(** C4, as the code has it: batch ingestion takes the entries in input
    order and appends one pending note per entry, in that order, whether or
    not the buyer's tax id resolves; an entry that does not resolve yields
    a note without unit.  The call returns nothing: no list of ids and no
    list of failures. *)
Theorem addNotes_appends_every_entry wallClock randomId entries w :
  ∃ newNotes w',
    addNotes wallClock randomId entries w = Normal (tt, w')
    ∧ notes (zustand w') = (notes (zustand w) ++ newNotes)%list
    ∧ selectedNoteId (zustand w') = selectedNoteId (zustand w)
    ∧ length newNotes = length entries
    ∧ ∀ i e, entries !! i = Some e →
        ∃ n, newNotes !! i = Some n
             ∧ filename n = e.1 ∧ data n = e.2
             ∧ launchInfo n = Some pendingInfo
             ∧ filial n = identifyFilial (dest (e.2) ≫= doc)
             ∧ note_id n = randomId (idDraws w + i)%nat
             ∧ processedAt n = wallClock (clockReads w + i)%nat.
Proof.
  eexists _, _. split; [apply addNotes_run|]. simpl.
  split; [done|]. split; [done|]. split; [apply length_imap|].
  intros i e He. eexists. rewrite list_lookup_imap, He. simpl.
  by repeat split.
Qed.

(** Counterexample to C4 as written: of two entries, the second of which
    does not resolve, both are ingested, the second without unit, and the
    call reports nothing. *)
Lemma unresolved_entry_is_ingested :
  let entries := [("a.xml", payloadFor "11.858.570/0003-03");
                  ("b.xml", payloadFor "00000000000000")] in
  (identifyFilial ∘ (λ e, dest (e.2) ≫= doc)) <$> entries
    = [Some (mkNoteFilialInfo 2 "Hospital de Capim Grosso" "11858570000303"
               "11.858.570/0003-03" "Capim Grosso" "BA" TipoHospital);
       None]
  ∧ ∃ w',
      addNotes sampleClock sampleId entries initialWorld = Normal (tt, w')
      ∧ length (notes (zustand w')) = 2%nat
      ∧ filename <$> notes (zustand w') = ["a.xml"; "b.xml"]
      ∧ filial <$> notes (zustand w')
        = [Some (mkNoteFilialInfo 2 "Hospital de Capim Grosso" "11858570000303"
                   "11.858.570/0003-03" "Capim Grosso" "BA" TipoHospital);
           None].
Proof.
  split; [vm_compute; reflexivity|].
  eexists. split; [vm_compute; reflexivity|]. by repeat split.
Qed.

(** C6, as the code has it: for every id that no note of the collection
    has, each of launch, reject and reset returns normally, reporting
    nothing, and leaves the collection, the selection and the rest of the
    world exactly as they were. *)
Theorem unknown_id_changes_nothing wallClock id reason operatorName obs w :
  (∀ n, n ∈ notes (zustand w) → note_id n ≠ id) →
  markAsLaunched wallClock id operatorName obs w = Normal (tt, w)
  ∧ markAsRejected wallClock id reason operatorName w = Normal (tt, w)
  ∧ resetLaunchStatus id w = Normal (tt, w).
Proof.
  intros Hno. unfold markAsLaunched, markAsRejected, resetLaunchStatus.
  by rewrite !mapMatching_unmatched.
Qed.

(** The three actions on an id that the single note of the store does not
    have. *)
Lemma unknown_id_changes_nothing_witness :
  let w := {| zustand := {| notes := [sampleNote "n1" (Some pendingInfo)];
                            selectedNoteId := Some "n1" |};
              clockReads := 3; idDraws := 1 |} in
  markAsLaunched sampleClock "zz" (Some "ana") None w = Normal (tt, w)
  ∧ markAsRejected sampleClock "zz" "nota duplicada" (Some "ana") w = Normal (tt, w)
  ∧ resetLaunchStatus "zz" w = Normal (tt, w).
Proof.
  apply (unknown_id_changes_nothing sampleClock "zz" "nota duplicada" (Some "ana") None).
  intros n Hn. apply list_elem_of_singleton in Hn as ->. discriminate.
Defined.

(** Counterexample to C6 as written: on an id that no note has, none of
    the three actions ends in NotFound; each returns normally. *)
Lemma unknown_id_is_not_reported :
  let w := {| zustand := {| notes := [sampleNote "n1" (Some pendingInfo)];
                            selectedNoteId := Some "n1" |};
              clockReads := 3; idDraws := 1 |} in
  Forall (λ n, note_id n ≠ "zz") (notes (zustand w))
  ∧ markAsLaunched sampleClock "zz" None None w = Normal (tt, w)
  ∧ markAsRejected sampleClock "zz" "nota duplicada" None w = Normal (tt, w)
  ∧ resetLaunchStatus "zz" w = Normal (tt, w)
  ∧ markAsLaunched sampleClock "zz" None None w ≠ Throw NotFound
  ∧ markAsRejected sampleClock "zz" "nota duplicada" None w ≠ Throw NotFound
  ∧ resetLaunchStatus "zz" w ≠ Throw NotFound.
Proof.
  split; [by repeat constructor|].
  repeat split; solve [vm_compute; reflexivity | discriminate].
Qed.

(** C7: the unit of a note is computed when the note is ingested, from the
    buyer's tax id of the payload, and no sequence of launch, reject and
    reset calls changes it, nor the id, the file name, the payload or the
    time of reception of any note. *)
Theorem lifecycle_leaves_frame wallClock randomId :
  (∀ fname payload w,
     ∃ n w',
       addNote wallClock randomId fname payload w = Normal (tt, w')
       ∧ notes (zustand w') = (notes (zustand w) ++ [n])%list
       ∧ filial n = identifyFilial (dest payload ≫= doc)
       ∧ note_id n = randomId (idDraws w)
       ∧ filename n = fname ∧ data n = payload
       ∧ processedAt n = wallClock (clockReads w)
       ∧ launchInfo n = Some pendingInfo)
  ∧ (∀ (ops : list LifecycleOp) w,
       ∃ w',
         runOps wallClock randomId (lifecycleCall <$> ops) w = Normal (tt, w')
         ∧ frame <$> notes (zustand w') = frame <$> notes (zustand w)).
Proof.
  split.
  - intros fname payload w.
    exists (ingested wallClock randomId (idDraws w) (clockReads w) 0 (fname, payload)).
    eexists. split; [apply addNote_run|]. simpl.
    rewrite !Nat.add_0_r. by repeat split.
  - intros ops. induction ops as [|op ops IH]; intros w.
    + by exists w.
    + destruct (lifecycleCall_frame wallClock randomId op w) as (w1 & Hrun & Hframe).
      destruct (IH w1) as (w2 & Hrun2 & Hframe2).
      exists w2. split; [|congruence].
      simpl. by rewrite bind_run, Hrun.
Qed.

(** C8: removing a note never leaves the selection on the removed id: a
    selection on it becomes unset, any other selection stays and still
    finds the notes it found before; clearing the collection always unsets
    the selection. *)
Theorem selection_never_dangles id w :
  (∃ w',
     removeNote id w = Normal (tt, w')
     ∧ notes (zustand w') = filter (λ n, note_id n ≠ id) (notes (zustand w))
     ∧ selectedNoteId (zustand w') ≠ Some id
     ∧ (selectedNoteId (zustand w) = Some id → selectedNoteId (zustand w') = None)
     ∧ (selectedNoteId (zustand w) ≠ Some id →
          selectedNoteId (zustand w') = selectedNoteId (zustand w))
     ∧ (∀ n, n ∈ notes (zustand w) →
          Some (note_id n) = selectedNoteId (zustand w') → n ∈ notes (zustand w')))
  ∧ (∃ w',
       clearNotes w = Normal (tt, w')
       ∧ notes (zustand w') = []
       ∧ selectedNoteId (zustand w') = None).
Proof.
  split.
  - eexists. split; [reflexivity|]. simpl. split; [done|].
    destruct (decide (selectedNoteId (zustand w) = Some id)) as [Hs|Hs].
    + by repeat split.
    + repeat split; try done.
      intros n Hin Hn. apply list_elem_of_filter. split; [|done].
      intros Heq. apply Hs. by rewrite <- Hn, Heq.
  - eexists. by repeat split.
Qed.

(** C10: the pending getter returns exactly the notes without a launch
    record together with those whose status is pending; the launched and
    rejected getters return exactly the notes whose status is launched,
    respectively rejected, so a note without launch record is in neither;
    each getter keeps the notes in the order of the collection. *)
Theorem getters_select_by_status state :
  (∀ n, n ∈ getPendingNotes state ↔
        (n ∈ notes state
         ∧ (launchInfo n = None ∨ ∃ li, launchInfo n = Some li ∧ status li = pending)))
  ∧ (∀ n, n ∈ getLaunchedNotes state ↔
          (n ∈ notes state ∧ ∃ li, launchInfo n = Some li ∧ status li = launched))
  ∧ (∀ n, n ∈ getRejectedNotes state ↔
          (n ∈ notes state ∧ ∃ li, launchInfo n = Some li ∧ status li = rejected))
  ∧ sublist (getPendingNotes state) (notes state)
  ∧ sublist (getLaunchedNotes state) (notes state)
  ∧ sublist (getRejectedNotes state) (notes state)
  ∧ (∀ n, launchInfo n = None →
          (n ∉ getLaunchedNotes state) ∧ (n ∉ getRejectedNotes state)).
Proof.
  assert (∀ st n, hasStatus st n ↔ ∃ li, launchInfo n = Some li ∧ status li = st) as Hst.
  { intros st n. unfold hasStatus. destruct (launchInfo n) as [li|]; simpl.
    - split; [intros [= <-]; eauto|intros (? & [= <-] & ->); done].
    - split; [done|intros (? & ? & _); done]. }
  unfold getPendingNotes, getLaunchedNotes, getRejectedNotes.
  split; [|split; [|split; [|split; [|split; [|split]]]]].
  - intros n. rewrite list_elem_of_filter. unfold countsAsPending.
    rewrite Hst. tauto.
  - intros n. rewrite list_elem_of_filter, Hst. tauto.
  - intros n. rewrite list_elem_of_filter, Hst. tauto.
  - apply sublist_filter.
  - apply sublist_filter.
  - apply sublist_filter.
  - intros n Hn. split; rewrite list_elem_of_filter, Hst;
      intros [(li & Hli & _) _]; congruence.
Qed.

(** ** The progress figure *)

(** *** Doubles of 53 bits and their rounding

    The primitive operations are specified by [FloatAxioms] through the
    functions of [SpecFloat]; what follows bounds the rounding of those
    functions on positive doubles in the normal range. *)

Lemma digits2_pos_size p : digits2_pos p = Pos.size p.
Proof. induction p as [p IH|p IH|]; simpl; by rewrite ?IH. Qed.

Lemma digits2_pos_bounds p :
  2 ^ (Z.pos (digits2_pos p) - 1) ≤ Z.pos p < 2 ^ Z.pos (digits2_pos p).
Proof.
  rewrite digits2_pos_size. split.
  - pose proof (Pos.size_le p) as H.
    assert (2 ^ Z.pos (Pos.size p) ≤ 2 * Z.pos p) as H'.
    { change 2 with (Z.pos 2) at 1. rewrite <- Pos2Z.inj_pow. by apply Pos2Z.pos_le_pos in H. }
    replace (Z.pos (Pos.size p)) with (Z.succ (Z.pos (Pos.size p) - 1)) in H' by lia.
    rewrite Z.pow_succ_r in H' by lia. lia.
  - pose proof (Pos.size_gt p) as H.
    change 2 with (Z.pos 2). rewrite <- Pos2Z.inj_pow. by apply Pos2Z.pos_lt_pos.
Qed.

Lemma digits2_pos_unique p d :
  2 ^ (d - 1) ≤ Z.pos p < 2 ^ d → Z.pos (digits2_pos p) = d.
Proof.
  intros [Hlo Hhi]. pose proof (digits2_pos_bounds p) as [Hlo' Hhi'].
  assert (0 < d).
  { destruct (Z.lt_ge_cases 0 d); [done|].
    destruct (Z.eq_dec d 0) as [->|]; [simpl in Hhi; lia|].
    rewrite Z.pow_neg_r in Hhi by lia. lia. }
  destruct (Z.lt_trichotomy (Z.pos (digits2_pos p)) d) as [Hlt|[Heq|Hgt]]; [|done|].
  - assert (2 ^ Z.pos (digits2_pos p) ≤ 2 ^ (d - 1)) by (apply Z.pow_le_mono_r; lia). lia.
  - assert (2 ^ d ≤ 2 ^ (Z.pos (digits2_pos p) - 1)) by (apply Z.pow_le_mono_r; lia). lia.
Qed.

Lemma shr_1_m r : 0 ≤ shr_m r → shr_m (shr_1 r) = shr_m r / 2.
Proof.
  destruct r as [m rb sb]. simpl. intros Hm.
  destruct m as [|[p|p|]|p]; simpl; try done; try lia.
  - rewrite Pos2Z.inj_xI. apply Z.div_unique with 1; lia.
  - rewrite Pos2Z.inj_xO. apply Z.div_unique with 0; lia.
Qed.

Lemma iter_pos_shr_m k r :
  0 ≤ shr_m r → shr_m (SpecFloat.iter_pos shr_1 k r) = shr_m r / 2 ^ Z.pos k.
Proof.
  revert r. induction k as [k IH|k IH|]; intros r Hr.
  - assert (2 ^ Z.pos k~1 = 2 * (2 ^ Z.pos k * 2 ^ Z.pos k)) as ->.
    { rewrite <- Z.pow_add_r, <- Z.pow_succ_r by lia. f_equal. lia. }
    cbn [SpecFloat.iter_pos].
    assert (0 ≤ shr_m (shr_1 r)) by (rewrite shr_1_m by done; apply Z.div_pos; lia).
    assert (0 ≤ shr_m (SpecFloat.iter_pos shr_1 k (shr_1 r)))
      by (rewrite IH by done; apply Z.div_pos; lia).
    rewrite !IH, shr_1_m by done.
    rewrite !Z.div_div by lia. done.
  - assert (2 ^ Z.pos k~0 = 2 ^ Z.pos k * 2 ^ Z.pos k) as ->.
    { rewrite <- Z.pow_add_r by lia. f_equal. lia. }
    cbn [SpecFloat.iter_pos].
    assert (0 ≤ shr_m (SpecFloat.iter_pos shr_1 k r))
      by (rewrite IH by done; apply Z.div_pos; lia).
    rewrite !IH by done. by rewrite Z.div_div by lia.
  - cbn [SpecFloat.iter_pos]. by rewrite shr_1_m.
Qed.

(** [shr] on a mantissa that is not negative. *)
Lemma shr_m_shift r e k :
  0 ≤ shr_m r → 0 ≤ k →
  shr_m (shr r e k).1 = shr_m r / 2 ^ k ∧ (shr r e k).2 = e + k.
Proof.
  intros Hr Hk. destruct k as [|k|k]; [| |lia]; simpl.
  - rewrite Z.div_1_r. split; [done|lia].
  - split; [|done]. by apply iter_pos_shr_m.
Qed.

Lemma round_nearest_even_cases m l :
  round_nearest_even m l = m ∨ round_nearest_even m l = m + 1.
Proof. destruct l as [|[]]; simpl; auto. destruct (Z.even m); auto. Qed.

Lemma shr_record_of_loc_m m l : shr_m (shr_record_of_loc m l) = m.
Proof. by destruct l as [|[]]. Qed.

Lemma fexp_normal e : -1074 ≤ e - 53 → fexp prec emax e = e - 53.
Proof. unfold fexp, SpecFloat.emin, prec, emax. lia. Qed.

Lemma shr_fexp_shift (m : positive) e l k :
  Z.pos (digits2_pos m) = 53 + k → 0 ≤ k → -1074 ≤ e + k →
  ∃ mrs, shr_fexp prec emax (Z.pos m) e l = (mrs, e + k)
         ∧ shr_m mrs = Z.pos m / 2 ^ k
         ∧ (k = 0 → mrs = shr_record_of_loc (Z.pos m) l).
Proof.
  intros Hd Hk Hlo. unfold shr_fexp. cbn [Zdigits2]. rewrite Hd.
  rewrite fexp_normal by lia.
  replace (53 + k + e - 53 - e) with k by lia.
  destruct (shr_m_shift (shr_record_of_loc (Z.pos m) l) e k) as [Hs1 Hs2];
    [by rewrite shr_record_of_loc_m|done|].
  rewrite shr_record_of_loc_m in Hs1.
  destruct (shr (shr_record_of_loc (Z.pos m) l) e k) as [mrs1 e1] eqn:E1.
  cbn [fst snd] in Hs1, Hs2. subst e1. exists mrs1. split; [done|]. split; [done|].
  intros ->. cbn [shr] in E1. by injection E1 as <-.
Qed.

(** Rounding a mantissa of [53 + k] bits: the result has 53 bits and is the
    mantissa shifted by [k], or its successor. *)
Lemma binary_round_aux_normal (m : positive) (e : Z) (l : location) (k : Z) :
  Z.pos (digits2_pos m) = 53 + k → 0 ≤ k → -1074 ≤ e + k → e + k < 971 →
  ∃ (m' : positive) (e' M : Z),
    binary_round_aux prec emax false (Z.pos m) e l = S754_finite false m' e'
    ∧ Z.pos (digits2_pos m') = 53
    ∧ (M = Z.pos m / 2 ^ k ∨ M = Z.pos m / 2 ^ k + 1)
    ∧ (k = 0 → l = loc_Exact → M = Z.pos m)
    ∧ ((Z.pos m' = M ∧ e' = e + k) ∨ (M = 2 ^ 53 ∧ Z.pos m' = 2 ^ 52 ∧ e' = e + k + 1)).
Proof.
  intros Hd Hk Hlo Hhi.
  pose proof (digits2_pos_bounds m) as [Hmlo Hmhi]. rewrite Hd in Hmlo, Hmhi.
  set (m1 := Z.pos m / 2 ^ k).
  assert (2 ^ 52 ≤ m1 < 2 ^ 53) as Hm1.
  { unfold m1. replace (53 + k - 1) with (52 + k) in Hmlo by lia.
    rewrite Z.pow_add_r in Hmlo, Hmhi by lia.
    assert (0 < 2 ^ k) by (apply Z.pow_pos_nonneg; lia). split.
    - apply Z.div_le_lower_bound; lia.
    - apply Z.div_lt_upper_bound; lia. }
  unfold binary_round_aux.
  destruct (shr_fexp_shift m e l k) as (mrs1 & -> & Hs1 & Hk0); [done..|].
  rewrite Hs1. fold m1.
  set (M := round_nearest_even m1 (loc_of_shr_record mrs1)).
  assert (M = m1 ∨ M = m1 + 1) as HM by apply round_nearest_even_cases.
  assert (k = 0 → l = loc_Exact → M = Z.pos m) as Hexact.
  { intros Hk' ->. unfold M, m1. rewrite (Hk0 Hk'), Hk'. cbn.
    by rewrite Z.div_1_r. }
  assert (2 ^ 52 ≤ M ≤ 2 ^ 53) as HMb by lia.
  destruct M as [|Mp|Mp] eqn:EM; [lia| |lia].
  destruct (Z.eq_dec (Z.pos Mp) (2 ^ 53)) as [HM53|HM53].
  - destruct (shr_fexp_shift Mp (e + k) loc_Exact 1) as (mrs2 & -> & Hs2 & _);
      [by injection HM53 as ->|lia|lia|].
    rewrite Hs2, HM53. change (2 ^ 53 / 2 ^ 1) with (Z.pos (2 ^ 52)).
    cbv iota beta.
    destruct (Z.leb_spec (e + k + 1) (emax - prec)); [|unfold emax, prec in *; lia].
    exists (2 ^ 52)%positive, (e + k + 1), (2 ^ 53).
    split; [done|]. split; [done|]. split; [lia|]. split; [|by right].
    intros H1 H2. rewrite <- (Hexact H1 H2). done.
  - assert (Z.pos (digits2_pos Mp) = 53 + 0) as HdM by (apply digits2_pos_unique; lia).
    destruct (shr_fexp_shift Mp (e + k) loc_Exact 0) as (mrs2 & Hsh & Hs2 & _);
      [done|lia|lia|].
    rewrite Hsh, Hs2. change (2 ^ 0) with 1. rewrite Z.div_1_r. cbv iota beta.
    rewrite Z.add_0_r.
    destruct (Z.leb_spec (e + k) (emax - prec)); [|unfold emax, prec in *; lia].
    exists Mp, (e + k), (Z.pos Mp).
    split; [done|]. split; [lia|]. split; [lia|]. split; [done|by left].
Qed.

Lemma iter_xO_pow n p : Z.pos (Pos.iter xO n p) = Z.pos n * 2 ^ Z.pos p.
Proof.
  induction p as [|p IH] using Pos.peano_ind.
  - simpl. lia.
  - rewrite Pos.iter_succ, Pos2Z.inj_xO, IH, Pos2Z.inj_succ, Z.pow_succ_r by lia. lia.
Qed.

(** A positive integer of at most 53 bits is a double, exactly. *)
Lemma binary_normalize_int (n : positive) :
  Z.pos (digits2_pos n) ≤ 53 →
  ∃ m : positive,
    binary_normalize prec emax (Z.pos n) 0 false
    = S754_finite false m (Z.pos (digits2_pos n) - 53)
    ∧ Z.pos (digits2_pos m) = 53
    ∧ Z.pos m = Z.pos n * 2 ^ (53 - Z.pos (digits2_pos n)).
Proof.
  intros Hd. pose proof (digits2_pos_bounds n) as [Hlo Hhi].
  set (d := Z.pos (digits2_pos n)) in *.
  assert (0 < d) as Hd0 by done.
  cbn [binary_normalize]. unfold binary_round. fold d.
  rewrite Z.add_0_r, fexp_normal by lia.
  assert (∃ mz, shl_align n 0 (d - 53) = (mz, d - 53)
                ∧ Z.pos mz = Z.pos n * 2 ^ (53 - d)) as (mz & -> & Hmz).
  { unfold shl_align. rewrite Z.sub_0_r.
    destruct (d - 53) as [|p|p] eqn:E; [|lia|].
    - exists n. split; [done|]. replace (53 - d) with 0 by lia. lia.
    - exists (Pos.iter xO n p). split; [done|].
      rewrite iter_xO_pow. do 2 f_equal. lia. }
  assert (Z.pos (digits2_pos mz) = 53 + 0) as Hdz.
  { apply digits2_pos_unique. rewrite Hmz.
    replace (2 ^ (53 + 0 - 1)) with (2 ^ (d - 1) * 2 ^ (53 - d))
      by (rewrite <- Z.pow_add_r by lia; f_equal; lia).
    replace (2 ^ (53 + 0)) with (2 ^ d * 2 ^ (53 - d))
      by (rewrite <- Z.pow_add_r by lia; f_equal; lia).
    assert (0 < 2 ^ (53 - d)) by (apply Z.pow_pos_nonneg; lia). nia. }
  destruct (binary_round_aux_normal mz (d - 53) loc_Exact 0)
    as (m' & e' & M & Hr & Hd' & _ & HM & Hres); [done|lia|lia|lia|].
  rewrite Hr. specialize (HM eq_refl eq_refl). subst M.
  pose proof (digits2_pos_bounds mz) as [_ Hzhi]. rewrite Hdz in Hzhi.
  destruct Hres as [[Hm' ->]|[Hbad _]]; [|change (53 + 0) with 53 in Hzhi; lia].
  exists m'. rewrite Z.add_0_r. split; [done|]. split; [done|]. by rewrite Hm'.
Qed.

Lemma pow2_IZR n : 0 ≤ n → IZR (2 ^ n) = powerRZ 2 n.
Proof.
  intros Hn. destruct n as [|p|p]; [done| |lia].
  simpl powerRZ. rewrite pow_IZR, positive_nat_Z. done.
Qed.

Lemma pow2_pos e : (0 < powerRZ 2 e)%R.
Proof. apply powerRZ_lt. lra. Qed.

Lemma pow2_add a b : powerRZ 2 (a + b) = (powerRZ 2 a * powerRZ 2 b)%R.
Proof. apply powerRZ_add. lra. Qed.

(** The rounded mantissa is within one unit of what it rounds, and a unit
    is at most 2^-52 of the result. *)
Lemma round_error (m m' : positive) (e e' k M : Z) (X : R) :
  0 ≤ k → 2 ^ 52 ≤ M →
  M = Z.pos m / 2 ^ k ∨ M = Z.pos m / 2 ^ k + 1 →
  (Z.pos m' = M ∧ e' = e + k) ∨ (M = 2 ^ 53 ∧ Z.pos m' = 2 ^ 52 ∧ e' = e + k + 1) →
  (IZR (Z.pos m) * powerRZ 2 e <= X <= (IZR (Z.pos m) + 1) * powerRZ 2 e)%R →
  (Rabs (doubleValue m' e' - X) <= doubleValue m' e' * / 4503599627370496)%R.
Proof.
  intros Hk HM52 HM Hres [HXlo HXhi].
  set (a := powerRZ 2 (e + k)).
  assert (0 < a)%R as Ha by apply pow2_pos.
  assert (doubleValue m' e' = IZR M * a)%R as ->.
  { unfold doubleValue, a. destruct Hres as [[-> ->]|(-> & -> & ->)]; [done|].
    rewrite (pow2_add (e + k) 1). change (powerRZ 2 1) with (2 * 1)%R.
    change (2 ^ 52) with 4503599627370496. change (2 ^ 53) with 9007199254740992. lra. }
  set (M' := Z.pos m / 2 ^ k) in *.
  assert (0 < 2 ^ k) as Hpk by (apply Z.pow_pos_nonneg; lia).
  assert (M' * 2 ^ k ≤ Z.pos m < (M' + 1) * 2 ^ k) as [Hfl Hcl].
  { unfold M'. pose proof (Z.mul_div_le (Z.pos m) (2 ^ k) Hpk).
    pose proof (Z.mul_succ_div_gt (Z.pos m) (2 ^ k) Hpk). lia. }
  assert (a = IZR (2 ^ k) * powerRZ 2 e)%R as Hak.
  { unfold a. rewrite pow2_IZR by done. rewrite <- pow2_add. f_equal. lia. }
  pose proof (pow2_pos e) as He.
  assert (IZR M' * a <= IZR (Z.pos m) * powerRZ 2 e)%R as H1.
  { rewrite Hak, <- Rmult_assoc, <- mult_IZR.
    apply Rmult_le_compat_r; [lra|]. by apply IZR_le. }
  assert ((IZR (Z.pos m) + 1) * powerRZ 2 e <= (IZR M' + 1) * a)%R as H2.
  { rewrite Hak, <- Rmult_assoc. apply Rmult_le_compat_r; [lra|].
    rewrite <- (plus_IZR _ 1), <- (plus_IZR _ 1), <- mult_IZR. apply IZR_le. lia. }
  assert (4503599627370496 * a <= IZR M * a)%R as H3.
  { apply Rmult_le_compat_r; [lra|]. apply (IZR_le (2 ^ 52)). done. }
  assert (IZR M = IZR M' ∨ IZR M = IZR M' + 1)%R as [HM'|HM'].
  { destruct HM as [->| ->]; [by left|right]. by rewrite plus_IZR. }
  - rewrite HM' in *. apply Rabs_le. lra.
  - rewrite HM' in *. apply Rabs_le. lra.
Qed.

Lemma Rle_div_r' (a b c : R) : (0 < c → a * c <= b → a <= b / c)%R.
Proof.
  intros Hc H. apply Rmult_le_reg_r with c; [done|].
  unfold Rdiv. rewrite Rmult_assoc, Rinv_l by lra. lra.
Qed.

Lemma Rle_div_l' (a b c : R) : (0 < c → a <= b * c → a / c <= b)%R.
Proof.
  intros Hc H. apply Rmult_le_reg_r with c; [done|].
  unfold Rdiv. rewrite Rmult_assoc, Rinv_l by lra. lra.
Qed.

Lemma Rabs_le_bounds (x a : R) : (Rabs x <= a → - a <= x <= a)%R.
Proof. unfold Rabs. destruct (Rcase_abs x); lra. Qed.

Lemma digits_53_or_54 (q : positive) :
  2 ^ 52 ≤ Z.pos q < 2 ^ 54 →
  Z.pos (digits2_pos q) = 53 + 0 ∨ Z.pos (digits2_pos q) = 53 + 1.
Proof.
  intros [Hlo Hhi]. destruct (Z.lt_ge_cases (Z.pos q) (2 ^ 53)).
  - left. apply digits2_pos_unique. lia.
  - right. apply digits2_pos_unique. lia.
Qed.

(** The quotient of two doubles of 53 bits is within 2^-52 of the true
    quotient, relatively. *)
Lemma SF64div_error (ml mt : positive) (el et : Z) :
  Z.pos (digits2_pos ml) = 53 → Z.pos (digits2_pos mt) = 53 →
  -52 ≤ el ≤ 0 → -52 ≤ et ≤ 0 →
  ∃ (mq : positive) (eq : Z),
    SF64div (S754_finite false ml el) (S754_finite false mt et) = S754_finite false mq eq
    ∧ Z.pos (digits2_pos mq) = 53
    ∧ el - et - 53 ≤ eq ≤ el - et - 51
    ∧ (Rabs (doubleValue mq eq - doubleValue ml el / doubleValue mt et)
       <= doubleValue mq eq * / 4503599627370496)%R.
Proof.
  intros Hdl Hdt Hel Het.
  pose proof (digits2_pos_bounds ml) as [Hllo Hlhi]. rewrite Hdl in Hllo, Hlhi.
  pose proof (digits2_pos_bounds mt) as [Htlo Hthi]. rewrite Hdt in Htlo, Hthi.
  change (2 ^ (53 - 1)) with (2 ^ 52) in *.
  unfold SF64div, SFdiv, SFdiv_core_binary. cbn [Zdigits2 xorb]. rewrite Hdl, Hdt.
  replace (53 + el - (53 + et)) with (el - et) by lia.
  rewrite fexp_normal by lia.
  rewrite Z.min_l by lia.
  replace (el - et - (el - et - 53)) with 53 by lia.
  rewrite Z.shiftl_mul_pow2 by lia.
  destruct (Z.div_eucl (Z.pos ml * 2 ^ 53) (Z.pos mt)) as [q r] eqn:E.
  assert (q = Z.pos ml * 2 ^ 53 / Z.pos mt) as Hq by (unfold Z.div; by rewrite E).
  assert (q * Z.pos mt ≤ Z.pos ml * 2 ^ 53 < (q + 1) * Z.pos mt) as [Hqlo Hqhi].
  { rewrite Hq. pose proof (Z.mul_div_le (Z.pos ml * 2 ^ 53) (Z.pos mt) eq_refl).
    pose proof (Z.mul_succ_div_gt (Z.pos ml * 2 ^ 53) (Z.pos mt) eq_refl). lia. }
  assert (2 ^ 52 ≤ q < 2 ^ 54) as Hqb by nia.
  destruct q as [|qp|qp]; [lia| |lia].
  set (X := (doubleValue ml el / doubleValue mt et)%R).
  assert (IZR (Z.pos qp) * powerRZ 2 (el - et - 53) <= X
          <= (IZR (Z.pos qp) + 1) * powerRZ 2 (el - et - 53))%R as HX.
  { unfold X, doubleValue.
    pose proof (pow2_pos el). pose proof (pow2_pos et). pose proof (pow2_pos (-53)).
    assert (0 < IZR (Z.pos mt))%R as Hmt by (by apply (IZR_lt 0)).
    replace (el - et - 53) with (el + (- et + - 53)) by lia.
    rewrite !pow2_add.
    assert (powerRZ 2 (- et) = / powerRZ 2 et)%R as ->.
    { rewrite powerRZ_neg'. done. }
    assert (powerRZ 2 (-53) = / IZR (2 ^ 53))%R as ->.
    { change (powerRZ 2 (-53)) with (powerRZ 2 (Z.opp 53)).
      rewrite powerRZ_neg'. by rewrite <- pow2_IZR. }
    assert (IZR (Z.pos ml) * powerRZ 2 el / (IZR (Z.pos mt) * powerRZ 2 et)
            = (IZR (Z.pos ml) * IZR (2 ^ 53) / IZR (Z.pos mt))
              * (powerRZ 2 el * (/ powerRZ 2 et * / IZR (2 ^ 53))))%R as ->.
    { field. change (2 ^ 53) with 9007199254740992. repeat split; lra. }
    assert (0 < powerRZ 2 el * (/ powerRZ 2 et * / IZR (2 ^ 53)))%R as Hc.
    { apply Rmult_lt_0_compat; [done|]. apply Rmult_lt_0_compat.
      - by apply Rinv_0_lt_compat.
      - apply Rinv_0_lt_compat. change (2 ^ 53) with 9007199254740992. lra. }
    split; (apply Rmult_le_compat_r; [lra|]).
    - apply Rle_div_r'; [done|]. rewrite <- !mult_IZR. by apply IZR_le.
    - apply Rle_div_l'; [done|]. rewrite <- (plus_IZR _ 1), <- !mult_IZR. apply IZR_le. lia. }
  destruct (digits_53_or_54 qp Hqb) as [Hdq|Hdq].
  - destruct (binary_round_aux_normal qp (el - et - 53) (new_location (Z.pos mt) r) 0)
      as (mq & eq & M & Hr & Hdm & HM & _ & Hres); [done|lia|lia|lia|].
    exists mq, eq. split; [done|]. split; [done|]. split; [lia|].
    apply (round_error qp mq (el - et - 53) eq 0 M X); try done.
    destruct HM as [->| ->]; change (2 ^ 0) with 1; rewrite Z.div_1_r; lia.
  - destruct (binary_round_aux_normal qp (el - et - 53) (new_location (Z.pos mt) r) 1)
      as (mq & eq & M & Hr & Hdm & HM & _ & Hres); [done|lia|lia|lia|].
    exists mq, eq. split; [done|]. split; [done|]. split; [lia|].
    apply (round_error qp mq (el - et - 53) eq 1 M X); try done.
    pose proof (digits2_pos_bounds qp) as [Hlo _]. rewrite Hdq in Hlo.
    change (2 ^ (53 + 1 - 1)) with (2 ^ 53) in Hlo.
    assert (2 ^ 52 ≤ Z.pos qp / 2 ^ 1).
    { apply Z.div_le_lower_bound; [done|]. change (2 ^ 1) with 2. lia. }
    destruct HM as [->| ->]; lia.
Qed.

Lemma Prim2SF_100 : Prim2SF 100 = S754_finite false 7036874417766400 (-46).
Proof. reflexivity. Qed.

Lemma digits_105_or_106 (q : positive) :
  2 ^ 104 ≤ Z.pos q < 2 ^ 106 →
  Z.pos (digits2_pos q) = 53 + 52 ∨ Z.pos (digits2_pos q) = 53 + 53.
Proof.
  intros [Hlo Hhi]. destruct (Z.lt_ge_cases (Z.pos q) (2 ^ 105)).
  - left. apply digits2_pos_unique. lia.
  - right. apply digits2_pos_unique. lia.
Qed.

(** The product of a double of 53 bits by 100. *)
Lemma SF64mul_100_error (mq : positive) (eq : Z) :
  Z.pos (digits2_pos mq) = 53 → -200 ≤ eq ≤ 0 →
  ∃ (mp : positive) (ep : Z),
    SF64mul (S754_finite false mq eq) (Prim2SF 100) = S754_finite false mp ep
    ∧ Z.pos (digits2_pos mp) = 53
    ∧ eq + 6 ≤ ep ≤ eq + 8
    ∧ (Rabs (doubleValue mp ep - 100 * doubleValue mq eq)
       <= doubleValue mp ep * / 4503599627370496)%R.
Proof.
  intros Hdq Heq.
  pose proof (digits2_pos_bounds mq) as [Hqlo Hqhi]. rewrite Hdq in Hqlo, Hqhi.
  change (2 ^ (53 - 1)) with (2 ^ 52) in *.
  rewrite Prim2SF_100. unfold SF64mul, SFmul. cbn [xorb].
  set (P := (mq * 7036874417766400)%positive).
  assert (Z.pos P = Z.pos mq * 7036874417766400) as HP by done.
  assert (2 ^ 104 ≤ Z.pos P < 2 ^ 106) as HPb by lia.
  set (X := (100 * doubleValue mq eq)%R).
  assert (IZR (Z.pos P) * powerRZ 2 (eq + -46) <= X
          <= (IZR (Z.pos P) + 1) * powerRZ 2 (eq + -46))%R as HX.
  { unfold X, doubleValue. rewrite HP, mult_IZR, pow2_add.
    pose proof (pow2_pos eq).
    assert (powerRZ 2 (-46) = / 70368744177664)%R as ->.
    { change (powerRZ 2 (-46)) with (powerRZ 2 (Z.opp 46)).
      rewrite powerRZ_neg'. f_equal. by rewrite <- pow2_IZR. }
    assert (0 < IZR (Z.pos mq))%R by (by apply (IZR_lt 0)).
    split; [lra|].
    assert (0 < powerRZ 2 eq * / 70368744177664)%R by lra.
    lra. }
  destruct (digits_105_or_106 P HPb) as [HdP|HdP].
  - destruct (binary_round_aux_normal P (eq + -46) loc_Exact 52)
      as (mp & ep & M & Hr & Hdm & HM & _ & Hres); [done|lia|lia|lia|].
    exists mp, ep. split; [done|]. split; [done|]. split; [lia|].
    apply (round_error P mp (eq + -46) ep 52 M X); try done.
    assert (2 ^ 52 ≤ Z.pos P / 2 ^ 52) by (apply Z.div_le_lower_bound; lia).
    destruct HM as [->| ->]; lia.
  - destruct (binary_round_aux_normal P (eq + -46) loc_Exact 53)
      as (mp & ep & M & Hr & Hdm & HM & _ & Hres); [done|lia|lia|lia|].
    exists mp, ep. split; [done|]. split; [done|]. split; [lia|].
    apply (round_error P mp (eq + -46) ep 53 M X); try done.
    pose proof (digits2_pos_bounds P) as [Hlo _]. rewrite HdP in Hlo.
    change (2 ^ (53 + 53 - 1)) with (2 ^ 105) in Hlo.
    assert (2 ^ 52 ≤ Z.pos P / 2 ^ 53) by (apply Z.div_le_lower_bound; lia).
    destruct HM as [->| ->]; lia.
Qed.

(** An array length as a double: exact. *)
Lemma toNumber_value (n : nat) :
  0 < Z.of_nat n < 2 ^ 32 →
  ∃ (m : positive) (e : Z),
    Prim2SF (toNumber n) = S754_finite false m e
    ∧ Z.pos (digits2_pos m) = 53 ∧ -52 ≤ e ≤ -21
    ∧ doubleValue m e = IZR (Z.of_nat n).
Proof.
  intros [Hlo Hhi]. unfold toNumber. rewrite of_uint63_spec, Uint63.of_Z_spec.
  rewrite Z.mod_small by (change wB with (2 ^ 63); lia).
  destruct (Z.of_nat n) as [|np|np] eqn:E; [lia| |lia].
  pose proof (digits2_pos_bounds np) as [Hdlo Hdhi].
  set (d := Z.pos (digits2_pos np)) in *.
  assert (0 < d ≤ 32) as Hd.
  { split; [done|]. destruct (Z.le_gt_cases d 32); [done|].
    assert (2 ^ 32 ≤ 2 ^ (d - 1)) by (apply Z.pow_le_mono_r; lia). lia. }
  destruct (binary_normalize_int np) as (m & Hm & Hdm & Hval); [fold d; lia|].
  fold d in Hm, Hval.
  exists m, (d - 53). split; [done|]. split; [done|]. split; [lia|].
  unfold doubleValue. rewrite Hval, mult_IZR, pow2_IZR by lia.
  rewrite Rmult_assoc, <- pow2_add. replace (53 - d + (d - 53)) with 0 by lia.
  simpl. lra.
Qed.

Lemma toNumber_0 : Prim2SF (toNumber 0) = S754_zero false.
Proof. reflexivity. Qed.

(** [Math.round] on a positive double below 2^53 with a fraction part. *)
Lemma Math_round_value (x : float) (m : positive) (e : Z) :
  Prim2SF x = S754_finite false m e → e < 0 →
  ∃ r, Math_round x = ofZ r ∧ 0 ≤ r
       ∧ (IZR r <= doubleValue m e + / 2 < IZR r + 1)%R.
Proof.
  intros Hx He. unfold Math_round. rewrite Hx.
  destruct (Z.leb_spec 0 e); [lia|].
  set (W := 2 ^ (- e - 1)).
  assert (0 < W) as HW by (apply Z.pow_pos_nonneg; lia).
  assert (2 ^ (- e) = 2 * W) as HW2.
  { unfold W. rewrite <- Z.pow_succ_r by lia. f_equal. lia. }
  rewrite Z.shiftr_div_pow2 by lia. rewrite HW2.
  set (r := (Z.pos m + W) / (2 * W)).
  assert (r * (2 * W) ≤ Z.pos m + W < (r + 1) * (2 * W)) as [Hlo Hhi].
  { unfold r. pose proof (Z.mul_div_le (Z.pos m + W) (2 * W)).
    pose proof (Z.mul_succ_div_gt (Z.pos m + W) (2 * W)). lia. }
  assert (0 ≤ r) as Hr by (apply Z.div_pos; lia).
  exists r. split; [by rewrite Z.abs_eq|]. split; [done|].
  unfold doubleValue.
  assert (powerRZ 2 e = / (2 * IZR W))%R as ->.
  { replace e with (- (- e)) at 1 by lia. rewrite powerRZ_neg'.
    rewrite <- pow2_IZR by lia. rewrite HW2, mult_IZR. done. }
  assert (0 < IZR W)%R as HWr by (by apply (IZR_lt 0)).
  apply IZR_le in Hlo. apply IZR_lt in Hhi.
  rewrite mult_IZR, plus_IZR, mult_IZR in Hlo.
  rewrite mult_IZR, !plus_IZR, mult_IZR in Hhi.
  assert (IZR (Z.pos m) * / (2 * IZR W) + / 2
          = (IZR (Z.pos m) + IZR W) / (2 * IZR W))%R as -> by (field; lra).
  split.
  - apply Rle_div_r'; lra.
  - apply Rmult_lt_reg_r with (2 * IZR W)%R; [lra|].
    unfold Rdiv. rewrite Rmult_assoc, Rinv_l by lra. lra.
Qed.

(** The rounded percentage of the specification, between its bounds. *)
Lemma roundedPercent_bounds (l t : Z) :
  0 < t → 0 ≤ l ≤ t →
  2 * t * roundedPercent l t ≤ 200 * l + t < 2 * t * (roundedPercent l t + 1)
  ∧ 0 ≤ roundedPercent l t ≤ 100.
Proof.
  intros Ht Hl. unfold roundedPercent.
  pose proof (Z.mul_div_le (200 * l + t) (2 * t)).
  pose proof (Z.mul_succ_div_gt (200 * l + t) (2 * t)).
  split; [lia|]. split.
  - apply Z.div_pos; lia.
  - apply Z.lt_succ_r. apply Z.div_lt_upper_bound; lia.
Qed.

(** The figure for any counts within the length of an array: the rounded
    percentage, or one less when the exact percentage ends in one half. *)
Lemma percentFigure_rounded (l t : nat) :
  (l ≤ t)%nat → 0 < Z.of_nat t < 2 ^ 32 →
  ∃ r, percentFigure l t = ofZ r
       ∧ (r = roundedPercent (Z.of_nat l) (Z.of_nat t)
          ∨ (r = roundedPercent (Z.of_nat l) (Z.of_nat t) - 1
             ∧ 200 * Z.of_nat l + Z.of_nat t
               = 2 * Z.of_nat t * roundedPercent (Z.of_nat l) (Z.of_nat t))).
Proof.
  intros Hlt Ht.
  destruct (roundedPercent_bounds (Z.of_nat l) (Z.of_nat t)) as [[Hr0lo Hr0hi] Hr0b];
    [lia|lia|].
  set (r0 := roundedPercent (Z.of_nat l) (Z.of_nat t)) in *.
  destruct (toNumber_value t Ht) as (mt & et & Ht2 & Hdt & Het & Hvt).
  unfold percentFigure.
  destruct l as [|l'].
  { exists 0.
    assert ((toNumber 0 / toNumber t * 100)%float = ofZ 0) as Hzero.
    { apply Prim2SF_inj. rewrite FloatAxioms.mul_spec, FloatAxioms.div_spec, toNumber_0, Ht2. reflexivity. }
    split.
    - unfold Math_round. rewrite Hzero. reflexivity.
    - left. unfold r0, roundedPercent. change (Z.of_nat 0) with 0.
      rewrite Z.mul_0_r, Z.add_0_l. symmetry. apply Z.div_small. lia. }
  set (l := S l') in *.
  destruct (toNumber_value l) as (ml & el & Hl2 & Hdl & Hel & Hvl); [lia|].
  destruct (SF64div_error ml mt el et) as (mq & eq & Hq & Hdq & Heq & Herrq);
    [done|done|lia|lia|].
  destruct (SF64mul_100_error mq eq) as (mp & ep & Hp & Hdp & Hep & Herrp); [done|lia|].
  destruct (Math_round_value (toNumber l / toNumber t * 100)%float mp ep)
    as (r & Hr & Hr0 & Hrlo & Hrhi).
  { by rewrite FloatAxioms.mul_spec, FloatAxioms.div_spec, Hl2, Ht2, Hq. }
  { lia. }
  exists r. split; [done|].
  rewrite Hvl, Hvt in Herrq.
  set (L := IZR (Z.of_nat l)) in *. set (T := IZR (Z.of_nat t)) in *.
  set (q := doubleValue mq eq) in *. set (p := doubleValue mp ep) in *.
  assert (1 <= T)%R as HT1 by (apply (IZR_le 1); lia).
  assert (T < 4294967296)%R as HT2 by (apply (IZR_lt _ (2 ^ 32)); lia).
  assert (0 < L)%R as HL0 by (apply (IZR_lt 0); lia).
  assert (L <= T)%R as HLT by (apply IZR_le; lia).
  set (x := (L / T)%R) in *.
  assert (0 < x <= 1)%R as Hx.
  { unfold x. split; [apply Rdiv_lt_0_compat; lra|]. apply Rle_div_l'; lra. }
  apply Rabs_le_bounds in Herrq, Herrp.
  assert (- / 17592186044416 <= p - 100 * x <= / 17592186044416)%R as Herr by lra.
  set (h := (/ (2 * T))%R).
  assert (/ 8589934592 < h)%R as Hh.
  { unfold h. apply Rinv_lt_contravar; [|lra]. apply Rmult_lt_0_compat; lra. }
  assert (100 * x + / 2 = (200 * L + T) / (2 * T))%R as Hmid by (unfold x; field; lra).
  assert (IZR r0 <= 100 * x + / 2)%R as HA.
  { rewrite Hmid. apply Rle_div_r'; [lra|].
    apply IZR_le in Hr0lo. rewrite plus_IZR, !mult_IZR in Hr0lo. fold L T in Hr0lo. lra. }
  assert (100 * x + / 2 + h <= IZR r0 + 1)%R as HB.
  { assert (200 * Z.of_nat l + Z.of_nat t + 1 ≤ 2 * Z.of_nat t * (r0 + 1)) as H by lia.
    apply IZR_le in H. rewrite !plus_IZR, !mult_IZR, plus_IZR in H. fold L T in H.
    rewrite Hmid. unfold h.
    assert ((200 * L + T) / (2 * T) + / (2 * T) = (200 * L + T + 1) / (2 * T))%R as ->
      by (field; lra).
    apply Rle_div_l'; lra. }
  assert (r ≤ r0) as Hle.
  { apply Z.lt_succ_r. apply lt_IZR. rewrite succ_IZR. lra. }
  destruct (Z.eq_dec (200 * Z.of_nat l + Z.of_nat t) (2 * Z.of_nat t * r0)) as [Htie|Htie].
  - assert (r0 - 1 ≤ r); [|lia].
    apply Z.lt_succ_r. apply lt_IZR. rewrite succ_IZR, minus_IZR. lra.
  - left. assert (r0 ≤ r); [|lia].
    assert (IZR r0 + h <= 100 * x + / 2)%R as HC.
    { assert (2 * Z.of_nat t * r0 + 1 ≤ 200 * Z.of_nat l + Z.of_nat t) as H by lia.
      apply IZR_le in H. rewrite !plus_IZR, !mult_IZR in H. fold L T in H.
      rewrite Hmid. unfold h.
      assert (IZR r0 + / (2 * T) = (2 * T * IZR r0 + 1) / (2 * T))%R as ->
        by (field; lra).
      apply Rle_div_r'; [lra|].
      unfold Rdiv. rewrite Rmult_assoc, Rinv_l by lra. lra. }
    apply Z.lt_succ_r. apply lt_IZR. rewrite succ_IZR. lra.
Qed.

(** C9, as the code has it.  A collection is an array, so it has fewer than
    2^32 notes.  The launched count never exceeds the total.  For the empty
    collection the figure is 0, the division not being evaluated.
    Otherwise the figure is an integer from 0 to 100, computed as
    [Math.round] of the product of doubles [(launched / total) * 100]: it
    is the percentage of the specification, the integer nearest to
    [100 * launched / total] with one half rounding up, except that where
    the exact percentage ends in one half the figure may be one less, the
    product of doubles falling below the half. *)
Theorem progressPercentage_formula state :
  let total := Z.of_nat (length (notes state)) in
  let launchedCount := Z.of_nat (length (getLaunchedNotes state)) in
  total < 2 ^ 32 →
  0 ≤ launchedCount ≤ total
  ∧ (total = 0 → progressPercentage state = 0%float)
  ∧ (0 < total →
     ∃ r, progressPercentage state = ofZ r ∧ 0 ≤ r ≤ 100
          ∧ (r = roundedPercent launchedCount total
             ∨ (r = roundedPercent launchedCount total - 1
                ∧ 200 * launchedCount + total
                  = 2 * total * roundedPercent launchedCount total))).
Proof.
  intros total launchedCount Hbound.
  assert (length (getLaunchedNotes state) ≤ length (notes state))%nat as Hle
    by apply length_filter.
  split; [lia|]. unfold progressPercentage. split.
  - intros H0. destruct (Nat.ltb_spec 0 (length (notes state))); [lia|done].
  - intros Hpos. destruct (Nat.ltb_spec 0 (length (notes state))); [|lia].
    destruct (percentFigure_rounded (length (getLaunchedNotes state))
                (length (notes state))) as (r & Hr & Hcases); [done|lia|].
    fold total launchedCount in Hcases.
    destruct (roundedPercent_bounds launchedCount total) as [_ Hb]; [lia|lia|].
    exists r. split; [exact Hr|]. split; [|done].
    destruct Hcases as [->|[-> Htie]]; [lia|].
    assert (roundedPercent launchedCount total ≠ 0); [|lia].
    intros H0. rewrite H0 in Htie. lia.
Qed.

(** The figure of a collection of eight notes with one launched: the exact
    percentage is 12.5 and the figure 13. *)
Lemma progressPercentage_formula_witness :
  ∃ r, progressPercentage (progressSample 1 8) = ofZ r ∧ 0 ≤ r ≤ 100
       ∧ (r = roundedPercent 1 8
          ∨ (r = roundedPercent 1 8 - 1 ∧ 200 * 1 + 8 = 2 * 8 * roundedPercent 1 8)).
Proof.
  apply (progressPercentage_formula (progressSample 1 8)).
  - vm_compute. reflexivity.
  - vm_compute. reflexivity.
Defined.

(** Counterexample to C9 as written: of forty notes twenty-three are
    launched; the exact percentage is 57.5, which rounds to 58, and the
    figure is 57, the quotient of doubles times 100 being
    57.49999999999999. *)
Lemma tie_of_23_in_40_rounds_down :
  length (notes (progressSample 23 40)) = 40%nat
  ∧ length (getLaunchedNotes (progressSample 23 40)) = 23%nat
  ∧ 2 * (100 * 23) = (2 * 57 + 1) * 40
  ∧ roundedPercent 23 40 = 58
  ∧ progressPercentage (progressSample 23 40) = ofZ 57
  ∧ PrimFloat.eqb (progressPercentage (progressSample 23 40)) (ofZ (roundedPercent 23 40))
    = false
  ∧ PrimFloat.ltb (toNumber 23 / toNumber 40 * 100) 57.5 = true.
Proof. by vm_compute. Qed.

(** Where the exact percentage ends in one half the double may fall on
    either side: 1 of 8 gives 13, while 23 of 40 and 29 of 200 give 57 and
    14, the product 57.49999999999999 and 14.499999999999998 lying below
    57.5 and 14.5. *)
Example progress_ties :
  percentFigure 1 8 = 13%float
  ∧ percentFigure 23 40 = 57%float
  ∧ percentFigure 29 200 = 14%float.
Proof. by vm_compute. Qed.

(** * Further properties *)

(** ** Normalizing and formatting tax ids *)

Lemma strip_non_digits_digits s :
  Forall (λ c, is_digit c = true) (list_ascii_of_string (strip_non_digits s)).
Proof.
  induction s as [|c s IH]; simpl; [constructor|].
  destruct (is_digit c) eqn:E; simpl; [by constructor|done].
Qed.

Lemma strip_non_digits_fixed s :
  Forall (λ c, is_digit c = true) (list_ascii_of_string s) → strip_non_digits s = s.
Proof.
  induction s as [|c s IH]; simpl; [done|].
  intros [Hc Hs]%Forall_cons. rewrite Hc. f_equal. auto.
Qed.

Lemma normalizeCnpj_Some s : normalizeCnpj (Some s) = strip_non_digits s.
Proof. unfold normalizeCnpj. case_decide; [by subst|done]. Qed.

Lemma normalizeCnpj_digits t :
  Forall (λ c, is_digit c = true) (list_ascii_of_string (normalizeCnpj t)).
Proof.
  destruct t as [s|]; [|constructor].
  rewrite normalizeCnpj_Some. apply strip_non_digits_digits.
Qed.

Lemma strip_non_digits_length s :
  (String.length (strip_non_digits s) ≤ String.length s)%nat.
Proof. induction s as [|c s IH]; simpl; [done|]. destruct (is_digit c); simpl; lia. Qed.

(** X1: normalizing keeps exactly the digits of its input, in their order:
    the result is the input with every character that is not one of the
    ten decimal digits removed (the empty string for a missing input).  So
    it holds digits only, is never longer than the input, leaves a string
    of digits as it is, and is idempotent. *)
Theorem normalizeCnpj_idempotent (t : option string) :
  list_ascii_of_string (normalizeCnpj t)
  = filter (λ c, c ∈ decimalDigits) (list_ascii_of_string (default EmptyString t))
  ∧ normalizeCnpj (Some (normalizeCnpj t)) = normalizeCnpj t
  ∧ Forall (λ c, c ∈ decimalDigits) (list_ascii_of_string (normalizeCnpj t))
  ∧ (String.length (normalizeCnpj t) ≤ String.length (default EmptyString t))%nat
  ∧ (∀ s, Forall (λ c, c ∈ decimalDigits) (list_ascii_of_string s) →
          normalizeCnpj (Some s) = s).
Proof.
  assert (∀ s, Forall (λ c, c ∈ decimalDigits) (list_ascii_of_string s) →
               normalizeCnpj (Some s) = s) as Hfix.
  { intros s Hs. rewrite normalizeCnpj_Some. apply strip_non_digits_fixed.
    eapply Forall_impl; [exact Hs|]. intros c Hc. simpl.
    rewrite is_digit_decimal. by apply bool_decide_eq_true_2. }
  assert (Forall (λ c, c ∈ decimalDigits) (list_ascii_of_string (normalizeCnpj t))) as Hd.
  { eapply Forall_impl; [apply normalizeCnpj_digits|]. intros c Hc. simpl in Hc.
    rewrite is_digit_decimal in Hc. by apply bool_decide_eq_true_1 in Hc. }
  split.
  { rewrite normalizeCnpj_digitsOf. unfold digitsOf.
    apply list_ascii_of_string_of_list_ascii. }
  split; [by apply Hfix|]. split; [done|]. split; [|done].
  destruct t as [s|]; [|done].
  rewrite normalizeCnpj_Some. apply strip_non_digits_length.
Qed.

Lemma strip_non_digits_keep c s :
  is_digit c = true → strip_non_digits (String c s) = String c (strip_non_digits s).
Proof. intros H. simpl. by rewrite H. Qed.

Lemma strip_non_digits_drop c s :
  is_digit c = false → strip_non_digits (String c s) = strip_non_digits s.
Proof. intros H. simpl. by rewrite H. Qed.

Lemma punctuated_digits d :
  String.length d = 14%nat →
  Forall (λ c, is_digit c = true) (list_ascii_of_string d) →
  String.length (punctuated d) = 18%nat
  ∧ strip_non_digits (punctuated d) = d
  ∧ String.get 2 (punctuated d) = Some "."%char
  ∧ String.get 6 (punctuated d) = Some "."%char
  ∧ String.get 10 (punctuated d) = Some "/"%char
  ∧ String.get 15 (punctuated d) = Some "-"%char.
Proof.
  intros Hlen Hd.
  do 14 (destruct d as [|? d]; [discriminate|]).
  destruct d; [|discriminate].
  simpl in Hd. repeat (apply Forall_cons in Hd as [? Hd]).
  split; [reflexivity|]. split; [|by repeat split].
  set (p := punctuated _). vm_compute in p. subst p.
  repeat first [ rewrite strip_non_digits_keep by assumption
               | rewrite strip_non_digits_drop by reflexivity ].
  reflexivity.
Qed.

Lemma formatCnpj_14 t :
  String.length (normalizeCnpj t) = 14%nat → formatCnpj t = punctuated (normalizeCnpj t).
Proof. intros H. unfold formatCnpj. by rewrite decide_False by (rewrite H; lia). Qed.

(** X2: when the input holds exactly fourteen digits, [formatCnpj] returns
    the eighteen characters XX.XXX.XXX/XXXX-XX, which normalize back to the
    same digits; formatting the formatted or the normalized form gives the
    same result.  Any other input is returned as it is (the empty string
    for null).  The two tax id members of every unit of the catalog agree
    under it. *)
Theorem formatCnpj_round_trip (t : option string) :
  (String.length (normalizeCnpj t) = 14%nat →
     String.length (formatCnpj t) = 18%nat
     ∧ String.get 2 (formatCnpj t) = Some "."%char
     ∧ String.get 6 (formatCnpj t) = Some "."%char
     ∧ String.get 10 (formatCnpj t) = Some "/"%char
     ∧ String.get 15 (formatCnpj t) = Some "-"%char
     ∧ normalizeCnpj (Some (formatCnpj t)) = normalizeCnpj t
     ∧ formatCnpj (Some (formatCnpj t)) = formatCnpj t
     ∧ formatCnpj (Some (normalizeCnpj t)) = formatCnpj t)
  ∧ (String.length (normalizeCnpj t) ≠ 14%nat → formatCnpj t = default EmptyString t)
  ∧ Forall (λ f, formatCnpj (Some (cnpj f)) = cnpjFormatado f
                 ∧ normalizeCnpj (Some (cnpjFormatado f)) = cnpj f) FILIAIS.
Proof.
  split; [|split].
  - intros Hlen.
    destruct (punctuated_digits (normalizeCnpj t) Hlen (normalizeCnpj_digits t))
      as (H18 & Hstrip & H2 & H6 & H10 & H15).
    assert (normalizeCnpj (Some (formatCnpj t)) = normalizeCnpj t) as Hback.
    { by rewrite normalizeCnpj_Some, formatCnpj_14, Hstrip. }
    assert (normalizeCnpj (Some (normalizeCnpj t)) = normalizeCnpj t) as Hidem.
    { rewrite normalizeCnpj_Some. apply strip_non_digits_fixed, normalizeCnpj_digits. }
    rewrite (formatCnpj_14 t Hlen). repeat split; try done.
    + by rewrite <- (formatCnpj_14 t Hlen).
    + rewrite <- (formatCnpj_14 t Hlen) at 1.
      rewrite formatCnpj_14 by (by rewrite Hback). by rewrite Hback.
    + rewrite formatCnpj_14 by (by rewrite Hidem). by rewrite Hidem.
  - intros Hlen. unfold formatCnpj. by rewrite decide_True.
  - apply (bool_decide_unpack _). vm_compute. exact I.
Qed.

Lemma normalizeCnpj_formatCnpj t :
  normalizeCnpj (Some (formatCnpj t)) = normalizeCnpj t.
Proof.
  destruct (decide (String.length (normalizeCnpj t) = 14%nat)) as [Hlen|Hlen].
  - rewrite normalizeCnpj_Some, formatCnpj_14 by done.
    by apply punctuated_digits; [|apply normalizeCnpj_digits].
  - unfold formatCnpj. rewrite decide_True by done.
    destruct t as [s|]; [done|reflexivity].
Qed.

Lemma FILIAIS_group_prefix f :
  f ∈ FILIAIS → String.prefix "11858570" (cnpj f) = true.
Proof.
  assert (Forall (λ f, String.prefix "11858570" (cnpj f) = true) FILIAIS) as H.
  { apply (bool_decide_unpack _). vm_compute. exact I. }
  rewrite Forall_forall in H. apply H.
Qed.

(** X3: every tax id that resolves to a unit passes the group test, and
    formatting a tax id changes neither the unit it resolves to nor the
    outcome of the group test. *)
Theorem resolution_within_group (t : option string) :
  (∀ f, getFilialByCnpj t = Some f → isIghCnpj t = true)
  ∧ getFilialByCnpj (Some (formatCnpj t)) = getFilialByCnpj t
  ∧ isIghCnpj (Some (formatCnpj t)) = isIghCnpj t.
Proof.
  split; [|split].
  - intros f. unfold getFilialByCnpj, lookupCnpj, isIghCnpj, cnpjToFilialMap.
    case_decide; [done|]. intros (Hin & _ & Hk)%buildIndex_Some.
    rewrite <- Hk. by apply FILIAIS_group_prefix.
  - unfold getFilialByCnpj, lookupCnpj. by rewrite normalizeCnpj_formatCnpj.
  - unfold isIghCnpj. by rewrite normalizeCnpj_formatCnpj.
Qed.

(** ** The index does not depend on the order of the catalog *)

Lemma sublist_filter_weaken {A} (P Q : A → Prop)
    `{!∀ x, Decision (P x), !∀ x, Decision (Q x)} (l : list A) :
  (∀ x, P x → Q x) → sublist (filter P l) (filter Q l).
Proof.
  intros HPQ. induction l as [|x l IH]; [constructor|].
  rewrite !filter_cons. destruct (decide (P x)) as [HP|HP].
  - rewrite decide_True by auto. by constructor.
  - destruct (decide (Q x)); [by constructor|done].
Qed.

Lemma claimants_at_most_one catalog k :
  NoDup (cnpj <$> filter admitted catalog) → (length (claimants catalog k) ≤ 1)%nat.
Proof.
  intros Hnd.
  assert (NoDup (cnpj <$> claimants catalog k)) as Hnd'.
  { eapply sublist_NoDup; [exact Hnd|]. apply fmap_sublist.
    unfold claimants. apply sublist_filter_weaken. tauto. }
  assert (Forall (λ f, cnpj f = k) (claimants catalog k)) as Hall.
  { apply Forall_forall. intros f Hf. apply list_elem_of_filter in Hf. tauto. }
  destruct (claimants catalog k) as [|f [|g rest]]; simpl; [lia..|].
  apply Forall_cons in Hall as [Hf Hall]. apply Forall_cons in Hall as [Hg _].
  simpl in Hnd'. apply NoDup_cons in Hnd' as [Hnotin _].
  destruct Hnotin. rewrite Hf, Hg. apply list_elem_of_here.
Qed.

Lemma buildIndex_Permutation catalog catalog' :
  catalog' ≡ₚ catalog →
  NoDup (cnpj <$> filter admitted catalog) →
  buildIndex catalog' = buildIndex catalog.
Proof.
  intros Hperm Hnd. apply map_eq. intros k. rewrite !lookup_buildIndex.
  assert (claimants catalog' k ≡ₚ claimants catalog k) as Hc.
  { unfold claimants. by rewrite Hperm. }
  pose proof (claimants_at_most_one catalog k Hnd) as Hlen.
  destruct (claimants catalog k) as [|f [|g rest]]; simpl in Hlen; [| |lia].
  - by apply Permutation_nil_r in Hc as ->.
  - by apply Permutation_singleton_r in Hc as ->.
Qed.

(** X4: the compiled-in index does not depend on the order in which the
    catalog lists the units: every reordering of the catalog builds the
    same index, so every tax id resolves to the same unit. *)
Theorem index_independent_of_catalog_order (catalog : list Filial) :
  catalog ≡ₚ FILIAIS →
  buildIndex catalog = cnpjToFilialMap
  ∧ ∀ t, lookupCnpj (buildIndex catalog) t = getFilialByCnpj t.
Proof.
  intros Hperm.
  assert (buildIndex catalog = cnpjToFilialMap) as Heq.
  { apply buildIndex_Permutation; [done|].
    apply (bool_decide_unpack _). vm_compute. exact I. }
  split; [done|]. intros t. unfold getFilialByCnpj. by rewrite Heq.
Qed.

(** The catalog read from its last unit to its first. *)
Lemma index_independent_of_catalog_order_witness :
  buildIndex (reverse FILIAIS) = cnpjToFilialMap
  ∧ ∀ t, lookupCnpj (buildIndex (reverse FILIAIS)) t = getFilialByCnpj t.
Proof.
  apply (index_independent_of_catalog_order (reverse FILIAIS)).
  apply reverse_Permutation.
Defined.

(** ** States with units *)

Lemma unitsLe_total a b : unitsLe a b = true ∨ unitsLe b a = true.
Proof.
  revert b. induction a as [|x a IH]; intros [|y b]; simpl; auto.
  destruct (N.ltb_spec x y), (N.ltb_spec y x); auto; lia.
Qed.

Lemma unitsLe_trans a b c : unitsLe a b = true → unitsLe b c = true → unitsLe a c = true.
Proof.
  revert b c. induction a as [|x a IH]; intros [|y b] [|z c]; simpl; try done.
  destruct (N.ltb_spec x y), (N.ltb_spec y x), (N.ltb_spec y z), (N.ltb_spec z y),
    (N.ltb_spec x z), (N.ltb_spec z x); try done; try lia.
  apply IH.
Qed.

#[local] Instance codeUnitLe_total : Total codeUnitLe.
Proof. intros a b. apply unitsLe_total. Qed.

#[local] Instance codeUnitLe_trans : Transitive codeUnitLe.
Proof. intros a b c. apply unitsLe_trans. Qed.

(** On ASCII strings the code units are the bytes. *)
Lemma codeUnits_ascii s :
  Forall (λ c, (N_of_ascii c < 128)%N) (list_ascii_of_string s) →
  codeUnits s = N_of_ascii <$> list_ascii_of_string s.
Proof.
  induction s as [|c s IH]; [done|].
  intros [Hc Hs]%Forall_cons. cbn [codeUnits list_ascii_of_string fmap list_fmap].
  destruct (N.ltb_spec (N_of_ascii c) 192); [|lia]. f_equal. by apply IH.
Qed.

Lemma setAdd_elem x y s : x ∈ setAdd y s ↔ x ∈ s ∨ x = y.
Proof.
  unfold setAdd. case_decide as Hy.
  - split; [auto|]. by intros [?| ->].
  - rewrite elem_of_app, list_elem_of_singleton. tauto.
Qed.

Lemma setAdd_NoDup y s : NoDup s → NoDup (setAdd y s).
Proof.
  intros Hnd. unfold setAdd. case_decide as Hy; [done|].
  apply NoDup_app. split; [done|]. split; [|apply NoDup_singleton].
  intros x Hx ->%list_elem_of_singleton. done.
Qed.

Lemma ufs_fold_spec (catalog : list Filial) :
  NoDup (foldl (λ ufs f, setAdd (uf f) ufs) [] catalog)
  ∧ ∀ u, u ∈ foldl (λ ufs f, setAdd (uf f) ufs) [] catalog ↔ ∃ f, f ∈ catalog ∧ uf f = u.
Proof.
  induction catalog as [|f l [IHnd IHin]] using rev_ind.
  - split; [constructor|]. intros u. simpl. split; [by intros ?%elem_of_nil|].
    by intros (f & ?%elem_of_nil & _).
  - rewrite foldl_snoc. split; [by apply setAdd_NoDup|].
    intros u. rewrite setAdd_elem, IHin. split.
    + intros [(g & Hg & Hu)| ->].
      * exists g. split; [|done]. apply elem_of_app. by left.
      * exists f. split; [|done]. apply elem_of_app. right. apply list_elem_of_here.
    + intros (g & Hg & Hu). apply elem_of_app in Hg as [Hg|Hg].
      * left. by exists g.
      * right. apply list_elem_of_singleton in Hg. by subst.
Qed.

(** X5: for any catalog, the list of states with units is in ascending
    order of UTF-16 code units, each state standing before all that follow
    it, it has no repetition, and it holds exactly the states of the units
    of the catalog.  For the compiled-in catalog it is BA, ES, GO, MG, PI,
    RJ, RN, SE.  Outside ASCII the order is that of the code units and not
    of the bytes: U+1D400 (surrogates D835 DC00) goes before U+FF21. *)
Theorem ufsComUnidades_sorted_exact (catalog : list Filial) :
  StronglySorted codeUnitLe (ufsComUnidades catalog)
  ∧ NoDup (ufsComUnidades catalog)
  ∧ (∀ u, u ∈ ufsComUnidades catalog ↔ ∃ f, f ∈ catalog ∧ uf f = u)
  ∧ getUfsComUnidades = ["BA"; "ES"; "GO"; "MG"; "PI"; "RJ"; "RN"; "SE"]
  ∧ ufsComUnidades [unitIn fullwidthA; unitIn "BA"; unitIn mathBoldA; unitIn "BA"]
    = ["BA"; mathBoldA; fullwidthA].
Proof.
  destruct (ufs_fold_spec catalog) as [Hnd Hin].
  split; [|split; [|split; [|split]]].
  - apply StronglySorted_merge_sort; apply _.
  - unfold ufsComUnidades. by rewrite merge_sort_Permutation.
  - intros u. unfold ufsComUnidades. by rewrite merge_sort_Permutation.
  - vm_compute. reflexivity.
  - vm_compute. reflexivity.
Qed.

Lemma concat_filter_by_key {A} (key : A → string) (ks : list string) (l : list A) :
  NoDup ks → (∀ x, x ∈ l → key x ∈ ks) →
  concat ((λ k, filter (λ x, key x = k) l) <$> ks) ≡ₚ l.
Proof.
  intros Hnd. induction l as [|x l IH]; intros Hcover.
  - clear Hnd Hcover. induction ks as [|k ks IHk]; [done|].
    rewrite fmap_cons. simpl. by rewrite IHk.
  - transitivity (x :: concat ((λ k, filter (λ y, key y = k) l) <$> ks));
      [|f_equiv; apply IH; intros y Hy; apply Hcover; by apply list_elem_of_further].
    assert (key x ∈ ks) as Hx by apply Hcover, list_elem_of_here.
    clear IH Hcover. induction Hnd as [|k ks Hk Hnd IHk]; [by apply elem_of_nil in Hx|].
    simpl. rewrite filter_cons. destruct (decide (key x = k)) as [Hxk|Hxk].
    + simpl. f_equiv. f_equiv.
      assert (key x ∉ ks) as Hnot by (by rewrite Hxk).
      clear IHk Hnd Hk Hx. induction ks as [|k' ks IH']; [done|].
      simpl. rewrite filter_cons_False.
      * f_equiv. apply IH'. intros Hin. apply Hnot. by apply list_elem_of_further.
      * intros Heq. apply Hnot. rewrite Heq. apply list_elem_of_here.
    + apply elem_of_cons in Hx as [Hx|Hx]; [done|].
      rewrite IHk by done. by rewrite Permutation_middle.
Qed.

(** X6: for any catalog, the units of a state are listed in catalog order
    and all lie in that state; a state has units exactly when it is in the
    list of states; and the lists of the states, taken together, hold every
    unit of the catalog exactly once. *)
Theorem filialPorUf_partition (catalog : list Filial) :
  (∀ estado, sublist (filialPorUf catalog estado) catalog
             ∧ Forall (λ f, uf f = estado) (filialPorUf catalog estado)
             ∧ (filialPorUf catalog estado ≠ [] ↔ estado ∈ ufsComUnidades catalog))
  ∧ concat (filialPorUf catalog <$> ufsComUnidades catalog) ≡ₚ catalog.
Proof.
  destruct (ufs_fold_spec catalog) as [Hnd Hin].
  assert (∀ u, u ∈ ufsComUnidades catalog ↔ ∃ f, f ∈ catalog ∧ uf f = u) as Hin'.
  { intros u. unfold ufsComUnidades. by rewrite merge_sort_Permutation. }
  split.
  - intros estado. unfold filialPorUf. split; [apply sublist_filter|]. split.
    + apply Forall_forall. by intros f [? _]%list_elem_of_filter.
    + rewrite Hin'. split.
      * intros Hne. destruct (filter _ catalog) as [|f l] eqn:E; [done|].
        assert (f ∈ filter (λ f, uf f = estado) catalog) as Hf
          by (rewrite E; apply list_elem_of_here).
        apply list_elem_of_filter in Hf as [? ?]. eauto.
      * intros (f & Hf & Hu) E.
        assert (f ∈ filter (λ f, uf f = estado) catalog) as Hf'
          by (by apply list_elem_of_filter).
        rewrite E in Hf'. by apply elem_of_nil in Hf'.
  - unfold filialPorUf. apply concat_filter_by_key.
    + unfold ufsComUnidades. by rewrite merge_sort_Permutation.
    + intros f Hf. apply Hin'. eauto.
Qed.

(** ** The store: getters, transitions and their compositions *)

(** X7: the pending, launched and rejected getters split the collection:
    every note is in exactly one of them, so the three counts add up to
    the number of notes. *)
Theorem status_getters_partition (state : NotesStore) :
  (getPendingNotes state ++ getLaunchedNotes state ++ getRejectedNotes state)%list
    ≡ₚ notes state
  ∧ (length (getPendingNotes state) + length (getLaunchedNotes state)
     + length (getRejectedNotes state) = length (notes state))%nat
  ∧ ∀ n, ¬ (countsAsPending n ∧ hasStatus launched n)
         ∧ ¬ (countsAsPending n ∧ hasStatus rejected n)
         ∧ ¬ (hasStatus launched n ∧ hasStatus rejected n)
         ∧ (countsAsPending n ∨ hasStatus launched n ∨ hasStatus rejected n).
Proof.
  assert (∀ n, ¬ (countsAsPending n ∧ hasStatus launched n)
         ∧ ¬ (countsAsPending n ∧ hasStatus rejected n)
         ∧ ¬ (hasStatus launched n ∧ hasStatus rejected n)
         ∧ (countsAsPending n ∨ hasStatus launched n ∨ hasStatus rejected n)) as Hcases.
  { intros n. unfold countsAsPending, hasStatus.
    destruct (launchInfo n) as [li|]; simpl; [|intuition congruence].
    destruct (status li); intuition congruence. }
  assert ((getPendingNotes state ++ getLaunchedNotes state ++ getRejectedNotes state)%list
            ≡ₚ notes state) as Hperm.
  { unfold getPendingNotes, getLaunchedNotes, getRejectedNotes.
    induction (notes state) as [|n l IH]; [done|].
    rewrite !filter_cons.
    destruct (Hcases n) as (Hpl & Hpr & Hlr & Hany).
    destruct (decide (countsAsPending n)), (decide (hasStatus launched n)),
      (decide (hasStatus rejected n)); try tauto.
    - simpl. by rewrite IH.
    - simpl. rewrite <- !Permutation_middle. by rewrite IH.
    - rewrite <- !Permutation_middle. by rewrite IH. }
  split; [done|]. split; [|done].
  rewrite <- Hperm, !length_app. lia.
Qed.

Lemma mapMatching_twice id f g R S w :
  noteStep f R → noteStep g S →
  (∀ n n', R n n' → note_id n' = note_id n) →
  ∃ w1 w2,
    mapMatching id f w = Normal (tt, w1)
    ∧ mapMatching id g w1 = Normal (tt, w2)
    ∧ selectedNoteId (zustand w2) = selectedNoteId (zustand w)
    ∧ Forall2 (λ n n'', if decide (note_id n = id)
                        then ∃ n', R n n' ∧ S n' n''
                        else n'' = n)
        (notes (zustand w)) (notes (zustand w2)).
Proof.
  intros Hf Hg Hid.
  destruct (mapMatching_spec id f R w Hf) as (w1 & Hrun1 & Hsel1 & _ & HF1).
  destruct (mapMatching_spec id g S w1 Hg) as (w2 & Hrun2 & Hsel2 & _ & HF2).
  exists w1, w2. split; [done|]. split; [done|]. split; [congruence|].
  eapply Forall2_trans; [|exact HF1|exact HF2].
  simpl. intros n n' n'' H1 H2.
  destruct (decide (note_id n = id)) as [Hn|Hn].
  - rewrite decide_True in H2 by (by rewrite (Hid _ _ H1)). eauto.
  - subst n'. by rewrite decide_False in H2.
Qed.

(** X8: a reset after a launch, or after a rejection, leaves every note of
    that id pending with no launch or rejection member at all, and every
    other note and the selection as they were; notes that were freshly
    pending are back exactly as before. *)
Theorem reset_undoes_transition wallClock id who obs reason w :
  (∃ w1 w2,
     markAsLaunched wallClock id who obs w = Normal (tt, w1)
     ∧ resetLaunchStatus id w1 = Normal (tt, w2)
     ∧ selectedNoteId (zustand w2) = selectedNoteId (zustand w)
     ∧ Forall2 (λ n n', if decide (note_id n = id)
                        then n' = withLaunchInfo n pendingInfo else n' = n)
         (notes (zustand w)) (notes (zustand w2))
     ∧ (Forall (λ n, note_id n = id → launchInfo n = Some pendingInfo) (notes (zustand w)) →
          notes (zustand w2) = notes (zustand w)))
  ∧ (∃ w1 w2,
       markAsRejected wallClock id reason who w = Normal (tt, w1)
       ∧ resetLaunchStatus id w1 = Normal (tt, w2)
       ∧ selectedNoteId (zustand w2) = selectedNoteId (zustand w)
       ∧ Forall2 (λ n n', if decide (note_id n = id)
                          then n' = withLaunchInfo n pendingInfo else n' = n)
           (notes (zustand w)) (notes (zustand w2))
       ∧ (Forall (λ n, note_id n = id → launchInfo n = Some pendingInfo) (notes (zustand w)) →
            notes (zustand w2) = notes (zustand w))).
Proof.
  assert (∀ l l' : list ProcessedNote,
            Forall2 (λ n n', if decide (note_id n = id)
                             then n' = withLaunchInfo n pendingInfo else n' = n) l l' →
            Forall (λ n, note_id n = id → launchInfo n = Some pendingInfo) l → l' = l) as Hback.
  { intros l l' HF. induction HF as [|n n' l l' Hn _ IH]; [done|].
    intros [Hp Hl]%Forall_cons. f_equal; [|by apply IH].
    destruct (decide (note_id n = id)) as [Hid|Hid]; [|done].
    subst n'. destruct n as [? ? ? ? li ?]. unfold withLaunchInfo. simpl in *.
    by rewrite (Hp Hid). }
  split.
  - destruct (mapMatching_twice id _ _ _ _ w
                (launchNote_step wallClock who obs) resetNote_step)
      as (w1 & w2 & H1 & H2 & Hsel & HF); [by intros n n' [now ->]|].
    assert (Forall2 (λ n n', if decide (note_id n = id)
                             then n' = withLaunchInfo n pendingInfo else n' = n)
              (notes (zustand w)) (notes (zustand w2))) as HF'.
    { eapply Forall2_impl; [exact HF|]. simpl. intros n n'' Hn.
      destruct (decide (note_id n = id)); [|done].
      by destruct Hn as (n' & [now ->] & ->). }
    exists w1, w2. repeat split; try done. by apply Hback.
  - destruct (mapMatching_twice id _ _ _ _ w
                (rejectNote_step wallClock reason who) resetNote_step)
      as (w1 & w2 & H1 & H2 & Hsel & HF); [by intros n n' [now ->]|].
    assert (Forall2 (λ n n', if decide (note_id n = id)
                             then n' = withLaunchInfo n pendingInfo else n' = n)
              (notes (zustand w)) (notes (zustand w2))) as HF'.
    { eapply Forall2_impl; [exact HF|]. simpl. intros n n'' Hn.
      destruct (decide (note_id n = id)); [|done].
      by destruct Hn as (n' & [now ->] & ->). }
    exists w1, w2. repeat split; try done. by apply Hback.
Qed.

(** X9: launching again simply overwrites: after two launches of an id the
    notes of that id are as after the second launch alone, with the
    operator and note of the second call, whatever the first call passed,
    and likewise for two rejections. *)
Theorem repeated_transition_overwrites wallClock id who1 obs1 who2 obs2 r1 r2 w :
  (∃ w1 w2,
     markAsLaunched wallClock id who1 obs1 w = Normal (tt, w1)
     ∧ markAsLaunched wallClock id who2 obs2 w1 = Normal (tt, w2)
     ∧ Forall2 (λ n n', if decide (note_id n = id)
                        then ∃ now, n' = withLaunchInfo n
                                           (launchedInfo (launchInfo n) now who2 obs2)
                        else n' = n)
         (notes (zustand w)) (notes (zustand w2)))
  ∧ (∃ w1 w2,
       markAsRejected wallClock id r1 who1 w = Normal (tt, w1)
       ∧ markAsRejected wallClock id r2 who2 w1 = Normal (tt, w2)
       ∧ Forall2 (λ n n', if decide (note_id n = id)
                          then ∃ now, n' = withLaunchInfo n
                                             (rejectedInfo (launchInfo n) now r2 who2)
                          else n' = n)
           (notes (zustand w)) (notes (zustand w2))).
Proof.
  split.
  - destruct (mapMatching_twice id _ _ _ _ w
                (launchNote_step wallClock who1 obs1) (launchNote_step wallClock who2 obs2))
      as (w1 & w2 & H1 & H2 & _ & HF); [by intros n n' [now ->]|].
    exists w1, w2. split; [done|]. split; [done|].
    eapply Forall2_impl; [exact HF|]. simpl. intros n n'' Hn.
    destruct (decide (note_id n = id)); [|done].
    destruct Hn as (n' & [t1 ->] & [t2 ->]). by exists t2.
  - destruct (mapMatching_twice id _ _ _ _ w
                (rejectNote_step wallClock r1 who1) (rejectNote_step wallClock r2 who2))
      as (w1 & w2 & H1 & H2 & _ & HF); [by intros n n' [now ->]|].
    exists w1, w2. split; [done|]. split; [done|].
    eapply Forall2_impl; [exact HF|]. simpl. intros n n'' Hn.
    destruct (decide (note_id n = id)); [|done].
    destruct Hn as (n' & [t1 ->] & [t2 ->]). by exists t2.
Qed.

Lemma find_filter_other (sel : option string) id (l : list ProcessedNote) :
  sel ≠ Some id →
  List.find (λ n, bool_decide (Some (note_id n) = sel)) (filter (λ n, note_id n ≠ id) l)
  = List.find (λ n, bool_decide (Some (note_id n) = sel)) l.
Proof.
  intros Hne. induction l as [|n l IH]; [done|].
  rewrite filter_cons. destruct (decide (note_id n ≠ id)) as [Hn|Hn]; simpl.
  - by rewrite IH.
  - rewrite bool_decide_eq_false_2; [done|].
    intros Heq. apply Hne. rewrite <- Heq. f_equal.
    by destruct (decide (note_id n = id)).
Qed.

(** X10: [getSelectedNote] returns the first note whose id is the selected
    one, or null when there is none.  Removing a note with another id
    leaves the selected note as it was, removing the notes of the selected
    id or clearing the collection leaves none selected, and selecting the
    id of a note of the collection selects a note with that id. *)
Theorem getSelectedNote_follows_selection (w : World) :
  getSelectedNote w = Normal (selectedIn (zustand w), w)
  ∧ (∀ n, selectedIn (zustand w) = Some n →
          n ∈ notes (zustand w) ∧ selectedNoteId (zustand w) = Some (note_id n))
  ∧ (selectedIn (zustand w) = None ↔
       ∀ n, n ∈ notes (zustand w) → selectedNoteId (zustand w) ≠ Some (note_id n))
  ∧ (∀ id, ∃ w',
       removeNote id w = Normal (tt, w')
       ∧ selectedIn (zustand w') =
           if decide (selectedNoteId (zustand w) = Some id) then None
           else selectedIn (zustand w))
  ∧ (∃ w', clearNotes w = Normal (tt, w') ∧ selectedIn (zustand w') = None)
  ∧ (∀ n, n ∈ notes (zustand w) →
          ∃ w' n', selectNote (Some (note_id n)) w = Normal (tt, w')
                   ∧ selectedIn (zustand w') = Some n'
                   ∧ note_id n' = note_id n ∧ n' ∈ notes (zustand w)).
Proof.
  unfold selectedIn.
  split; [reflexivity|]. split; [|split; [|split; [|split]]].
  - intros n Hn. apply find_some in Hn as [Hin Hb].
    apply bool_decide_eq_true in Hb. split; [by apply list_elem_of_In|done].
  - split.
    + intros Hnone n Hin Hsel. apply list_elem_of_In in Hin.
      pose proof (find_none _ _ Hnone n Hin) as Hb. simpl in Hb.
      apply bool_decide_eq_false in Hb. by rewrite Hsel in Hb.
    + intros Hno. destruct (find _ _) as [n|] eqn:E; [|done].
      apply find_some in E as [Hin Hb]. apply bool_decide_eq_true in Hb.
      apply list_elem_of_In in Hin. by destruct (Hno n Hin).
  - intros id. eexists. split; [reflexivity|]. simpl.
    destruct (decide (selectedNoteId (zustand w) = Some id)) as [Hs|Hs].
    + destruct (find _ _) as [n|] eqn:E; [|done].
      apply find_some in E as [_ Hb]. by apply bool_decide_eq_true in Hb.
    + by apply find_filter_other.
  - eexists. split; reflexivity.
  - intros n Hin. eexists. simpl.
    destruct (find (λ n0, bool_decide (Some (note_id n0) = Some (note_id n)))
                (notes (zustand w))) as [n'|] eqn:E.
    + exists n'. split; [reflexivity|]. simpl. rewrite E. split; [done|].
      apply find_some in E as [Hin' Hb]. apply bool_decide_eq_true in Hb.
      split; [congruence|by apply list_elem_of_In].
    + apply list_elem_of_In in Hin.
      pose proof (find_none _ _ E n Hin) as Hb. simpl in Hb.
      by apply bool_decide_eq_false in Hb.
Qed.

(** ** Ingestion in batch and one by one *)

Lemma imap_ingested_shift wallClock randomId d r (entries : list (string * NFeExtractResponse)) :
  imap (ingested wallClock randomId d r ∘ S) entries
  = imap (ingested wallClock randomId (S d) (S r)) entries.
Proof.
  apply imap_ext. intros i e _. unfold ingested. simpl.
  by rewrite <- !Nat.add_succ_comm.
Qed.

(** X11: ingesting a batch is the same as ingesting its entries one by
    one, in order: both end in the same world, with the same ids and
    times. *)
Theorem addNotes_as_sequence wallClock randomId
    (entries : list (string * NFeExtractResponse)) (w : World) :
  addNotes wallClock randomId entries w
  = runOps wallClock randomId ((λ e, AddNote e.1 e.2) <$> entries) w.
Proof.
  rewrite addNotes_run. revert w.
  induction entries as [|[fname payload] entries IH]; intros w.
  - simpl. rewrite app_nil_r, !Nat.add_0_r. by destruct w as [[??]??].
  - rewrite fmap_cons. simpl runOps. rewrite bind_run. simpl runOp.
    rewrite addNote_run. rewrite <- IH. simpl.
    rewrite imap_ingested_shift, <- (assoc_L (++)). simpl.
    by rewrite <- !Nat.add_succ_comm.
Qed.

(** ** Invariants of every run of the store *)

Section RunFacts.
Variable wallClock : nat → Date.
Variable randomId : nat → string.

Lemma addNote_as_addNotes fname payload w :
  addNote wallClock randomId fname payload w
  = addNotes wallClock randomId [(fname, payload)] w.
Proof.
  rewrite addNote_run, addNotes_run. simpl. by rewrite !Nat.add_1_r.
Qed.

Lemma mapMatching_ids id f R w :
  noteStep f R → (∀ n n', R n n' → frame n' = frame n) →
  ∃ w', mapMatching id f w = Normal (tt, w')
        ∧ note_id <$> notes (zustand w') = note_id <$> notes (zustand w)
        ∧ idDraws w' = idDraws w.
Proof.
  intros Hf HR.
  destruct (mapMatching_spec id f R w Hf) as (w' & Hrun & _ & Hd & HF).
  exists w'. split; [done|]. split; [|done].
  induction HF as [|n n' l l' Hn _ IH]; [done|].
  simpl. f_equal; [|done].
  destruct (decide (note_id n = id)); [|by subst].
  by injection (HR _ _ Hn).
Qed.

Lemma lifecycle_ids op w :
  ∃ w', runOp wallClock randomId (lifecycleCall op) w = Normal (tt, w')
        ∧ note_id <$> notes (zustand w') = note_id <$> notes (zustand w)
        ∧ idDraws w' = idDraws w.
Proof.
  destruct op as [id who obs|id reason who|id]; simpl.
  - eapply mapMatching_ids; [apply launchNote_step|]. by intros n n' [now ->].
  - eapply mapMatching_ids; [apply rejectNote_step|]. by intros n n' [now ->].
  - eapply mapMatching_ids; [apply resetNote_step|]. by intros n n' ->.
Qed.

(** Every call returns, and keeps a property of notes that ingestion
    establishes and a new launch record does not disturb. *)
Lemma runOp_Forall (P : ProcessedNote → Prop) op w :
  (∀ d r i e, P (ingested wallClock randomId d r i e)) →
  (∀ n li, P n → P (withLaunchInfo n li)) →
  Forall P (notes (zustand w)) →
  ∃ w', runOp wallClock randomId op w = Normal (tt, w') ∧ Forall P (notes (zustand w')).
Proof.
  intros Hnew Hli Hall.
  destruct op as [fname payload|entries|id| |sel|id who obs|id reason who|id]; simpl.
  - rewrite addNote_run. eexists. split; [done|]. simpl.
    apply Forall_app. split; [done|]. by repeat constructor.
  - rewrite addNotes_run. eexists. split; [done|]. simpl.
    apply Forall_app. split; [done|]. apply Forall_forall. intros n Hn.
    apply list_elem_of_lookup in Hn as [i Hn].
    by apply list_lookup_imap_Some in Hn as (e & _ & ->).
  - eexists. split; [done|]. simpl. rewrite Forall_forall in Hall.
    apply Forall_forall. intros n [_ Hn]%list_elem_of_filter. auto.
  - eexists. split; [done|]. constructor.
  - eexists. split; [done|]. done.
  - eapply mapMatching_Forall; [apply launchNote_step| |done].
    intros n n' HP [now ->]. by apply Hli.
  - eapply mapMatching_Forall; [apply rejectNote_step| |done].
    intros n n' HP [now ->]. by apply Hli.
  - eapply mapMatching_Forall; [apply resetNote_step| |done].
    intros n n' HP ->. by apply Hli.
Qed.

Lemma runOps_Forall (P : ProcessedNote → Prop) ops w :
  (∀ d r i e, P (ingested wallClock randomId d r i e)) →
  (∀ n li, P n → P (withLaunchInfo n li)) →
  Forall P (notes (zustand w)) →
  ∃ w', runOps wallClock randomId ops w = Normal (tt, w') ∧ Forall P (notes (zustand w')).
Proof.
  intros Hnew Hli. revert w. induction ops as [|op ops IH]; intros w Hall.
  - by exists w.
  - destruct (runOp_Forall P op w Hnew Hli Hall) as (w1 & Hrun & Hall1).
    destruct (IH w1 Hall1) as (w2 & Hrun2 & Hall2).
    exists w2. split; [|done]. simpl. by rewrite bind_run, Hrun.
Qed.

Hypothesis randomId_inj : ∀ i j, randomId i = randomId j → i = j.

Lemma addNotes_idsFresh entries w :
  idsFresh randomId w →
  ∃ w', addNotes wallClock randomId entries w = Normal (tt, w') ∧ idsFresh randomId w'.
Proof.
  intros [Hnd Hold]. rewrite addNotes_run. eexists. split; [done|].
  unfold idsFresh. simpl. rewrite fmap_app.
  assert (∀ i x, (note_id <$> imap (ingested wallClock randomId (idDraws w) (clockReads w))
                    entries) !! i = Some x →
                 (i < length entries)%nat ∧ x = randomId (idDraws w + i)) as Hnew.
  { intros i x. rewrite list_lookup_fmap, list_lookup_imap.
    destruct (entries !! i) as [e|] eqn:E; simpl; [|done].
    intros [= <-]. split; [|done]. by apply lookup_lt_Some in E. }
  split.
  - apply NoDup_app. split; [done|]. split.
    + intros x Hx Hx'. rewrite Forall_forall in Hold.
      destruct (Hold x Hx) as (k & Hk & ->).
      apply list_elem_of_lookup in Hx' as [i Hi].
      apply Hnew in Hi as [_ Hi]. apply randomId_inj in Hi. lia.
    + apply NoDup_alt. intros i j x Hi Hj.
      apply Hnew in Hi as [_ ->]. apply Hnew in Hj as [_ Hj].
      apply randomId_inj in Hj. lia.
  - apply Forall_app. split.
    + eapply Forall_impl; [exact Hold|]. simpl. intros x (k & Hk & ->).
      exists k. split; [lia|done].
    + apply Forall_forall. intros x Hx.
      apply list_elem_of_lookup in Hx as [i Hi]. apply Hnew in Hi as [Hi ->].
      eexists. split; [|done]. lia.
Qed.

Lemma runOp_idsFresh op w :
  idsFresh randomId w →
  ∃ w', runOp wallClock randomId op w = Normal (tt, w') ∧ idsFresh randomId w'.
Proof.
  intros Hw.
  destruct op as [fname payload|entries|id| |sel|id who obs|id reason who|id].
  - simpl. rewrite addNote_as_addNotes. by apply addNotes_idsFresh.
  - by apply addNotes_idsFresh.
  - destruct Hw as [Hnd Hold]. eexists. split; [reflexivity|].
    unfold idsFresh. simpl.
    assert (sublist (note_id <$> filter (λ n, note_id n ≠ id) (notes (zustand w)))
              (note_id <$> notes (zustand w))) as Hsub
      by apply fmap_sublist, sublist_filter.
    split; [by eapply sublist_NoDup|].
    rewrite Forall_forall in Hold. apply Forall_forall. intros x Hx.
    apply Hold. by eapply elem_of_sublist.
  - eexists. split; [reflexivity|]. split; [constructor|constructor].
  - eexists. split; [reflexivity|]. done.
  - destruct (lifecycle_ids (Launch id who obs) w) as (w' & Hrun & Hids & Hd).
    exists w'. split; [done|]. unfold idsFresh. by rewrite Hids, Hd.
  - destruct (lifecycle_ids (Reject id reason who) w) as (w' & Hrun & Hids & Hd).
    exists w'. split; [done|]. unfold idsFresh. by rewrite Hids, Hd.
  - destruct (lifecycle_ids (Reset id) w) as (w' & Hrun & Hids & Hd).
    exists w'. split; [done|]. unfold idsFresh. by rewrite Hids, Hd.
Qed.

Lemma runOps_idsFresh ops w :
  idsFresh randomId w →
  ∃ w', runOps wallClock randomId ops w = Normal (tt, w') ∧ idsFresh randomId w'.
Proof.
  revert w. induction ops as [|op ops IH]; intros w Hw.
  - by exists w.
  - destruct (runOp_idsFresh op w Hw) as (w1 & Hrun & Hw1).
    destruct (IH w1 Hw1) as (w2 & Hrun2 & Hw2).
    exists w2. split; [|done]. simpl. by rewrite bind_run, Hrun.
Qed.
End RunFacts.

Lemma unaryId_inj i j : unaryId i = unaryId j → i = j.
Proof.
  revert j. induction i as [|i IH]; intros [|j]; simpl; try done.
  intros [= H]. f_equal. by apply IH.
Qed.

(** X12: as long as the id generator never repeats a value, every sequence
    of calls of the store, from the empty store, returns and leaves notes
    with pairwise distinct ids. *)
Theorem ids_distinct_unless_generator_repeats
    (wallClock : nat → Date) (randomId : nat → string) (ops : list StoreOp) :
  (∀ i j, randomId i = randomId j → i = j) →
  ∃ w, runOps wallClock randomId ops initialWorld = Normal (tt, w)
       ∧ NoDup (note_id <$> notes (zustand w)).
Proof.
  intros Hinj.
  destruct (runOps_idsFresh wallClock randomId Hinj ops initialWorld) as (w & Hrun & Hnd & _).
  - split; constructor.
  - by exists w.
Qed.

(** A run with two ingestions, a launch and a removal. *)
Lemma ids_distinct_unless_generator_repeats_witness :
  ∃ w, runOps sampleClock unaryId
         [AddNote "a.xml" (payloadFor "11.858.570/0003-03");
          AddNotes [("b.xml", payloadFor "11858570000133");
                    ("c.xml", payloadFor "00000000000000")];
          MarkAsLaunched "x" None None;
          RemoveNote EmptyString] initialWorld = Normal (tt, w)
       ∧ NoDup (note_id <$> notes (zustand w)).
Proof.
  apply (ids_distinct_unless_generator_repeats sampleClock unaryId).
  exact unaryId_inj.
Defined.

(** When the generator does repeat, two notes share an id and a launch of
    that id launches both. *)
Example repeated_id_launches_both :
  ∃ w, runOps sampleClock (λ _, "same")
         [AddNote "a.xml" (payloadFor "11.858.570/0003-03");
          AddNote "b.xml" (payloadFor "11858570000133");
          MarkAsLaunched "same" None None] initialWorld = Normal (tt, w)
       ∧ note_id <$> notes (zustand w) = ["same"; "same"]
       ∧ length (getLaunchedNotes (zustand w)) = 2%nat.
Proof. eexists. split; [vm_compute; reflexivity|]. by split. Qed.

Lemma identifyFilial_Some t info :
  identifyFilial t = Some info →
  info_cnpj info = normalizeCnpj t
  ∧ ∃ f, f ∈ FILIAIS
         ∧ info_codigo info = codigo f ∧ info_nome info = nome f
         ∧ info_cnpj info = cnpj f ∧ info_cnpjFormatado info = cnpjFormatado f
         ∧ info_municipio info = municipio f ∧ info_uf info = uf f
         ∧ info_tipo info = tipo f.
Proof.
  unfold identifyFilial, getFilialByCnpj, lookupCnpj, cnpjToFilialMap.
  case_decide; [done|].
  destruct (buildIndex FILIAIS !! normalizeCnpj t) as [f|] eqn:E; [|done].
  intros [= <-]. simpl. apply buildIndex_Some in E as (Hin & _ & Hk).
  split; [done|]. exists f. by repeat split.
Qed.

(** X13: after every sequence of calls of the store, from the empty store,
    every note has a launch record, and its unit is the one its payload's
    buyer tax id resolves to: none when the id does not resolve, otherwise
    the copy of a unit of the catalog whose tax id is the normalized buyer
    tax id. *)
Theorem notes_attributed_from_payload
    (wallClock : nat → Date) (randomId : nat → string) (ops : list StoreOp) :
  ∃ w, runOps wallClock randomId ops initialWorld = Normal (tt, w)
       ∧ Forall (λ n,
           is_Some (launchInfo n)
           ∧ filial n = identifyFilial (dest (data n) ≫= doc)
           ∧ ∀ info, filial n = Some info →
               info_cnpj info = normalizeCnpj (dest (data n) ≫= doc)
               ∧ ∃ f, f ∈ FILIAIS
                      ∧ info_codigo info = codigo f ∧ info_nome info = nome f
                      ∧ info_cnpj info = cnpj f
                      ∧ info_cnpjFormatado info = cnpjFormatado f
                      ∧ info_municipio info = municipio f ∧ info_uf info = uf f
                      ∧ info_tipo info = tipo f)
           (notes (zustand w)).
Proof.
  destruct (runOps_Forall wallClock randomId
              (λ n, is_Some (launchInfo n)
                    ∧ filial n = identifyFilial (dest (data n) ≫= doc))
              ops initialWorld) as (w & Hrun & Hall).
  - intros d r i e. simpl. eauto.
  - intros n li [_ Hf]. simpl. eauto.
  - constructor.
  - exists w. split; [done|]. eapply Forall_impl; [exact Hall|]. simpl.
    intros n [Hli Hf]. split; [done|]. split; [done|].
    intros info Hinfo. rewrite Hf in Hinfo. by apply identifyFilial_Some.
Qed.

(** ** Statistics by unit *)

Section GroupFacts.
Context {N V : Type} (entry : N → option (Z * (V → V) * V)).

#[local] Instance keyOf_dec k n : Decision (keyOf entry n = Some k).
Proof. apply _. Defined.

Lemma mapGet_upsert k k' change fresh (m : list (Z * V)) :
  mapGet k (upsert k' change fresh m)
  = if decide (k' = k) then Some (from_option change fresh (mapGet k m)) else mapGet k m.
Proof.
  induction m as [|[k0 v] m IH]; simpl.
  - destruct (decide (k' = k)); by simpl.
  - destruct (decide (k0 = k')) as [->|Hne]; simpl.
    + destruct (decide (k' = k)); by simpl.
    + destruct (decide (k0 = k)) as [->|Hne'].
      * by rewrite decide_False by done.
      * apply IH.
Qed.

Lemma mapGet_None k (m : list (Z * V)) : mapGet k m = None ↔ k ∉ m.*1.
Proof.
  induction m as [|[k0 v] m IH]; simpl.
  - split; [intros _; apply not_elem_of_nil|done].
  - rewrite not_elem_of_cons. destruct (decide (k0 = k)) as [->|Hne].
    + split; [done|]. by intros [? _].
    + rewrite IH. split; [by intros ?; split|by intros [_ ?]].
Qed.

Lemma upsert_keys k change fresh (m : list (Z * V)) :
  (upsert k change fresh m).*1 = if decide (k ∈ m.*1) then m.*1 else (m.*1 ++ [k])%list.
Proof.
  induction m as [|[k0 v] m IH].
  - by rewrite decide_False by apply not_elem_of_nil.
  - cbn [upsert]. rewrite !fmap_cons. cbn [fst].
    destruct (decide (k0 = k)) as [->|Hne].
    + rewrite fmap_cons. by rewrite decide_True by apply list_elem_of_here.
    + rewrite fmap_cons, IH. cbn [fst]. destruct (decide (k ∈ m.*1)) as [Hin|Hin].
      * by rewrite decide_True by (by apply list_elem_of_further).
      * rewrite decide_False; [done|]. rewrite not_elem_of_cons. by split.
Qed.

Lemma groupFold_snoc m l n :
  foldl (groupStep entry) m (l ++ [n]) = groupStep entry (foldl (groupStep entry) m l) n.
Proof. apply foldl_snoc. Qed.

Lemma groupFold_keys_NoDup l : NoDup (foldl (groupStep entry) [] l).*1.
Proof.
  induction l as [|n l IH] using rev_ind; [constructor|].
  rewrite groupFold_snoc. unfold groupStep at 1.
  destruct (entry n) as [[[k change] fresh]|]; [|done].
  rewrite upsert_keys. case_decide as Hin; [done|].
  apply NoDup_app. split; [done|]. split; [|apply NoDup_singleton].
  by intros x Hx ->%list_elem_of_singleton.
Qed.

Lemma changes_keep_Some k rest (v : V) :
  Forall (λ n, keyOf entry n = Some k) rest →
  is_Some (foldl (λ ov n, match entry n with
                          | Some (_, change, _) => change <$> ov
                          | None => ov
                          end) (Some v) rest).
Proof.
  revert v. induction rest as [|n rest IH]; intros v Hrest; [by eexists|].
  apply Forall_cons in Hrest as [Hn Hrest]. simpl.
  unfold keyOf in Hn. destruct (entry n) as [[[? change] ?]|]; [|done].
  simpl. by apply IH.
Qed.

(** The value under a key is that of the notes of the key, taken in
    order: the fresh value of the first, changed by each of the others. *)
Lemma groupFold_lookup k l :
  mapGet k (foldl (groupStep entry) [] l)
  = match filter (λ n, keyOf entry n = Some k) l with
    | [] => None
    | first :: rest => afterAll entry first rest
    end.
Proof.
  induction l as [|n l IH] using rev_ind; [done|].
  rewrite groupFold_snoc, filter_app, filter_cons, filter_nil.
  assert (∀ first rest, In first (filter (λ n, keyOf entry n = Some k) l) →
            Forall (λ n, keyOf entry n = Some k) rest →
            is_Some (afterAll entry first rest)) as Hsome.
  { intros first rest Hfirst Hrest. unfold afterAll.
    apply list_elem_of_In, list_elem_of_filter in Hfirst as [Hfirst _].
    unfold keyOf in Hfirst. destruct (entry first) as [e|] eqn:E; [|done]. simpl.
    by apply (changes_keep_Some k). }
  unfold groupStep at 1.
  destruct (decide (keyOf entry n = Some k)) as [Hk|Hk];
    unfold keyOf in Hk; destruct (entry n) as [[[k' change] fresh]|] eqn:E;
    simpl in Hk; try done.
  - injection Hk as ->. rewrite mapGet_upsert, IH, decide_True by done.
    destruct (filter (λ n, keyOf entry n = Some k) l) as [|first rest] eqn:Ef; simpl.
    + unfold afterAll. simpl. by rewrite E.
    + unfold afterAll. rewrite foldl_snoc, E.
      fold (afterAll entry first rest).
      destruct (Hsome first rest) as [v Hv]; [by left| |by rewrite Hv].
      assert (Forall (λ n, keyOf entry n = Some k) (first :: rest)) as Hall.
      { rewrite <- Ef. apply Forall_forall. by intros x [? _]%list_elem_of_filter. }
      by apply Forall_cons in Hall as [_ ?].
  - rewrite mapGet_upsert, IH, decide_False by congruence. by rewrite app_nil_r.
  - by rewrite IH, app_nil_r.
Qed.

Lemma sum_upsert (c : V → nat) k change fresh (m : list (Z * V)) :
  c fresh = 1%nat → (∀ v, c (change v) = (c v + 1)%nat) →
  sum_list (c <$> (upsert k change fresh m).*2) = (sum_list (c <$> m.*2) + 1)%nat.
Proof.
  intros Hfresh Hchange. induction m as [|[k0 v] m IH]; [simpl; lia|].
  cbn [upsert]. destruct (decide (k0 = k)).
  - rewrite !fmap_cons. cbn [snd].
    set (s := sum_list (c <$> m.*2)) in *.
    change (c (change v) + s = c v + s + 1)%nat. rewrite Hchange. lia.
  - rewrite !fmap_cons. cbn [snd].
    set (s := sum_list (c <$> m.*2)) in *.
    set (s' := sum_list (c <$> (upsert k change fresh m).*2)) in *.
    change (c v + s' = c v + s + 1)%nat. lia.
Qed.

(** A measure that is 1 on fresh values and grows by one at each change
    adds up to the number of notes that have an entry. *)
Lemma groupFold_count (c : V → nat) l :
  (∀ n k change fresh, entry n = Some (k, change, fresh) →
     c fresh = 1%nat ∧ ∀ v, c (change v) = (c v + 1)%nat) →
  sum_list (c <$> (foldl (groupStep entry) [] l).*2)
  = length (filter (λ n, is_Some (entry n)) l).
Proof.
  intros Hc. induction l as [|n l IH] using rev_ind; [done|].
  rewrite groupFold_snoc, filter_app, length_app, <- IH, filter_cons, filter_nil.
  unfold groupStep at 1.
  destruct (entry n) as [[[k change] fresh]|] eqn:E.
  - rewrite decide_True by eauto. simpl.
    destruct (Hc n k change fresh E) as [Hfresh Hchange].
    by rewrite sum_upsert.
  - rewrite decide_False by (intros [? ?]; done). simpl. lia.
Qed.
End GroupFacts.

Section StatsFacts.
Variable vNF : NFeExtractResponse → option float.

Lemma foldl_ext_all {A B} (f g : A → B → A) a l :
  (∀ x y, f x y = g x y) → foldl f a l = foldl g a l.
Proof. intros H. revert a. induction l as [|y l IH]; intros a; simpl; [done|]. by rewrite H, IH. Qed.

Lemma getFilialStats_group state :
  getFilialStats vNF state = foldl (groupStep (statsEntry vNF)) [] (notes state).
Proof.
  unfold getFilialStats. apply foldl_ext_all. intros m n.
  unfold statsStep, groupStep, statsEntry. by destruct (filial n).
Qed.

Lemma statsEntry_key n : keyOf (statsEntry vNF) n = info_codigo <$> filial n.
Proof. unfold keyOf, statsEntry. by destruct (filial n). Qed.

Lemma statsEntry_is_Some n : is_Some (statsEntry vNF n) ↔ is_Some (filial n).
Proof. unfold statsEntry. destruct (filial n); split; intros [? ?]; eauto; done. Qed.

Lemma filter_ext_iff {A} (P Q : A → Prop)
    `{!∀ x, Decision (P x), !∀ x, Decision (Q x)} (l : list A) :
  (∀ x, P x ↔ Q x) → filter P l = filter Q l.
Proof. intros HPQ. by apply list_filter_iff. Qed.

Lemma statsEntry_afterAll c n0 rest :
  Forall (λ n, info_codigo <$> filial n = Some c) rest →
  afterAll (statsEntry vNF) n0 rest
  = (λ info, {| stat_filial := info; stat_count := S (length rest);
                stat_valor := valorOf vNF n0 rest |}) <$> filial n0.
Proof.
  induction rest as [|n rest IH] using rev_ind; intros Hrest.
  - unfold afterAll, statsEntry, valorOf. simpl. by destruct (filial n0).
  - apply Forall_app in Hrest as [Hrest [Hn _]%Forall_cons].
    unfold afterAll in *. rewrite foldl_snoc, IH by done.
    unfold valorOf. rewrite foldl_snoc, length_app. simpl.
    unfold statsEntry at 1. destruct (filial n) as [info|]; [|done].
    destruct (filial n0) as [info0|]; [|done]. simpl.
    do 2 f_equal; lia.
Qed.

(** X14: [getNotesByFilial] lists, in order, the notes whose unit has the
    given code.  [getFilialStats] has one entry per code that some note's
    unit has: it records the unit of the first such note, the number of
    such notes, and the sum of their values, added from left to right in
    the order of the collection, a missing value counting as 0.  Notes
    without unit are not counted, so the counts add up to the number of
    notes that have a unit. *)
Theorem getFilialStats_by_unit (state : NotesStore) :
  NoDup (getFilialStats vNF state).*1
  ∧ (∀ c, sublist (getNotesByFilial c state) (notes state)
          ∧ ∀ n, n ∈ getNotesByFilial c state ↔
                 (n ∈ notes state ∧ ∃ info, filial n = Some info ∧ info_codigo info = c))
  ∧ (∀ c, mapGet c (getFilialStats vNF state)
          = match getNotesByFilial c state with
            | [] => None
            | first :: rest =>
                (λ info, {| stat_filial := info;
                            stat_count := length (getNotesByFilial c state);
                            stat_valor := valorOf vNF first rest |}) <$> filial first
            end)
  ∧ sum_list (stat_count <$> (getFilialStats vNF state).*2)
    = length (filter (λ n, is_Some (filial n)) (notes state)).
Proof.
  rewrite getFilialStats_group.
  split; [apply groupFold_keys_NoDup|]. split; [|split].
  - intros c. unfold getNotesByFilial. split; [apply sublist_filter|].
    intros n. rewrite list_elem_of_filter.
    destruct (filial n) as [info|]; simpl.
    + split; [intros [[= <-] ?]; eauto|intros (? & info' & [= <-] & <-); done].
    + split; [by intros [? _]|by intros (_ & ? & ? & _)].
  - intros c. rewrite groupFold_lookup. unfold getNotesByFilial.
    rewrite (filter_ext_iff _ (λ n, info_codigo <$> filial n = Some c))
      by (intros n; by rewrite statsEntry_key).
    destruct (filter _ (notes state)) as [|n0 rest] eqn:E; [done|].
    apply (statsEntry_afterAll c).
    assert (Forall (λ n, info_codigo <$> filial n = Some c) (n0 :: rest)) as Hall.
    { rewrite <- E. apply Forall_forall. by intros x [? _]%list_elem_of_filter. }
    by apply Forall_cons in Hall as [_ ?].
  - rewrite (groupFold_count _ stat_count).
    + f_equal. apply filter_ext_iff. intros n. apply statsEntry_is_Some.
    + intros n k change fresh. unfold statsEntry.
      destruct (filial n); [|done]. intros [= <- <- <-]. split; [done|]. by intros v.
Qed.
End StatsFacts.

Lemma setFold_spec (xs : list string) :
  NoDup (foldl (λ s x, setAdd x s) [] xs)
  ∧ ∀ x, x ∈ foldl (λ s x, setAdd x s) [] xs ↔ x ∈ xs.
Proof.
  induction xs as [|y xs [IHnd IHin]] using rev_ind; [by split; [constructor|]|].
  rewrite foldl_snoc. split; [by apply setAdd_NoDup|].
  intros x. rewrite setAdd_elem, IHin, elem_of_app, list_elem_of_singleton. tauto.
Qed.

Lemma fornecedoresOf_snoc l n :
  fornecedoresOf (l ++ [n]) = addFornecedor (fornecedorOf n) (fornecedoresOf l).
Proof. unfold fornecedoresOf. by rewrite foldl_snoc. Qed.

Lemma fornecedoresOf_spec (l : list ProcessedNote) :
  NoDup (fornecedoresOf l)
  ∧ ∀ x, x ∈ fornecedoresOf l ↔ (x ≠ EmptyString ∧ ∃ n, n ∈ l ∧ fornecedorOf n = x).
Proof.
  induction l as [|n l [IHnd IHin]] using rev_ind.
  - split; [constructor|]. intros x. split; [by intros ?%elem_of_nil|].
    by intros (_ & n & ?%elem_of_nil & _).
  - rewrite fornecedoresOf_snoc. unfold addFornecedor.
    destruct (decide (fornecedorOf n ≠ EmptyString)) as [Hne|He].
    + split; [by apply setAdd_NoDup|]. intros x. rewrite setAdd_elem, IHin. split.
      * intros [(Hx & m & Hm & Hf)| ->].
        -- split; [done|]. exists m. split; [|done]. apply elem_of_app. by left.
        -- split; [done|]. exists n. split; [|done].
           apply elem_of_app. right. apply list_elem_of_here.
      * intros (Hx & m & Hm & Hf). apply elem_of_app in Hm as [Hm|Hm].
        -- left. eauto.
        -- right. apply list_elem_of_singleton in Hm. by subst.
    + split; [done|]. intros x. rewrite IHin. split.
      * intros (Hx & m & Hm & Hf). split; [done|]. exists m. split; [|done].
        apply elem_of_app. by left.
      * intros (Hx & m & Hm & Hf). split; [done|].
        apply elem_of_app in Hm as [Hm|Hm]; [eauto|].
        apply list_elem_of_singleton in Hm. subst m.
        destruct He. by rewrite Hf.
Qed.

Lemma elem_of_concat {A} (x : A) (ls : list (list A)) :
  x ∈ concat ls ↔ ∃ l, x ∈ l ∧ l ∈ ls.
Proof.
  induction ls as [|l0 ls IH]; simpl.
  - split; [by intros ?%elem_of_nil|by intros (? & _ & ?%elem_of_nil)].
  - rewrite elem_of_app, IH. split.
    + intros [Hx|(l & Hx & Hl)].
      * exists l0. split; [done|apply list_elem_of_here].
      * exists l. split; [done|by apply list_elem_of_further].
    + intros (l & Hx & Hl). apply elem_of_cons in Hl as [->|Hl]; [by left|].
      right. by exists l.
Qed.

Lemma mapGet_elem {V} k (v : V) (m : list (Z * V)) :
  NoDup m.*1 → ((k, v) ∈ m ↔ mapGet k m = Some v).
Proof.
  induction m as [|[k0 v0] m IH]; intros Hnd.
  - split; [by intros ?%elem_of_nil|done].
  - rewrite fmap_cons in Hnd. apply NoDup_cons in Hnd as [Hk0 Hnd]. simpl in Hk0.
    rewrite elem_of_cons. simpl. destruct (decide (k0 = k)) as [->|Hne].
    + split.
      * intros [[= ->]|Hin]; [done|]. destruct Hk0.
        apply list_elem_of_fmap. by exists (k, v).
      * intros [= ->]. by left.
    + rewrite <- IH by done. split; [|by right].
      intros [[= ? ?]|?]; [congruence|done].
Qed.

Section DashboardFacts.
Variable vNF : NFeExtractResponse → option float.

Lemma filialStatsMap_group state :
  filialStatsMap vNF state
  = foldl (groupStep (launchedEntry vNF)) [] (getLaunchedNotes state).
Proof.
  unfold filialStatsMap. apply foldl_ext_all. intros m n.
  unfold launchedStep, groupStep, launchedEntry. by destruct (filial n).
Qed.

Lemma launchedEntry_key n : keyOf (launchedEntry vNF) n = info_codigo <$> filial n.
Proof. unfold keyOf, launchedEntry. by destruct (filial n). Qed.

Lemma launchedEntry_is_Some n : is_Some (launchedEntry vNF n) ↔ is_Some (filial n).
Proof. unfold launchedEntry. destruct (filial n); split; intros [? ?]; eauto; done. Qed.

Lemma launchedEntry_afterAll c n0 rest :
  Forall (λ n, info_codigo <$> filial n = Some c) rest →
  afterAll (launchedEntry vNF) n0 rest
  = (λ info, {| dash_filial := info; dash_count := S (length rest);
                dash_valor := valorOf vNF n0 rest;
                dash_fornecedores := fornecedoresOf (n0 :: rest) |}) <$> filial n0.
Proof.
  induction rest as [|n rest IH] using rev_ind; intros Hrest.
  - unfold afterAll, launchedEntry, valorOf. simpl. by destruct (filial n0).
  - apply Forall_app in Hrest as [Hrest [Hn _]%Forall_cons].
    unfold afterAll in *. rewrite foldl_snoc, IH by done.
    unfold valorOf. rewrite foldl_snoc, length_app, app_comm_cons, fornecedoresOf_snoc.
    unfold launchedEntry at 1. destruct (filial n) as [info|]; [|done].
    destruct (filial n0) as [info0|]; [|done]. simpl.
    do 2 f_equal; lia.
Qed.

(** X15: the dashboard's statistics have one entry per code that the unit
    of some launched note has: the unit of the first such note, the number
    of such notes, the sum of their values from left to right, and their
    suppliers, each once, a note without supplier adding none.  The counts
    add up to the number of launched notes that have a unit, and the total
    of suppliers is the number of distinct suppliers of those notes. *)
Theorem filialStatsMap_by_unit (state : NotesStore) :
  NoDup (filialStatsMap vNF state).*1
  ∧ (∀ c, mapGet c (filialStatsMap vNF state)
          = match filter (λ n, info_codigo <$> filial n = Some c) (getLaunchedNotes state) with
            | [] => None
            | n0 :: rest =>
                (λ info, {| dash_filial := info;
                            dash_count := S (length rest);
                            dash_valor := valorOf vNF n0 rest;
                            dash_fornecedores := fornecedoresOf (n0 :: rest) |})
                  <$> filial n0
            end)
  ∧ (∀ c st, mapGet c (filialStatsMap vNF state) = Some st →
       NoDup (dash_fornecedores st)
       ∧ ∀ x, x ∈ dash_fornecedores st ↔
              (x ≠ EmptyString
               ∧ ∃ n, n ∈ getLaunchedNotes state
                      ∧ info_codigo <$> filial n = Some c ∧ fornecedorOf n = x))
  ∧ sum_list (dash_count <$> (filialStatsMap vNF state).*2)
    = length (filter (λ n, is_Some (filial n)) (getLaunchedNotes state))
  ∧ totalFornecedores vNF state
    = length (fornecedoresOf (filter (λ n, is_Some (filial n)) (getLaunchedNotes state))).
Proof.
  assert (NoDup (filialStatsMap vNF state).*1) as Hkeys.
  { rewrite filialStatsMap_group. apply groupFold_keys_NoDup. }
  assert (∀ c, mapGet c (filialStatsMap vNF state)
          = match filter (λ n, info_codigo <$> filial n = Some c) (getLaunchedNotes state) with
            | [] => None
            | n0 :: rest =>
                (λ info, {| dash_filial := info;
                            dash_count := S (length rest);
                            dash_valor := valorOf vNF n0 rest;
                            dash_fornecedores := fornecedoresOf (n0 :: rest) |})
                  <$> filial n0
            end) as Hlookup.
  { intros c. rewrite filialStatsMap_group, groupFold_lookup.
    rewrite (filter_ext_iff _ (λ n, info_codigo <$> filial n = Some c))
      by (intros n; by rewrite launchedEntry_key).
    destruct (filter _ (getLaunchedNotes state)) as [|n0 rest] eqn:E; [done|].
    apply (launchedEntry_afterAll c).
    assert (Forall (λ n, info_codigo <$> filial n = Some c) (n0 :: rest)) as Hall.
    { rewrite <- E. apply Forall_forall. by intros x [? _]%list_elem_of_filter. }
    by apply Forall_cons in Hall as [_ ?]. }
  assert (∀ c st, mapGet c (filialStatsMap vNF state) = Some st →
       NoDup (dash_fornecedores st)
       ∧ ∀ x, x ∈ dash_fornecedores st ↔
              (x ≠ EmptyString
               ∧ ∃ n, n ∈ getLaunchedNotes state
                      ∧ info_codigo <$> filial n = Some c ∧ fornecedorOf n = x)) as Hsup.
  { intros c st. rewrite Hlookup.
    destruct (filter _ (getLaunchedNotes state)) as [|n0 rest] eqn:E; [done|].
    destruct (filial n0) as [info|]; [|done]. intros [= <-]. simpl.
    destruct (fornecedoresOf_spec (n0 :: rest)) as [Hnd Hin]. split; [done|].
    intros x. rewrite Hin, <- E.
    split; intros (Hx & n & Hn & Hf); (split; [done|]); exists n.
    - apply list_elem_of_filter in Hn as [? ?]. done.
    - destruct Hf as [? ?]. split; [|done]. by apply list_elem_of_filter. }
  split; [done|]. split; [done|]. split; [done|]. split.
  - rewrite filialStatsMap_group, (groupFold_count _ dash_count).
    + f_equal. apply filter_ext_iff. intros n. apply launchedEntry_is_Some.
    + intros n k change fresh. unfold launchedEntry.
      destruct (filial n); [|done]. intros [= <- <- <-]. split; [done|]. by intros v.
  - unfold totalFornecedores.
    destruct (setFold_spec (concat ((λ e, dash_fornecedores e.2) <$> filialStatsMap vNF state)))
      as [Hnd Hin].
    destruct (fornecedoresOf_spec
                (filter (λ n, is_Some (filial n)) (getLaunchedNotes state))) as [Hnd' Hin'].
    apply Permutation_length, NoDup_Permutation; [done..|].
    intros x. rewrite Hin, Hin'. rewrite elem_of_concat. split.
    + intros (l & Hx & Hl). apply list_elem_of_fmap in Hl as ([c st] & -> & Hcst).
      apply mapGet_elem in Hcst; [|done]. simpl in Hx.
      apply (Hsup c st Hcst) in Hx as (Hne & n & Hn & Hc & Hf).
      split; [done|]. exists n. split; [|done].
      apply list_elem_of_filter. split; [|done].
      destruct (filial n); [by eexists|done].
    + intros (Hne & n & Hn & Hf). apply list_elem_of_filter in Hn as [[info Hinfo] Hn].
      destruct (mapGet (info_codigo info) (filialStatsMap vNF state)) as [st|] eqn:Est.
      * exists (dash_fornecedores st). split.
        -- apply (Hsup _ _ Est). split; [done|]. exists n.
           split; [done|]. split; [by rewrite Hinfo|done].
        -- apply list_elem_of_fmap. exists (info_codigo info, st).
           split; [done|]. by apply mapGet_elem.
      * rewrite Hlookup in Est.
        destruct (filter (λ n, info_codigo <$> filial n = Some (info_codigo info))
                    (getLaunchedNotes state)) as [|n0 rest] eqn:E.
        -- assert (n ∈ filter (λ n, info_codigo <$> filial n = Some (info_codigo info))
                     (getLaunchedNotes state)) as Hin0
             by (apply list_elem_of_filter; by rewrite Hinfo).
           rewrite E in Hin0. by apply elem_of_nil in Hin0.
        -- assert (n0 ∈ filter (λ n, info_codigo <$> filial n = Some (info_codigo info))
                     (getLaunchedNotes state)) as Hin0
             by (rewrite E; apply list_elem_of_here).
           apply list_elem_of_filter in Hin0 as [Hc0 _].
           destruct (filial n0); done.
Qed.
End DashboardFacts.

(** ** The handlers of the launch page *)

Lemma selectNextPending_run processed w :
  selectNextPending processed w
  = Normal (tt, {| zustand := {| notes := notes (zustand w);
                                 selectedNoteId := nextSelection processed (zustand w) |};
                   clockReads := clockReads w; idDraws := idDraws w |}).
Proof.
  unfold selectNextPending, nextSelection. rewrite bind_run. simpl.
  destruct (filter _ (getPendingNotes (zustand w))); [|done].
  by destruct w as [[??]??].
Qed.

Lemma handleMarkAsRejected_unfold wallClock page w selected :
  selectedIn (zustand w) = Some selected →
  trim (rejectReason page) ≠ EmptyString →
  handleMarkAsRejected wallClock page w
  = (markAsRejected wallClock (note_id selected) (rejectReason page) None;;
     selectNextPending (note_id selected);;
     mret {| rejectReason := EmptyString; showRejectModal := false;
             launchNotes := launchNotes page |}) w.
Proof.
  intros Hsel Hreason. unfold handleMarkAsRejected, selectedIn in *.
  rewrite bind_run. simpl. rewrite Hsel. rewrite decide_True by done.
  rewrite !bind_run. destruct (markAsRejected _ _ _ _ w) as [[[] w1]|]; [|done].
  unfold selectNextPending. by rewrite !bind_run.
Qed.

(** X16: with no note selected the launch, reject and reset handlers do
    nothing.  With a note selected, the launch handler launches every note
    of its id, without operator and with the typed note if there is one,
    and empties the note field; the reject handler, given a reason that is
    not blank, rejects them with that reason, empties the reason and closes
    the dialog; both then move the selection to the first note still
    pending that has another id, or leave it when there is none.  The
    reset handler makes the notes of the selected id pending again. *)
Theorem handlers_process_selected_note (wallClock : nat → Date) (page : LancamentoPage)
    (w : World) :
  (selectedIn (zustand w) = None →
     handleMarkAsLaunched wallClock page w = Normal (page, w)
     ∧ handleMarkAsRejected wallClock page w = Normal (page, w)
     ∧ handleResetStatus w = Normal (tt, w))
  ∧ (∀ selected, selectedIn (zustand w) = Some selected →
       (∃ w',
          handleMarkAsLaunched wallClock page w
          = Normal ({| rejectReason := rejectReason page;
                       showRejectModal := showRejectModal page;
                       launchNotes := EmptyString |}, w')
          ∧ Forall2 (λ n n', if decide (note_id n = note_id selected)
                             then ∃ now, n' = withLaunchInfo n
                                    (launchedInfo (launchInfo n) now None
                                       (orUndefined (launchNotes page)))
                             else n' = n)
              (notes (zustand w)) (notes (zustand w'))
          ∧ selectedNoteId (zustand w')
            = match filter (λ n, note_id n ≠ note_id selected)
                      (getPendingNotes (zustand w')) with
              | next :: _ => Some (note_id next)
              | [] => selectedNoteId (zustand w)
              end)
       ∧ (trim (rejectReason page) ≠ EmptyString →
          ∃ w',
            handleMarkAsRejected wallClock page w
            = Normal ({| rejectReason := EmptyString; showRejectModal := false;
                         launchNotes := launchNotes page |}, w')
            ∧ Forall2 (λ n n', if decide (note_id n = note_id selected)
                               then ∃ now, n' = withLaunchInfo n
                                      (rejectedInfo (launchInfo n) now
                                         (rejectReason page) None)
                               else n' = n)
                (notes (zustand w)) (notes (zustand w'))
            ∧ selectedNoteId (zustand w')
              = match filter (λ n, note_id n ≠ note_id selected)
                        (getPendingNotes (zustand w')) with
                | next :: _ => Some (note_id next)
                | [] => selectedNoteId (zustand w)
                end)
       ∧ (∃ w',
            handleResetStatus w = Normal (tt, w')
            ∧ selectedNoteId (zustand w') = selectedNoteId (zustand w)
            ∧ Forall2 (λ n n', if decide (note_id n = note_id selected)
                               then n' = withLaunchInfo n pendingInfo else n' = n)
                (notes (zustand w)) (notes (zustand w')))).
Proof.
  split.
  - unfold selectedIn, handleMarkAsLaunched, handleMarkAsRejected, handleResetStatus.
    intros Hnone. rewrite !bind_run. simpl. by rewrite Hnone.
  - intros selected Hsel. split; [|split].
    + destruct (mapMatching_spec (note_id selected) _ _ w
                  (launchNote_step wallClock None (orUndefined (launchNotes page))))
        as (w1 & Hrun & Hs1 & _ & HF).
      eexists. split.
      * unfold handleMarkAsLaunched, selectedIn in *. rewrite bind_run. simpl.
        rewrite Hsel. rewrite !bind_run.
        unfold markAsLaunched. rewrite Hrun.
        rewrite bind_run, selectNextPending_run. reflexivity.
      * simpl. split; [done|]. unfold nextSelection, getPendingNotes. simpl.
        by rewrite Hs1.
    + intros Hreason.
      destruct (mapMatching_spec (note_id selected) _ _ w
                  (rejectNote_step wallClock (rejectReason page) None))
        as (w1 & Hrun & Hs1 & _ & HF).
      eexists. split.
      * rewrite (handleMarkAsRejected_unfold _ _ _ selected) by done.
        rewrite !bind_run. unfold markAsRejected. rewrite Hrun.
        rewrite bind_run, selectNextPending_run. reflexivity.
      * simpl. split; [done|]. unfold nextSelection, getPendingNotes. simpl.
        by rewrite Hs1.
    + destruct (mapMatching_spec (note_id selected) _ _ w resetNote_step)
        as (w1 & Hrun & Hs1 & _ & HF).
      exists w1. split; [|done].
      unfold handleResetStatus, selectedIn in *. rewrite bind_run. simpl.
      by rewrite Hsel.
Qed.

(** ** The store of NFS-e *)

Section NfseFacts.
Context {Payload : Type}.
Variable wallClock : nat → Date.
Variable randomId : nat → string.

Lemma find_nfse_filter_other (sel : option string) id (l : list (ProcessedNfse Payload)) :
  sel ≠ Some id →
  List.find (λ n, bool_decide (Some (nfse_id n) = sel)) (filter (λ n, nfse_id n ≠ id) l)
  = List.find (λ n, bool_decide (Some (nfse_id n) = sel)) l.
Proof.
  intros Hne. induction l as [|n l IH]; [done|].
  rewrite filter_cons. destruct (decide (nfse_id n ≠ id)) as [Hn|Hn]; simpl.
  - by rewrite IH.
  - rewrite bool_decide_eq_false_2; [done|].
    intros Heq. apply Hne. rewrite <- Heq. f_equal.
    by destruct (decide (nfse_id n = id)).
Qed.

(** X17: in the store of NFS-e, adding a batch is the same as adding its
    entries one by one, and it appends one note per entry, in order, with
    the entry's file name and payload, the selection staying as it was.
    Removing the notes of an id never leaves the selection on that id,
    keeps any other selection, and does not disturb another selected note;
    clearing empties the collection and unsets the selection; selecting the
    id of a note of the collection makes the selected note one with that
    id and leaves the collection as it was.  The selected note is a note
    of the collection with the selected id. *)
Theorem nfse_store_behaviour (w : NfseWorld Payload) :
  (∀ entries,
     addNfseNotes wallClock randomId entries w
     = foldl (λ w e, addNfse wallClock randomId e.1 e.2 w) w entries
     ∧ ∃ newNotes,
         nfseNotes (nfseZustand (addNfseNotes wallClock randomId entries w))
         = (nfseNotes (nfseZustand w) ++ newNotes)%list
         ∧ (λ n, (nfse_filename n, nfse_data n)) <$> newNotes = entries
         ∧ selectedNfseId (nfseZustand (addNfseNotes wallClock randomId entries w))
           = selectedNfseId (nfseZustand w))
  ∧ (∀ id,
       selectedNfseId (nfseZustand (removeNfse id w)) ≠ Some id
       ∧ (selectedNfseId (nfseZustand w) ≠ Some id →
          selectedNfseId (nfseZustand (removeNfse id w)) = selectedNfseId (nfseZustand w))
       ∧ (∀ n, n ∈ nfseNotes (nfseZustand (removeNfse id w)) ↔
               (n ∈ nfseNotes (nfseZustand w) ∧ nfse_id n ≠ id))
       ∧ getSelectedNfse (removeNfse id w)
         = if decide (selectedNfseId (nfseZustand w) = Some id) then None
           else getSelectedNfse w)
  ∧ nfseNotes (nfseZustand (clearNfseNotes w)) = []
  ∧ selectedNfseId (nfseZustand (clearNfseNotes w)) = None
  ∧ getSelectedNfse (clearNfseNotes w) = None
  ∧ (∀ sel, selectedNfseId (nfseZustand (selectNfse sel w)) = sel
            ∧ nfseNotes (nfseZustand (selectNfse sel w)) = nfseNotes (nfseZustand w))
  ∧ (∀ n, n ∈ nfseNotes (nfseZustand w) →
          ∃ n', getSelectedNfse (selectNfse (Some (nfse_id n)) w) = Some n'
                ∧ nfse_id n' = nfse_id n ∧ n' ∈ nfseNotes (nfseZustand w))
  ∧ (∀ n, getSelectedNfse w = Some n →
          n ∈ nfseNotes (nfseZustand w)
          ∧ selectedNfseId (nfseZustand w) = Some (nfse_id n)).
Proof.
  split; [|split; [|split; [|split; [|split; [|split; [|split]]]]]].
  - intros entries. split.
    + revert w. induction entries as [|[fname payload] entries IH]; intros w.
      * unfold addNfseNotes. simpl. rewrite app_nil_r, !Nat.add_0_r.
        by destruct w as [[??]??].
      * simpl. rewrite <- IH. unfold addNfseNotes, addNfse. simpl.
        rewrite <- (assoc_L (++)). simpl. by rewrite <- !Nat.add_succ_comm.
    + exists (newNfseNotes wallClock randomId entries (nfseIdDraws w) (nfseClockReads w)).
      split; [done|]. split; [|done].
      generalize (nfseIdDraws w) (nfseClockReads w).
      induction entries as [|[fname payload] entries IH]; intros d r; [done|].
      simpl. by rewrite IH.
  - intros id. simpl. split; [|split; [|split]].
    + by case_decide.
    + intros Hs. by rewrite decide_False.
    + intros n. rewrite list_elem_of_filter. tauto.
    + unfold getSelectedNfse. simpl.
      destruct (decide (selectedNfseId (nfseZustand w) = Some id)) as [Hs|Hs].
      * destruct (find _ _) as [n|] eqn:E; [|done].
        apply find_some in E as [_ Hb]. by apply bool_decide_eq_true in Hb.
      * by apply find_nfse_filter_other.
  - done.
  - done.
  - done.
  - done.
  - intros n Hn. unfold getSelectedNfse. simpl.
    destruct (find _ _) as [n'|] eqn:E.
    + apply find_some in E as [Hin Hb]. apply bool_decide_eq_true in Hb.
      exists n'. split; [done|]. split; [congruence|by apply list_elem_of_In].
    + apply list_elem_of_In in Hn.
      pose proof (find_none _ _ E n Hn) as Hb. simpl in Hb.
      by apply bool_decide_eq_false in Hb.
  - intros n Hn. apply find_some in Hn as [Hin Hb].
    apply bool_decide_eq_true in Hb. split; [by apply list_elem_of_In|done].
Qed.
End NfseFacts.

Lemma filteredNotes_sublist statusFilter state :
  sublist (filteredNotes statusFilter state) (notes state).
Proof. destruct statusFilter; simpl; [done|apply sublist_filter..]. Qed.

Lemma selectedIn_is_Some state n :
  n ∈ notes state → selectedNoteId state = Some (note_id n) → is_Some (selectedIn state).
Proof.
  intros Hin Hsel. unfold selectedIn.
  destruct (find _ (notes state)) as [n'|] eqn:E; [by eexists|].
  apply list_elem_of_In in Hin. pose proof (find_none _ _ E n Hin) as Hb.
  simpl in Hb. apply bool_decide_eq_false in Hb. by rewrite Hsel in Hb.
Qed.

(** X18: when the page renders without a selected note and the filtered
    list is not empty, it selects the first note of the list; afterwards a
    note is selected, so the next rendering selects nothing.  When a note
    is selected already, or the list is empty, it changes nothing.  The
    collection is never changed. *)
Theorem autoSelect_settles (statusFilter : StatusFilter) (w : World) :
  ∃ b w',
    autoSelect statusFilter w = Normal (b, w')
    ∧ notes (zustand w') = notes (zustand w)
    ∧ (b = false → w' = w)
    ∧ (b = true ↔ (selectedIn (zustand w) = None ∧ filteredNotes statusFilter (zustand w) ≠ []))
    ∧ (b = true →
         selectedNoteId (zustand w') = note_id <$> head (filteredNotes statusFilter (zustand w))
         ∧ is_Some (selectedIn (zustand w'))
         ∧ autoSelect statusFilter w' = Normal (false, w')).
Proof.
  unfold autoSelect. rewrite bind_run. simpl. fold (selectedIn (zustand w)).
  destruct (selectedIn (zustand w)) as [n|] eqn:Esel.
  - exists false, w. repeat split; try done. by intros [? _].
  - destruct (filteredNotes statusFilter (zustand w)) as [|next rest] eqn:Ef.
    + exists false, w. repeat split; try done. by intros [_ ?].
    + eexists true, _. split; [reflexivity|]. simpl.
      split; [done|]. split; [done|]. split; [done|]. intros _.
      split; [done|].
      assert (next ∈ notes (zustand w)) as Hin.
      { eapply elem_of_sublist; [|apply (filteredNotes_sublist statusFilter)].
        rewrite Ef. apply list_elem_of_here. }
      assert (is_Some (selectedIn {| notes := notes (zustand w);
                                     selectedNoteId := Some (note_id next) |})) as Hs
        by (by apply (selectedIn_is_Some _ next)).
      split; [done|].
      rewrite bind_run. simpl.
      destruct Hs as [n' Hn']. unfold selectedIn in Hn'. simpl in Hn'. by rewrite Hn'.
Qed.
